(** * OctoSQL: group-by execution, plan description and the root command

    A shallow embedding of
    - [execution/group_by.go]  (module [Execution]),
    - the plan describer of package [physical]  (module [Physical]),
    - [cmd/root.go]  (module [Cmd]),
    together with the properties stated about them. *)

From stdpp Require Import base option list strings gmap pretty.
From Stdlib Require Import ZArith Lia.

Set Default Proof Using "Type".
#[local] Set Warnings "-register-all".
Local Open Scope string_scope.

(** ** Go runtime notions shared by the three packages *)

(** The value carried by a Go panic, as far as the embedded code can raise
    one itself. *)
Inductive PanicValue : Type :=
| PanicMsg (msg : string)                 (* panic("...") *)
| IndexOutOfRange (i len : nat)           (* s[i] with i >= len(s) *)
| NilDereference.                         (* method call through a nil pointer *)

#[global] Instance PanicValue_eq_dec : EqDecision PanicValue.
Proof. solve_decision. Defined.

(** A computation that yields a value or panics. *)
Inductive Res (A : Type) : Type :=
| Ok (a : A)
| Panic (p : PanicValue).
Arguments Ok {A} a.
Arguments Panic {A} p.

#[global] Instance Res_ret : MRet Res := λ A a, Ok a.
#[global] Instance Res_bind : MBind Res := λ A B k m,
  match m with
  | Ok a => k a
  | Panic p => Panic p
  end.

Definition is_Ok {A} (r : Res A) : bool :=
  match r with
  | Ok _ => true
  | Panic _ => false
  end.

(** ** execution/group_by.go *)
Module Execution.

(** Go [error] values.  [ErrEndOfStream] is the package-level sentinel, compared
    by identity ([err == ErrEndOfStream]); [errors.Wrap]/[errors.Wrapf] build a
    new error around a cause, so a wrapped sentinel is not the sentinel. *)
Inductive error : Type :=
| ErrEndOfStream
| ErrNew (msg : string)
| ErrWrap (cause : error) (msg : string).

#[global] Instance error_eq_dec : EqDecision error.
Proof. solve_decision. Defined.

Definition errors_Wrap (err : error) (msg : string) : error := ErrWrap err msg.

(** [errors.Wrapf(err, fmt + "%v", i)] for the two call sites, which both
    end in an index. *)
Definition errors_Wrapf (err : error) (msg : string) (i : nat) : error :=
  ErrWrap err (msg ++ pretty i).

(** The [interface{}] values that flow through keys and aggregates.
    [VUnit] is [struct{}{}]. *)
Inductive Value : Type :=
| VNil
| VUnit
| VBool (b : bool)
| VInt (z : Z)
| VString (s : string).

#[global] Instance Value_eq_dec : EqDecision Value.
Proof. solve_decision. Defined.

(** A group key, [[]interface{}]. *)
Abbreviation Key := (list Value).

(** The [Aggregate] interface (group_by.go, lines 12-16) as the list of its
    methods: name, parameter types, result types. *)
Record MethodSig : Type := {
  m_name : string;
  m_params : list string;
  m_results : list string;
}.

Definition Aggregate_interface : list MethodSig :=
  [ {| m_name := "AddRecord";
       m_params := ["[]interface{}"; "interface{}"];
       m_results := ["error"] |};
    {| m_name := "GetAggregated";
       m_params := ["[]interface{}"];
       m_results := ["interface{}"; "error"] |};
    {| m_name := "String"; m_params := []; m_results := ["string"] |} ].

Definition method_names (i : list MethodSig) : list string := m_name <$> i.

(** A value implementing [Aggregate]: some private state with the three
    methods.  [AddRecord] mutates the receiver (and may do so even when it
    reports an error); [GetAggregated] and [String] only read it. *)
Record Aggregate : Type := {
  agg_state : Type;
  agg_cur : agg_state;
  agg_AddRecord : agg_state → Key → Value → agg_state * option error;
  agg_GetAggregated : agg_state → Key → Value * option error;
  agg_String : string;
}.

Definition AddRecord (a : Aggregate) (key : Key) (value : Value)
  : Aggregate * option error :=
  let '(s, err) := agg_AddRecord a (agg_cur a) key value in
  ({| agg_cur := s;
      agg_AddRecord := agg_AddRecord a;
      agg_GetAggregated := agg_GetAggregated a;
      agg_String := agg_String a |}, err).

Definition GetAggregated (a : Aggregate) (key : Key) : Value * option error :=
  agg_GetAggregated a (agg_cur a) key.

Definition String (a : Aggregate) : string := agg_String a.

(** [type AggregatePrototype func() Aggregate] *)
Definition AggregatePrototype : Type := unit → Aggregate.

(** Modelled from the spec: the composite-key hashmap ([HashMap], [Iterator])
    is not among the sources.  Keys are compared element-wise; the iterator
    yields the entries in the order their keys were first inserted. *)
Record HashMap : Type := { entries : list (Key * Value) }.

Definition NewHashMap : HashMap := {| entries := [] |}.

Fixpoint set_entry (key : Key) (value : Value) (l : list (Key * Value))
  : list (Key * Value) :=
  match l with
  | [] => [(key, value)]
  | (k, v) :: l' =>
      if decide (k = key) then (k, value) :: l' else (k, v) :: set_entry key value l'
  end.

Definition HashMap_Set (hm : HashMap) (key : Key) (value : Value)
  : HashMap * option error :=
  ({| entries := set_entry key value (entries hm) |}, None).

Record Iterator : Type := { remaining : list (Key * Value) }.

Definition GetIterator (hm : HashMap) : Iterator := {| remaining := entries hm |}.

(** [key, value, ok := it.Next()] *)
Definition Iterator_Next (it : Iterator) : option (Key * Value) * Iterator :=
  match remaining it with
  | [] => (None, it)
  | e :: l => (Some e, {| remaining := l |})
  end.

(** The distinct keys of a sequence of keys, each at the place of its first
    occurrence. *)
Fixpoint first_occ (ks : list Key) : list Key :=
  match ks with
  | [] => []
  | k :: ks' => k :: filter (λ k', k' ≠ k) (first_occ ks')
  end.

(** Putting a key into a sequence of distinct keys: it goes to the end unless
    it is there already. *)
Definition ins (acc : list Key) (k : Key) : list Key :=
  if decide (k ∈ acc) then acc else (acc ++ [k])%list.

Section GroupBy.

(** What group_by.go uses from package [octosql] and from the rest of
    package [execution], none of it among the sources. *)
Context {VariableName Variables : Type}.
Context (NewVariableName : string → VariableName).
Context (VariableName_String : VariableName → string).
Context (MergeWith : Variables → Variables → Variables * option error).

(** Modelled from the spec: a record is a vector of field names with the
    values at the same positions ([NewRecordFromSlice]). *)
Record Record_ : Type := NewRecordFromSlice {
  rec_fieldNames : list VariableName;
  rec_data : list Value;
}.

Context (AsVariables : Record_ → Variables).
Context (Record_Value : Record_ → VariableName → Value).

(** [Expression.ExpressionValue(variables)] *)
Definition Expression : Type := Variables → Value * option error.

(** A [RecordStream] used as a source, given by the answers it makes to the
    successive calls of its [Next]: a possibly nil record pointer and a
    possibly nil error.  Once the list is used up the stream answers
    [(nil, ErrEndOfStream)]. *)
Definition RecordStream : Type := list (option Record_ * option error).

Definition RecordStream_Next (s : RecordStream)
  : (option Record_ * option error) * RecordStream :=
  match s with
  | [] => ((None, Some ErrEndOfStream), [])
  | answer :: s' => (answer, s')
  end.

(** [Node.Get(variables)] of the source node: a stream, or an error (the
    stream is then ignored). *)
Definition Node : Type := Variables → RecordStream * option error.

Record GroupBy : Type := NewGroupBy {
  gb_source : Node;
  gb_key : list Expression;
  gb_fields : list VariableName;
  gb_aggregatePrototypes : list AggregatePrototype;
}.

Record GroupByStream : Type := {
  source : RecordStream;
  variables : Variables;
  key : list Expression;
  groups : HashMap;
  fields : list VariableName;
  aggregates : list Aggregate;
  fieldNames : list VariableName;
  iterator : option Iterator;
}.

(** [GroupBy.Get] (lines 30-48).  The stream literal does not mention
    [groups], [fieldNames] and [iterator]; they start at their zero values,
    and the zero hashmap is taken to be the empty one. *)
Definition Get (node : GroupBy) (vars : Variables)
  : option GroupByStream * option error :=
  match gb_source node vars with
  | (_, Some err) =>
      (None, Some (errors_Wrap err "couldn't get stream for source in group by"))
  | (src, None) =>
      (Some {| source := src;
               variables := vars;
               key := gb_key node;
               groups := NewHashMap;
               fields := gb_fields node;
               aggregates := (λ p, p ()) <$> gb_aggregatePrototypes node;
               fieldNames := [];
               iterator := None |}, None)
  end.

(** How the source-reading loop of [Next] (lines 66-114) is left. *)
Inductive LoopExit : Type :=
| Break (st : GroupByStream)                    (* line 81 *)
| LoopReturn (err : error) (st : GroupByStream) (* return nil, err *)
| LoopPanic (p : PanicValue).

(** What a call of [Next] does: it returns a record pointer and an error,
    leaving the stream in a new state, or it panics. *)
Inductive NextResult : Type :=
| Returned (record : option Record_) (err : option error) (st : GroupByStream)
| Panicked (p : PanicValue).

Definition with_source (st : GroupByStream) (src : RecordStream) : GroupByStream :=
  {| source := src; variables := variables st; key := key st;
     groups := groups st; fields := fields st; aggregates := aggregates st;
     fieldNames := fieldNames st; iterator := iterator st |}.

Definition with_groups (st : GroupByStream) (hm : HashMap) : GroupByStream :=
  {| source := source st; variables := variables st; key := key st;
     groups := hm; fields := fields st; aggregates := aggregates st;
     fieldNames := fieldNames st; iterator := iterator st |}.

Definition with_aggregates (st : GroupByStream) (aggs : list Aggregate)
  : GroupByStream :=
  {| source := source st; variables := variables st; key := key st;
     groups := groups st; fields := fields st; aggregates := aggs;
     fieldNames := fieldNames st; iterator := iterator st |}.

Definition with_fieldNames (st : GroupByStream) (names : list VariableName)
  : GroupByStream :=
  {| source := source st; variables := variables st; key := key st;
     groups := groups st; fields := fields st; aggregates := aggregates st;
     fieldNames := names; iterator := iterator st |}.

Definition with_iterator (st : GroupByStream) (it : option Iterator)
  : GroupByStream :=
  {| source := source st; variables := variables st; key := key st;
     groups := groups st; fields := fields st; aggregates := aggregates st;
     fieldNames := fieldNames st; iterator := it |}.

(** [fmt.Sprintf("%s_%s", field.String(), aggregate.String())] *)
Definition fieldName (field : VariableName) (agg : Aggregate) : VariableName :=
  NewVariableName (VariableName_String field ++ "_" ++ String agg).

(** The output field names, from the fields and the display names of the
    aggregates at the same positions. *)
Definition outputNames (fs : list VariableName) (names : list string)
  : list VariableName :=
  zip_with (λ f s, NewVariableName (VariableName_String f ++ "_" ++ s)) fs names.

(** Lines 70-79: [for i := range stream.fields], reading
    [stream.aggregates[i]].  [i] is the index of the head of [fs]; [aggs] is
    [stream.aggregates[i:]] and [n] is [len(stream.aggregates)]. *)
Fixpoint makeFieldNames (i n : nat) (fs : list VariableName) (aggs : list Aggregate)
  : list VariableName + PanicValue :=
  match fs with
  | [] => inl []
  | f :: fs' =>
      match aggs with
      | [] => inr (IndexOutOfRange i n)
      | a :: aggs' =>
          match makeFieldNames (S i) n fs' aggs' with
          | inl names => inl (fieldName f a :: names)
          | inr p => inr p
          end
      end
  end.

(** Lines 91-97: the key expressions are evaluated in turn; [i] is the index
    of the head of [exprs]. *)
Fixpoint evalKey (i : nat) (exprs : list Expression) (vars : Variables)
  : Key + error :=
  match exprs with
  | [] => inl []
  | e :: exprs' =>
      match e vars with
      | (_, Some err) =>
          inr (errors_Wrapf err "couldn't evaluate group key expression with index " i)
      | (v, None) =>
          match evalKey (S i) exprs' vars with
          | inl vs => inl (v :: vs)
          | inr err => inr err
          end
      end
  end.

(** How the loop over the aggregates (lines 108-113) is left. *)
Inductive AddStatus : Type :=
| AddDone
| AddFailed (err : error)
| AddPanicked (p : PanicValue).

(** Lines 108-113: [for i := range stream.aggregates], reading
    [stream.fields[i]].  [fs] is [stream.fields[i:]] and [n] is
    [len(stream.fields)].  The aggregates before the failing one keep the
    record they were given. *)
Fixpoint addRecords (i n : nat) (aggs : list Aggregate) (fs : list VariableName)
    (k : Key) (record : Record_) : list Aggregate * AddStatus :=
  match aggs with
  | [] => ([], AddDone)
  | a :: aggs' =>
      match fs with
      | [] => (a :: aggs', AddPanicked (IndexOutOfRange i n))
      | f :: fs' =>
          match AddRecord a k (Record_Value record f) with
          | (a', Some err) =>
              (a' :: aggs',
               AddFailed (errors_Wrapf err
                 "couldn't add record value to aggregate with index " i))
          | (a', None) =>
              let '(rest, status) := addRecords (S i) n aggs' fs' k record in
              (a' :: rest, status)
          end
      end
  end.

(** Lines 70-81: the source has ended; [rest] is what is left of it. *)
Definition endOfSource (st : GroupByStream) (rest : RecordStream) : LoopExit :=
  match makeFieldNames 0 (length (aggregates st)) (fields st) (aggregates st) with
  | inr p => LoopPanic p
  | inl names =>
      Break (with_iterator (with_fieldNames (with_source st rest) names)
                           (Some (GetIterator (groups st))))
  end.

(** Lines 66-114: the loop that reads the source, by recursion on the answers
    the source still has to give. *)
Fixpoint readSource (src : RecordStream) (st : GroupByStream) : LoopExit :=
  match src with
  | [] => endOfSource st []
  | (record, err) :: rest =>
      match err with
      | Some err =>
          if decide (err = ErrEndOfStream) then endOfSource st rest
          else LoopReturn (errors_Wrap err "couldn't get next source record")
                          (with_source st rest)
      | None =>
      match record with
      | None => LoopPanic NilDereference
      | Some record =>
      match MergeWith (variables st) (AsVariables record) with
      | (_, Some err) =>
          LoopReturn (errors_Wrap err "couldn't merge stream variables with record")
                     (with_source st rest)
      | (vars, None) =>
      match evalKey 0 (key st) vars with
      | inr err => LoopReturn err (with_source st rest)
      | inl k0 =>
      let k := if decide (length k0 = 0) then (k0 ++ [VUnit])%list else k0 in
      match HashMap_Set (groups st) k VUnit with
      | (hm, Some err) =>
          LoopReturn (errors_Wrap err "couldn't put group key into hashmap")
                     (with_groups (with_source st rest) hm)
      | (hm, None) =>
      match addRecords 0 (length (fields st)) (aggregates st) (fields st) k record with
      | (aggs, AddPanicked p) => LoopPanic p
      | (aggs, AddFailed err) =>
          LoopReturn err (with_aggregates (with_groups (with_source st rest) hm) aggs)
      | (aggs, AddDone) =>
          readSource rest (with_aggregates (with_groups st hm) aggs)
      end end end end end end
  end.

(** Lines 123-130: the aggregated values of one group. *)
Fixpoint getValues (aggs : list Aggregate) (k : Key) : list Value + error :=
  match aggs with
  | [] => inl []
  | a :: aggs' =>
      match GetAggregated a k with
      | (_, Some err) => inr (errors_Wrap err "couldn't get aggregate value")
      | (v, None) =>
          match getValues aggs' k with
          | inl vs => inl (v :: vs)
          | inr err => inr err
          end
      end
  end.

(** Lines 117-132: one step of the iterator over the groups. *)
Definition emitGroup (st : GroupByStream) (it : Iterator) : NextResult :=
  match Iterator_Next it with
  | (None, it') => Returned None (Some ErrEndOfStream) (with_iterator st (Some it'))
  | (Some (typedKey, _), it') =>
      let st' := with_iterator st (Some it') in
      match getValues (aggregates st) typedKey with
      | inr err => Returned None (Some err) st'
      | inl values =>
          Returned (Some (NewRecordFromSlice (fieldNames st) values))
                   (Some ErrEndOfStream) st'
      end
  end.

(** [GroupByStream.Next] (lines 64-133). *)
Definition Next (st : GroupByStream) : NextResult :=
  match iterator st with
  | Some it => emitGroup st it
  | None =>
      match readSource (source st) st with
      | LoopPanic p => Panicked p
      | LoopReturn err st' => Returned None (Some err) st'
      | Break st' =>
          match iterator st' with
          | Some it => emitGroup st' it
          | None => Panicked NilDereference
          end
      end
  end.

(** The group key of a source record (lines 86-101), when the variables
    merge and every key expression evaluates. *)
Definition groupKey (st : GroupByStream) (record : Record_) : option Key :=
  match MergeWith (variables st) (AsVariables record) with
  | (_, Some _) => None
  | (vars, None) =>
      match evalKey 0 (key st) vars with
      | inr _ => None
      | inl k0 => Some (if decide (length k0 = 0) then (k0 ++ [VUnit])%list else k0)
      end
  end.

(** The records a source hands out before its first non-nil error. *)
Fixpoint sourceRecords (src : RecordStream) : list Record_ :=
  match src with
  | [] => []
  | (record, err) :: rest =>
      match err, record with
      | None, Some record => record :: sourceRecords rest
      | _, _ => []
      end
  end.

(** The aggregated values of a group, and the record made of them. *)
Definition groupValues (aggs : list Aggregate) (k : Key) : list Value :=
  match getValues aggs k with
  | inl vs => vs
  | inr _ => []
  end.

Definition groupRecord (st : GroupByStream) (k : Key) : Record_ :=
  NewRecordFromSlice (fieldNames st) (groupValues (aggregates st) k).

(** Whether every aggregate has a value for the group. *)
Definition hasValues (aggs : list Aggregate) (k : Key) : bool :=
  match getValues aggs k with
  | inl _ => true
  | inr _ => false
  end.

(** The stream as the source-reading loop leaves it. *)
Definition drained (st : GroupByStream) : GroupByStream :=
  match readSource (source st) st with
  | Break st1 => st1
  | LoopReturn _ st1 => st1
  | LoopPanic _ => st
  end.

(** What every state of a stream keeps: its fields, the display names of its
    aggregates, and, once the iterator is set, the output field names. *)
Definition names_kept (F N : list VariableName) (st : GroupByStream) : Prop :=
  fields st = F
  ∧ outputNames F (String <$> aggregates st) = N
  ∧ (is_Some (iterator st) → fieldNames st = N ∧ length N = length F).

(** A consumer that calls [Next] [n] times, whatever it answers, and keeps
    the answers in order.  It stops at a panic. *)
Fixpoint pull (n : nat) (st : GroupByStream)
  : list (option Record_ * option error) * option GroupByStream :=
  match n with
  | 0 => ([], Some st)
  | S n' =>
      match Next st with
      | Panicked _ => ([], None)
      | Returned r e st' =>
          let '(answers, final) := pull n' st' in ((r, e) :: answers, final)
      end
  end.

(** The records handed out by the first [n] calls of [Next]. *)
Definition emitted (n : nat) (st : GroupByStream) : list Record_ :=
  omap fst (pull n st).1.

End GroupBy.

Arguments Record_ : clear implicits.
Arguments RecordStream : clear implicits.
Arguments GroupByStream : clear implicits.
Arguments GroupBy : clear implicits.
Arguments NextResult : clear implicits.
Arguments LoopExit : clear implicits.

(** *** Built-in aggregates and a concrete [octosql] package

    Used to run the embedding on concrete inputs. *)

(** A per-key table of integers, the state of [count] and [sum]. *)
Fixpoint bump (k : Key) (d : Z) (l : list (Key * Z)) : list (Key * Z) :=
  match l with
  | [] => [(k, d)]
  | (k', z) :: l' =>
      if decide (k' = k) then (k', (z + d)%Z) :: l' else (k', z) :: bump k d l'
  end.

Fixpoint total (k : Key) (l : list (Key * Z)) : option Z :=
  match l with
  | [] => None
  | (k', z) :: l' => if decide (k' = k) then Some z else total k l'
  end.

(** Modelled from the spec: the built-in [count] (section 4.5), the number of
    records added under a key, 0 for a key that received none. *)
Definition countWith (counts : list (Key * Z)) : Aggregate :=
  {| agg_state := list (Key * Z);
     agg_cur := counts;
     agg_AddRecord := λ s k _, (bump k 1 s, None);
     agg_GetAggregated := λ s k, (VInt (default 0%Z (total k s)), None);
     agg_String := "count" |}.

Definition Count : AggregatePrototype := λ _, countWith [].

(** All that the interface lets a caller do to an aggregate: add records. *)
Definition addAll (a : Aggregate) (calls : list (Key * Value)) : Aggregate :=
  fold_left (λ a call, (AddRecord a call.1 call.2).1) calls a.

(** Modelled from the spec: the built-in [sum] (section 4.5) over integers; a
    value of another type is a type mismatch. *)
Definition Sum : AggregatePrototype := λ _,
  {| agg_state := list (Key * Z);
     agg_cur := [];
     agg_AddRecord := λ s k v,
       match v with
       | VInt z => (bump k z s, None)
       | _ => (s, Some (ErrNew "invalid type for sum"))
       end;
     agg_GetAggregated := λ s k,
       match total k s with
       | Some z => (VInt z, None)
       | None => (VNil, Some (ErrNew "sum for key not found"))
       end;
     agg_String := "sum" |}.

Module Sample.

Definition VariableName : Type := string.
Definition Variables : Type := list (string * Value).
Definition NewVariableName (s : string) : VariableName := s.
Definition VariableName_String (v : VariableName) : string := v.
Definition MergeWith (a b : Variables) : Variables * option error :=
  ((a ++ b)%list, None).

Fixpoint lookupVar (name : string) (vs : Variables) : Value :=
  match vs with
  | [] => VNil
  | (n, v) :: vs' => if decide (n = name) then v else lookupVar name vs'
  end.

Definition AsVariables (r : Record_ VariableName) : Variables :=
  zip (rec_fieldNames r) (rec_data r).
Definition Record_Value (r : Record_ VariableName) (f : VariableName) : Value :=
  lookupVar f (AsVariables r).

(** A variable reference used as a key expression. *)
Definition Var (name : string) : @Expression Variables :=
  λ vars, (lookupVar name vars, None).

Definition Next := @Next VariableName Variables NewVariableName
  VariableName_String MergeWith AsVariables Record_Value.
Definition pull := @pull VariableName Variables NewVariableName
  VariableName_String MergeWith AsVariables Record_Value.
Definition emitted := @emitted VariableName Variables NewVariableName
  VariableName_String MergeWith AsVariables Record_Value.

Definition row (k : string) (v : Z) : Record_ VariableName :=
  NewRecordFromSlice ["k"; "price"] [VString k; VInt v].

Definition ok (r : Record_ VariableName)
  : option (Record_ VariableName) * option error := (Some r, None).

(** [SELECT count(price) FROM t] over a source with one row. *)
Definition count_one_row : GroupBy VariableName Variables :=
  NewGroupBy (λ _, ([ok (row "a" 1)], None)) [] ["price"] [Count].

(** The same query over a source that ends at once. *)
Definition count_no_rows : GroupBy VariableName Variables :=
  NewGroupBy (λ _, ([], None)) [] ["price"] [Count].

(** [SELECT sum(price) FROM t GROUP BY k] over (a,1), (b,3), (a,2). *)
Definition sum_by_k : GroupBy VariableName Variables :=
  NewGroupBy (λ _, ([ok (row "a" 1); ok (row "b" 3); ok (row "a" 2)], None))
             [Var "k"] ["price"] [Sum].

(** The count of the counts: a group-by whose source is the stream of
    [count_one_row], given by its first two answers. *)
Definition count_of_counts : GroupBy VariableName Variables :=
  NewGroupBy (λ _, ((pull 2 (
    match Get count_one_row [] with
    | (Some st, _) => st
    | (None, _) =>
        {| source := []; variables := []; key := []; groups := NewHashMap;
           fields := []; aggregates := []; fieldNames := []; iterator := None |}
    end)).1, None)) [] ["price_count"] [Count].

(** The stream of a sample query. *)
Definition stream_of (node : GroupBy VariableName Variables)
  : GroupByStream VariableName Variables :=
  match Get node [] with
  | (Some st, _) => st
  | (None, _) =>
      {| source := []; variables := []; key := []; groups := NewHashMap;
         fields := []; aggregates := []; fieldNames := []; iterator := None |}
  end.

(** The stream after one call of [Next], and after its source is read. *)
Definition after (st : GroupByStream VariableName Variables)
  : GroupByStream VariableName Variables :=
  match Next st with
  | Returned _ _ st' => st'
  | Panicked _ => st
  end.

Definition drained := @drained VariableName Variables NewVariableName
  VariableName_String MergeWith AsVariables Record_Value.

(** The sums over a source that fails once, between (a,1) and (b,3). *)
Definition sum_failing : GroupBy VariableName Variables :=
  NewGroupBy (λ _, ([ok (row "a" 1); (None, Some (ErrNew "disk")); ok (row "b" 3)],
                    None))
             [Var "k"] ["price"] [Sum].

(** Two fields and one aggregate. *)
Definition too_few_aggregates : GroupBy VariableName Variables :=
  NewGroupBy (λ _, ([ok (row "a" 1)], None)) [Var "k"] ["price"; "k"] [Count].

(** The sums by [k] where the row of b has no integer to add: the first
    call of [Next] fails at that row, whose key is in the hashmap by then. *)
Definition sum_some_rows : GroupBy VariableName Variables :=
  NewGroupBy (λ _, ([ok (row "a" 1);
                     ok (NewRecordFromSlice ["k"; "price"] [VString "b"; VNil]);
                     ok (row "c" 5)], None))
             [Var "k"] ["price"] [Sum].

End Sample.
End Execution.


(** ** package physical: the plan describer *)
Module Physical.

(** Modelled from the spec: package [helpers/graph] is not among the sources.
    A vertex has a label, scalar fields and named child edges; [AddField] and
    [AddChild] put the new field or edge after the ones already there. *)
Inductive graph_Node : Type :=
| GNode (name : string) (fields : list (string * string))
        (children : list (string * graph_Node)).

Definition NewNode (name : string) : graph_Node := GNode name [] [].

Definition AddField (out : graph_Node) (name value : string) : graph_Node :=
  match out with
  | GNode n fs cs => GNode n (fs ++ [(name, value)])%list cs
  end.

Definition AddChild (out : graph_Node) (name : string) (child : graph_Node)
  : graph_Node :=
  match out with
  | GNode n fs cs => GNode n fs (cs ++ [(name, child)])%list
  end.

(** [AddChild] for each of a list of edges, in order. *)
Definition AddChildren (out : graph_Node) (edges : list (string * graph_Node))
  : graph_Node :=
  fold_left (λ out edge, AddChild out edge.1 edge.2) edges out.

(** [fmt.Sprintf("%t", b)] and [fmt.Sprintf("arg_%d", i)] *)
Definition fmt_bool (b : bool) : string := if b then "true" else "false".
Definition arg_name (i : nat) : string := "arg_" ++ pretty i.

Section Plan.

(** Values and types of package [octosql], with their [String] methods. *)
Context {OValue OType : Type}.
Context (Value_String : OValue → string) (Type_String : OType → string).
Record SchemaField : Type := {
  sf_Name : string;
  sf_Type : OType;
}.

Record Schema : Type := {
  Fields : list SchemaField;
  TimeField : Z;
  NoRetractions : bool;
}.

(** [physical.Aggregate], of which the describer reads the name. *)
Record Aggregate : Type := { agg_Name : string }.

(** Modelled from the spec: the declarations of [physical.Node],
    [physical.Expression] and [physical.TableValuedFunctionArgument] are not
    among the sources.  In the code each is a struct with a type tag and one
    payload pointer for each variant; here each is the sum of its variants,
    the node with its schema and the expression with its type.
    [NodeLimit] is the variant cmd/root.go builds; [ExprOther] and [ArgOther]
    stand for a tag that the switches of the describer do not list.
    [Arguments] of a table valued function is a Go map, given here by its
    entries. *)
Inductive Node : Type :=
| NodeDatasource (schema : Schema) (Name : string) (Predicates : list Expression)
| NodeDistinct (schema : Schema) (Source : Node)
| NodeFilter (schema : Schema) (Source : Node) (Predicate : Expression)
| NodeGroupBy (schema : Schema) (Source : Node) (Key : list Expression)
              (Aggregates : list Aggregate)
              (AggregateExpressions : list Expression)
| NodeStreamJoin (schema : Schema) (Left Right : Node)
                 (LeftKey RightKey : list Expression)
| NodeLookupJoin (schema : Schema) (Source Joined : Node)
| NodeMap (schema : Schema) (Source : Node) (Expressions : list Expression)
| NodeOrderBy (schema : Schema) (Source : Node) (Key : list Expression)
              (DirectionMultipliers : list Z)
| NodeRequalifier (schema : Schema) (Source : Node) (Qualifier : string)
| NodeTableValuedFunction (schema : Schema) (Name : string)
    (Arguments : list (string * TableValuedFunctionArgument))
| NodeUnnest (schema : Schema) (Source : Node) (Field : string)
| NodeLimit (schema : Schema) (Source : Node) (Limit : Expression)
with Expression : Type :=
| ExprVariable (ty : OType) (Name : string) (IsLevel0 : bool)
| ExprConstant (ty : OType) (Value : OValue)
| ExprFunctionCall (ty : OType) (Name : string) (Arguments : list Expression)
| ExprAnd (ty : OType) (Arguments : list Expression)
| ExprOr (ty : OType) (Arguments : list Expression)
| ExprQueryExpression (ty : OType) (Source : Node)
| ExprCoalesce (ty : OType) (Arguments : list Expression)
| ExprTuple (ty : OType) (Arguments : list Expression)
| ExprTypeAssertion (ty : OType) (Expression_ : Expression) (TargetType : OType)
| ExprOther (ty : OType) (tag : string)
with TableValuedFunctionArgument : Type :=
| ArgExpression (e : Expression)
| ArgTable (table : Node)
| ArgDescriptor (descriptor : string)
| ArgOther (tag : string).

Definition Node_Schema (node : Node) : Schema :=
  match node with
  | NodeDatasource s _ _ | NodeDistinct s _ | NodeFilter s _ _
  | NodeGroupBy s _ _ _ _ | NodeStreamJoin s _ _ _ _ | NodeLookupJoin s _ _
  | NodeMap s _ _ | NodeOrderBy s _ _ _ | NodeRequalifier s _ _
  | NodeTableValuedFunction s _ _ | NodeUnnest s _ _ | NodeLimit s _ _ => s
  end.

(** The order in which a [range] over a Go map visits its entries: the
    language leaves it unspecified, and it may differ from one loop to the
    next.  A run of the describer is given the order its loops follow. *)
Definition RangeOrder : Type := ∀ A : Type, list (string * A) → list (string * A).

Definition is_range_order (order : RangeOrder) : Prop :=
  ∀ (A : Type) (entries : list (string * A)), order A entries ≡ₚ entries.

(** The children of a run of loop iterations, up to the first that panics. *)
Fixpoint edges_of (l : list (string * Res graph_Node))
  : Res (list (string * graph_Node)) :=
  match l with
  | [] => Ok []
  | (name, r) :: l' =>
      child ← r; rest ← edges_of l'; Ok ((name, child) :: rest)
  end.

Context (range_order : RangeOrder).

(** [DescribeNode] and [DescribeExpr].  A loop [for i := range s] that adds
    one child for each element is a local recursion over [s]; where the body
    also reads [t[i]] from a second slice, the recursion carries [t[i:]] and
    panics where the code would index out of range. *)
Fixpoint DescribeNode (node : Node) : Res graph_Node :=
  let args := fix args (i : nat) (l : list Expression)
      : Res (list (string * graph_Node)) :=
    match l with
    | [] => Ok []
    | e :: l' =>
        child ← DescribeExpr e; rest ← args (S i) l';
        Ok ((arg_name i, child) :: rest)
    end in
  match node with
  | NodeDatasource _ Name Predicates =>
      let out := NewNode Name in
      match Predicates with
      | [] => Ok out
      | _ :: _ =>
          (* DescribeExpr(Expression{Type: octosql.Boolean, And: ...}) *)
          edges ← args 0 Predicates;
          Ok (AddChild out "predicate" (AddChildren (NewNode "and") edges))
      end
  | NodeDistinct _ Source =>
      let out := NewNode "distinct" in
      source ← DescribeNode Source;
      Ok (AddChild out "source" source)
  | NodeFilter _ Source Predicate =>
      let out := NewNode "filter" in
      predicate ← DescribeExpr Predicate;
      let out := AddChild out "predicate" predicate in
      source ← DescribeNode Source;
      Ok (AddChild out "source" source)
  | NodeGroupBy _ Source Key Aggregates AggregateExpressions =>
      let out := NewNode "group by" in
      edges ← (fix aggs (i : nat) (exprs : list Expression) (as_ : list Aggregate)
                 : Res (list (string * graph_Node)) :=
               match as_ with
               | [] => Ok []
               | a :: as' =>
                   match exprs with
                   | [] => Panic (IndexOutOfRange i (length AggregateExpressions))
                   | e :: exprs' =>
                       child ← DescribeExpr e; rest ← aggs (S i) exprs' as';
                       Ok ((agg_Name a, child) :: rest)
                   end
               end) 0 AggregateExpressions Aggregates;
      let out := AddChildren out edges in
      (* DescribeExpr(Expression{ExpressionType: ExpressionTypeTuple, ...}) *)
      key ← args 0 Key;
      let out := AddChild out "key" (AddChildren (NewNode "tuple") key) in
      source ← DescribeNode Source;
      Ok (AddChild out "source" source)
  | NodeStreamJoin _ Left Right LeftKey RightKey =>
      let out := NewNode "join" in
      left ← DescribeNode Left;
      let out := AddChild out "left" left in
      right ← DescribeNode Right;
      let out := AddChild out "right" right in
      left_key ← args 0 LeftKey;
      let out := AddChild out "left_key" (AddChildren (NewNode "tuple") left_key) in
      right_key ← args 0 RightKey;
      Ok (AddChild out "right_key" (AddChildren (NewNode "tuple") right_key))
  | NodeLookupJoin _ Source Joined =>
      let out := NewNode "lookup join" in
      source ← DescribeNode Source;
      let out := AddChild out "source" source in
      joined ← DescribeNode Joined;
      Ok (AddChild out "joined" joined)
  | NodeMap schema Source Expressions =>
      let out := NewNode "map" in
      edges ← (fix exprs (i : nat) (l : list Expression) (fs : list SchemaField)
                 : Res (list (string * graph_Node)) :=
               match l with
               | [] => Ok []
               | e :: l' =>
                   match fs with
                   | [] => Panic (IndexOutOfRange i (length (Fields schema)))
                   | f :: fs' =>
                       child ← DescribeExpr e; rest ← exprs (S i) l' fs';
                       Ok ((sf_Name f, child) :: rest)
                   end
               end) 0 Expressions (Fields schema);
      let out := AddChildren out edges in
      source ← DescribeNode Source;
      Ok (AddChild out "source" source)
  | NodeOrderBy _ Source Key DirectionMultipliers =>
      let out := NewNode "sort" in
      edges ← (fix keys (i : nat) (l : list Expression) (ms : list Z)
                 : Res (list (string * graph_Node)) :=
               match l with
               | [] => Ok []
               | e :: l' =>
                   match ms with
                   | [] => Panic (IndexOutOfRange i (length DirectionMultipliers))
                   | m :: ms' =>
                       child ← DescribeExpr e; rest ← keys (S i) l' ms';
                       Ok ((if decide (m = 1%Z) then "asc" else "desc", child) :: rest)
                   end
               end) 0 Key DirectionMultipliers;
      let out := AddChildren out edges in
      source ← DescribeNode Source;
      Ok (AddChild out "source" source)
  | NodeRequalifier _ Source Qualifier =>
      let out := NewNode "requalifier" in
      let out := AddField out "new qualifier" Qualifier in
      source ← DescribeNode Source;
      Ok (AddChild out "source" source)
  | NodeTableValuedFunction _ Name Arguments =>
      let out := NewNode Name in
      let described :=
        (fix entries (l : list (string * TableValuedFunctionArgument))
           : list (string * Res graph_Node) :=
         match l with
         | [] => []
         | (name, value) :: l' =>
             (name,
              match value with
              | ArgExpression e => DescribeExpr e
              | ArgTable table => DescribeNode table
              | ArgDescriptor d =>
                  Ok (AddField (NewNode "descriptor") "value" d)
              | ArgOther tag =>
                  Panic (PanicMsg
                    ("unrecognized table valued function argument type: " ++ tag))
              end) :: entries l'
         end) Arguments in
      edges ← edges_of (range_order _ described);
      Ok (AddChildren out edges)
  | NodeUnnest _ Source Field =>
      let out := NewNode "unnest" in
      let out := AddField out "field" Field in
      source ← DescribeNode Source;
      Ok (AddChild out "source" source)
  | NodeLimit _ _ _ => Panic (PanicMsg "unexhaustive node type match")
  end
with DescribeExpr (expr : Expression) : Res graph_Node :=
  let args := fix args (i : nat) (l : list Expression)
      : Res (list (string * graph_Node)) :=
    match l with
    | [] => Ok []
    | e :: l' =>
        child ← DescribeExpr e; rest ← args (S i) l';
        Ok ((arg_name i, child) :: rest)
    end in
  match expr with
  | ExprVariable _ Name IsLevel0 =>
      let out := NewNode "variable" in
      let out := AddField out "name" Name in
      Ok (AddField out "is_level_0" (fmt_bool IsLevel0))
  | ExprConstant _ Value =>
      Ok (AddField (NewNode "constant") "value" (Value_String Value))
  | ExprFunctionCall _ Name Arguments =>
      let out := AddField (NewNode "function") Name "" in
      edges ← args 0 Arguments;
      Ok (AddChildren out edges)
  | ExprAnd _ Arguments =>
      edges ← args 0 Arguments; Ok (AddChildren (NewNode "and") edges)
  | ExprOr _ Arguments =>
      edges ← args 0 Arguments; Ok (AddChildren (NewNode "or") edges)
  | ExprQueryExpression _ Source =>
      source ← DescribeNode Source;
      Ok (AddChild (NewNode "subquery") "source" source)
  | ExprCoalesce _ Arguments =>
      edges ← args 0 Arguments; Ok (AddChildren (NewNode "coalesce") edges)
  | ExprTuple _ Arguments =>
      edges ← args 0 Arguments; Ok (AddChildren (NewNode "tuple") edges)
  | ExprTypeAssertion _ Expression_ TargetType =>
      let out := AddField (NewNode "type assertion") "type" (Type_String TargetType) in
      value ← DescribeExpr Expression_;
      Ok (AddChild out "value" value)
  | ExprOther _ _ => Panic (PanicMsg "unexhaustive expression type match")
  end.

(** The loops of the describer on their own. *)

(** [for i := range args { out.AddChild("arg_<i>", DescribeExpr(args[i])) }] *)
Fixpoint DescribeArguments (i : nat) (l : list Expression)
  : Res (list (string * graph_Node)) :=
  match l with
  | [] => Ok []
  | e :: l' =>
      child ← DescribeExpr e; rest ← DescribeArguments (S i) l';
      Ok ((arg_name i, child) :: rest)
  end.

(** The loop of the group-by case; [n] is [len(AggregateExpressions)]. *)
Definition DescribeAggregates (n : nat) :=
  fix aggs (i : nat) (exprs : list Expression) (as_ : list Aggregate)
    {struct exprs} : Res (list (string * graph_Node)) :=
  match as_ with
  | [] => Ok []
  | a :: as' =>
      match exprs with
      | [] => Panic (IndexOutOfRange i n)
      | e :: exprs' =>
          child ← DescribeExpr e; rest ← aggs (S i) exprs' as';
          Ok ((agg_Name a, child) :: rest)
      end
  end.

(** The loop of the map case; [n] is [len(node.Schema.Fields)]. *)
Definition DescribeMapped (n : nat) :=
  fix exprs (i : nat) (l : list Expression) (fs : list SchemaField)
    {struct l} : Res (list (string * graph_Node)) :=
  match l with
  | [] => Ok []
  | e :: l' =>
      match fs with
      | [] => Panic (IndexOutOfRange i n)
      | f :: fs' =>
          child ← DescribeExpr e; rest ← exprs (S i) l' fs';
          Ok ((sf_Name f, child) :: rest)
      end
  end.

(** The loop of the sort case; [n] is [len(DirectionMultipliers)]. *)
Definition DescribeSortKeys (n : nat) :=
  fix keys (i : nat) (l : list Expression) (ms : list Z)
    {struct l} : Res (list (string * graph_Node)) :=
  match l with
  | [] => Ok []
  | e :: l' =>
      match ms with
      | [] => Panic (IndexOutOfRange i n)
      | m :: ms' =>
          child ← DescribeExpr e; rest ← keys (S i) l' ms';
          Ok ((if decide (m = 1%Z) then "asc" else "desc", child) :: rest)
      end
  end.

(** The body of the loop over the arguments of a table valued function. *)
Definition DescribeArgument (value : TableValuedFunctionArgument)
  : Res graph_Node :=
  match value with
  | ArgExpression e => DescribeExpr e
  | ArgTable table => DescribeNode table
  | ArgDescriptor d => Ok (AddField (NewNode "descriptor") "value" d)
  | ArgOther tag =>
      Panic (PanicMsg ("unrecognized table valued function argument type: " ++ tag))
  end.

End Plan.

(** Whether no table valued function of a plan has two arguments or more,
    so that no loop of the describer over a map has an order to choose. *)
Section PlanShape.
Context {OValue OType : Type}.

Fixpoint single_argument_node (node : Node (OValue:=OValue) (OType:=OType))
  : bool :=
  match node with
  | NodeDatasource _ _ Predicates => forallb single_argument_expr Predicates
  | NodeDistinct _ Source => single_argument_node Source
  | NodeFilter _ Source Predicate =>
      single_argument_expr Predicate && single_argument_node Source
  | NodeGroupBy _ Source Key _ AggregateExpressions =>
      forallb single_argument_expr AggregateExpressions
      && forallb single_argument_expr Key && single_argument_node Source
  | NodeStreamJoin _ Left Right LeftKey RightKey =>
      single_argument_node Left && single_argument_node Right
      && forallb single_argument_expr LeftKey
      && forallb single_argument_expr RightKey
  | NodeLookupJoin _ Source Joined =>
      single_argument_node Source && single_argument_node Joined
  | NodeMap _ Source Expressions =>
      forallb single_argument_expr Expressions && single_argument_node Source
  | NodeOrderBy _ Source Key _ =>
      forallb single_argument_expr Key && single_argument_node Source
  | NodeRequalifier _ Source _ => single_argument_node Source
  | NodeTableValuedFunction _ _ Arguments =>
      bool_decide (length Arguments ≤ 1)%nat
      && forallb (λ entry, single_argument_arg entry.2) Arguments
  | NodeUnnest _ Source _ => single_argument_node Source
  | NodeLimit _ Source Limit =>
      single_argument_expr Limit && single_argument_node Source
  end
with single_argument_expr (expr : Expression (OValue:=OValue) (OType:=OType))
  : bool :=
  match expr with
  | ExprVariable _ _ _ | ExprConstant _ _ | ExprOther _ _ => true
  | ExprFunctionCall _ _ Arguments | ExprAnd _ Arguments | ExprOr _ Arguments
  | ExprCoalesce _ Arguments | ExprTuple _ Arguments =>
      forallb single_argument_expr Arguments
  | ExprQueryExpression _ Source => single_argument_node Source
  | ExprTypeAssertion _ Expression_ _ => single_argument_expr Expression_
  end
with single_argument_arg
    (value : TableValuedFunctionArgument (OValue:=OValue) (OType:=OType)) : bool :=
  match value with
  | ArgExpression e => single_argument_expr e
  | ArgTable table => single_argument_node table
  | ArgDescriptor _ | ArgOther _ => true
  end.

(** Whether a plan can be described: it has no limit node and no
    expression or argument of a type the switches do not list, and the loops
    that read a second slice by index find it long enough: an aggregate
    expression for each aggregate, a schema field for each expression of a
    map, a direction multiplier for each sort key. *)
Fixpoint describable (node : Node (OValue:=OValue) (OType:=OType)) : bool :=
  match node with
  | NodeDatasource _ _ Predicates => forallb describable_expr Predicates
  | NodeDistinct _ Source => describable Source
  | NodeFilter _ Source Predicate =>
      describable_expr Predicate && describable Source
  | NodeGroupBy _ Source Key Aggregates AggregateExpressions =>
      (fix aggs (exprs : list Expression) (as_ : list Aggregate) {struct exprs}
         : bool :=
       match as_ with
       | [] => true
       | _ :: as' =>
           match exprs with
           | [] => false
           | e :: exprs' => describable_expr e && aggs exprs' as'
           end
       end) AggregateExpressions Aggregates
      && forallb describable_expr Key && describable Source
  | NodeStreamJoin _ Left Right LeftKey RightKey =>
      describable Left && describable Right
      && forallb describable_expr LeftKey && forallb describable_expr RightKey
  | NodeLookupJoin _ Source Joined => describable Source && describable Joined
  | NodeMap schema Source Expressions =>
      (fix exprs (l : list Expression) (fs : list SchemaField) {struct l} : bool :=
       match l with
       | [] => true
       | e :: l' =>
           match fs with
           | [] => false
           | _ :: fs' => describable_expr e && exprs l' fs'
           end
       end) Expressions (Fields schema)
      && describable Source
  | NodeOrderBy _ Source Key DirectionMultipliers =>
      (fix keys (l : list Expression) (ms : list Z) {struct l} : bool :=
       match l with
       | [] => true
       | e :: l' =>
           match ms with
           | [] => false
           | _ :: ms' => describable_expr e && keys l' ms'
           end
       end) Key DirectionMultipliers
      && describable Source
  | NodeRequalifier _ Source _ => describable Source
  | NodeTableValuedFunction _ _ Arguments =>
      forallb (λ entry, describable_arg entry.2) Arguments
  | NodeUnnest _ Source _ => describable Source
  | NodeLimit _ _ _ => false
  end
with describable_expr (expr : Expression (OValue:=OValue) (OType:=OType)) : bool :=
  match expr with
  | ExprVariable _ _ _ | ExprConstant _ _ => true
  | ExprFunctionCall _ _ Arguments | ExprAnd _ Arguments | ExprOr _ Arguments
  | ExprCoalesce _ Arguments | ExprTuple _ Arguments =>
      forallb describable_expr Arguments
  | ExprQueryExpression _ Source => describable Source
  | ExprTypeAssertion _ Expression_ _ => describable_expr Expression_
  | ExprOther _ _ => false
  end
with describable_arg
    (value : TableValuedFunctionArgument (OValue:=OValue) (OType:=OType)) : bool :=
  match value with
  | ArgExpression e => describable_expr e
  | ArgTable table => describable table
  | ArgDescriptor _ => true
  | ArgOther _ => false
  end.

(** The loops of [describable] on their own. *)
Definition describable_aggregates :=
  fix aggs (exprs : list (Expression (OValue:=OValue) (OType:=OType)))
      (as_ : list Aggregate) {struct exprs} : bool :=
  match as_ with
  | [] => true
  | _ :: as' =>
      match exprs with
      | [] => false
      | e :: exprs' => describable_expr e && aggs exprs' as'
      end
  end.

Definition describable_indexed {B : Type} :=
  fix exprs (l : list (Expression (OValue:=OValue) (OType:=OType)))
      (other : list B) {struct l} : bool :=
  match l with
  | [] => true
  | e :: l' =>
      match other with
      | [] => false
      | _ :: other' => describable_expr e && exprs l' other'
      end
  end.

(** The label of the edge of a sort key. *)
Definition direction_name (m : Z) : string :=
  if decide (m = 1%Z) then "asc" else "desc".

(** The arguments of the expressions that [DescribeExpr] describes with one
    [arg_<i>] edge for each argument. *)
Definition expression_arguments
    (expr : Expression (OValue:=OValue) (OType:=OType))
  : option (list (Expression (OValue:=OValue) (OType:=OType))) :=
  match expr with
  | ExprFunctionCall _ _ Arguments | ExprAnd _ Arguments | ExprOr _ Arguments
  | ExprCoalesce _ Arguments | ExprTuple _ Arguments => Some Arguments
  | _ => None
  end.

End PlanShape.

Definition graph_name (g : graph_Node) : string :=
  match g with GNode name _ _ => name end.
Definition graph_fields (g : graph_Node) : list (string * string) :=
  match g with GNode _ fields _ => fields end.
Definition graph_children (g : graph_Node) : list (string * graph_Node) :=
  match g with GNode _ _ children => children end.

(** Two graphs that differ at most in the order of the child edges of their
    vertices. *)
Inductive same_graph : graph_Node → graph_Node → Prop :=
| same_graph_intro name fields children children' mid :
    children ≡ₚ mid →
    Forall2 (λ e e', e.1 = e'.1 ∧ same_graph e.2 e'.2) mid children' →
    same_graph (GNode name fields children) (GNode name fields children').

Definition same_edge (e e' : string * graph_Node) : Prop :=
  e.1 = e'.1 ∧ same_graph e.2 e'.2.

Definition same_edges (es es' : list (string * graph_Node)) : Prop :=
  ∃ mid, es ≡ₚ mid ∧ Forall2 same_edge mid es'.

(** Two runs that both panic, or give related results. *)
Definition res_rel {A B} (rel : A → B → Prop) (r : Res A) (r' : Res B) : Prop :=
  match r, r' with
  | Ok a, Ok b => rel a b
  | Panic _, Panic _ => True
  | _, _ => False
  end.

Arguments Node : clear implicits.
Arguments Expression : clear implicits.
Arguments TableValuedFunctionArgument : clear implicits.
Arguments Schema : clear implicits.
Arguments SchemaField : clear implicits.

(** Two orders a [range] over a map may follow. *)
Definition in_order : RangeOrder := λ A entries, entries.
Definition backwards : RangeOrder := λ A entries, reverse entries.

Module Sample.

(** Integer constants; types by their names. *)
Definition OValue : Type := Z.
Definition OType : Type := string.
Definition Value_String (v : OValue) : string := pretty v.
Definition Type_String (t : OType) : string := t.

Definition DescribeNode (order : RangeOrder) (node : Node OValue OType)
  : Res graph_Node :=
  DescribeNode Value_String Type_String order node.

Definition schema (names : list string) : Schema OType :=
  {| Fields := (λ n, {| sf_Name := n; sf_Type := "Int" |}) <$> names;
     TimeField := (-1)%Z;
     NoRetractions := true |}.

(** [range(start => 0, end => 5)] *)
Definition range_0_5 : Node OValue OType :=
  NodeTableValuedFunction (schema ["i"]) "range"
    [ ("start", ArgExpression (ExprConstant "Int" 0%Z));
      ("end", ArgExpression (ExprConstant "Int" 5%Z)) ].

(** [SELECT i + 1 AS x FROM range(...) WHERE i AND true] *)
Definition mapped : Node OValue OType :=
  NodeMap (schema ["x"])
    (NodeFilter (schema ["i"]) range_0_5
       (ExprAnd "Boolean" [ExprVariable "Int" "i" true; ExprConstant "Int" 1%Z]))
    [ExprFunctionCall "Int" "+" [ExprVariable "Int" "i" true; ExprConstant "Int" 1%Z]].

(** [SELECT ... ORDER BY i, x DESC] over [mapped], with one multiplier more
    than keys. *)
Definition sorted : Node OValue OType :=
  NodeOrderBy (schema ["x"]) mapped
    [ExprVariable "Int" "i" true; ExprVariable "Int" "x" true]
    [1%Z; (-1)%Z; 1%Z].

(** [SELECT COUNT(x), SUM(x) FROM mapped GROUP BY i] *)
Definition grouped : Node OValue OType :=
  NodeGroupBy (schema ["x_count"; "x_sum"]) mapped
    [ExprVariable "Int" "i" true]
    [{| agg_Name := "count" |}; {| agg_Name := "sum" |}]
    [ExprVariable "Int" "x" true; ExprVariable "Int" "x" true].

(** The graph of a run, the empty vertex for a run that panics. *)
Definition graph_of (r : Res graph_Node) : graph_Node :=
  match r with
  | Ok g => g
  | Panic _ => NewNode ""
  end.

End Sample.
End Physical.

(** ** cmd/root.go *)
Module Cmd.

(** Go [error] values of the command: a message, and for [%w] the error it
    wraps.  [fmt.Errorf("...: %w", err)] puts the message of [err] at the end
    of its own. *)
Inductive error : Type :=
| Err (msg : string)
| ErrWrapping (msg : string) (cause : error).

#[global] Instance error_eq_dec : EqDecision error.
Proof. solve_decision. Defined.

Definition Error (e : error) : string :=
  match e with
  | Err msg => msg
  | ErrWrapping msg _ => msg
  end.

(** [fmt.Errorf(prefix + "%w", err)] *)
Definition Errorf_w (prefix : string) (err : error) : error :=
  ErrWrapping (prefix ++ Error err) err.

(** [fmt.Errorf] with verbs that do not wrap. *)
Definition Errorf (msg : string) : error := Err msg.

(** What a call into code that may panic does.  The value of a panic is an
    [interface{}], given by its [%s] rendering; [panic(nil)] is allowed by
    the language version of go.mod (1.15), and [recover] then returns nil
    as it does when there is no panic. *)
Inductive Call (A : Type) : Type :=
| Returns (a : A)
| Panics (value : option string).
Arguments Returns {A} a.
Arguments Panics {A} value.

(** [recover()] in a deferred function. *)
Definition recover {A} (c : Call A) : option string :=
  match c with
  | Returns _ => None
  | Panics value => value
  end.

(** The shape shared by [typecheckNode] (lines 494-506) and [typecheckExpr]
    (lines 508-520): the results of [Typecheck] when it returns, else the
    zero results ([None]); [outErr] is set by the deferred function when
    [recover] gives a value. *)
Definition typecheckGuard {A} (typecheck : Call A) : option A * option error :=
  let outErr :=
    match recover typecheck with
    | Some r => Some (Errorf ("typecheck error: " ++ r))
    | None => None
    end in
  match typecheck with
  | Returns a => (Some a, outErr)
  | Panics _ => (None, outErr)
  end.

Section Root.

(** Package [octosql] and the plan of package [physical]. *)
Context {OValue OType : Type}.
Context (Int : OType) (NewInt : Z → OValue).

Local Abbreviation PNode := (Physical.Node OValue OType).
Local Abbreviation PExpression := (Physical.Expression OValue OType).
Local Abbreviation PSchema := (Physical.Schema OType).
Local Abbreviation PSchemaField := (Physical.SchemaField OType).

(** Packages [config], [plugins/manager], [plugins/repository], [semver],
    [yaml], [logical], [sqlparser]: what the command reads of their types. *)
Context {PluginReference Version Constraint YamlNode Database Repository : Type}.
Context `{!EqDecision PluginReference}.
Context (Reference_Name : PluginReference → string).
Context (Reference_String : PluginReference → string).
(** The constraint ["*"], and [Constraint.Check]. *)
Context (any_version : Constraint) (Check : Constraint → Version → bool).
Context (emptyYamlNode : YamlNode).
Context {LogicalNode LogicalExpression SelectStatement Direction : Type}.

Record PluginVersion : Type := { Number : Version }.

Record PluginMetadata : Type := {
  Reference : PluginReference;
  Versions : list PluginVersion;
}.

Record DatabaseConfig : Type := {
  db_Name : string;
  db_Type : PluginReference;
  db_Version : option Constraint;
  db_Config : YamlNode;
}.

Record Config : Type := { Databases : list DatabaseConfig }.

(** [typecheckNode] and [typecheckExpr]: the physical node with the name
    mapping, or the physical expression. *)
Definition typecheckNode (typecheck : Call (PNode * gmap string string))
  : option PNode * option (gmap string string) * option error :=
  match typecheckGuard typecheck with
  | (Some (physicalNode, mapping), outErr) => (Some physicalNode, Some mapping, outErr)
  | (None, outErr) => (None, None, outErr)
  end.

Definition typecheckExpr (typecheck : Call PExpression)
  : option PExpression * option error :=
  typecheckGuard typecheck.

(** *** Plugin versions (lines 108-130) *)

(** Lines 121-126: the first version of the plugin that the constraint
    accepts. *)
Fixpoint firstAccepted (c : Constraint) (versions : list PluginVersion)
  : option Version :=
  match versions with
  | [] => None
  | version :: versions' =>
      if Check c (Number version) then Some (Number version)
      else firstAccepted c versions'
  end.

(** Lines 117-128: the loop over the installed plugins passes those of
    another reference and stops ([break]) at the first of the reference of
    the database, found or not. *)
Fixpoint resolvePlugin (ty : PluginReference) (c : Constraint)
    (installedPlugins : list PluginMetadata) : option Version :=
  match installedPlugins with
  | [] => None
  | plugin :: rest =>
      if decide (Reference plugin ≠ ty) then resolvePlugin ty c rest
      else firstAccepted c (Versions plugin)
  end.

Definition not_installed (db : DatabaseConfig) : error :=
  Errorf ("database '" ++ db_Name db ++ "' plugin '" ++ Reference_String (db_Type db)
          ++ "' used in configuration is not installed with the required version - run `octosql plugin install` to install all missing plugins").

(** Lines 112-116: a database without a version constraint gets ["*"]. *)
Definition withVersion (db : DatabaseConfig) : DatabaseConfig :=
  match db_Version db with
  | Some _ => db
  | None =>
      {| db_Name := db_Name db; db_Type := db_Type db;
         db_Version := Some any_version; db_Config := db_Config db |}
  end.

(** Lines 108-130, [dbLoop]: the configuration with its constraints filled
    in and the version chosen for each database name, or the error for the
    first database without an installed plugin version. *)
Fixpoint resolveVersions (dbs : list DatabaseConfig)
    (installedPlugins : list PluginMetadata) (resolved : gmap string Version)
  : list DatabaseConfig * gmap string Version + error :=
  match dbs with
  | [] => inl ([], resolved)
  | db :: dbs' =>
      let db := withVersion db in
      match resolvePlugin (db_Type db) (default any_version (db_Version db))
                          installedPlugins with
      | None => inr (not_installed db)
      | Some version =>
          match resolveVersions dbs' installedPlugins
                                (<[db_Name db := version]> resolved) with
          | inl (dbs'', resolved') => inl (db :: dbs'', resolved')
          | inr err => inr err
          end
      end
  end.

(** *** The registry of databases (lines 132-189) *)

(** The calls the accessors make into other packages, in the order made. *)
Inductive ExternalCall : Type :=
| RunPlugin (ref : PluginReference) (name : string) (version : option Version)
            (config : YamlNode)
| GetRepositories
| PluginsCreator (repositories : list Repository)
| DocsCreator
| LinesCreator.

(** What those calls answer; an answer may depend on the calls made
    before. *)
Record Outside : Type := {
  RunPlugin_answer : list ExternalCall → PluginReference → string →
                     option Version → YamlNode → option Database * option error;
  GetRepositories_answer : list ExternalCall → list Repository * option error;
  PluginsCreator_answer : list ExternalCall → list Repository →
                          option Database * option error;
  DocsCreator_answer : list ExternalCall → option Database * option error;
  LinesCreator_answer : list ExternalCall → option Database * option error;
}.

(** The variables a closure captures next to its [sync.Once]: whether the
    once has run, and the [db] and [err] it assigned. *)
Record OnceCell (A : Type) : Type := {
  once_done : bool;
  cell_value : A;
  cell_err : option error;
}.
Arguments once_done {A} _.
Arguments cell_value {A} _.
Arguments cell_err {A} _.

Definition fresh_cell {A} (zero : A) : OnceCell A :=
  {| once_done := false; cell_value := zero; cell_err := None |}.

Definition ran {A} (value : A) (err : option error) : OnceCell A :=
  {| once_done := true; cell_value := value; cell_err := err |}.

Definition mark_done {A} (cell : OnceCell A) : OnceCell A :=
  {| once_done := true; cell_value := cell_value cell; cell_err := cell_err cell |}.

(** The closures stored in [databases], each with what it captured. *)
Inductive Accessor : Type :=
| ConfiguredDatabase (curDbConfig : DatabaseConfig) (version : option Version)
                     (cell : OnceCell (option Database))          (* lines 139-147 *)
| PluginsDatabase (cell : OnceCell (list Repository))             (* lines 153-161 *)
| DocsDatabase                                                    (* lines 163-165 *)
| LinesDatabase                                                   (* lines 166-168 *)
| DefaultDatabase (curMetadata : PluginMetadata)
                  (cell : OnceCell (option Database)).            (* lines 180-188 *)

(** What a call of an accessor does: it returns a database and an error, or
    panics; either way the captured variables and the list of calls made
    outside may have changed. *)
Inductive Invoked : Type :=
| Answered (db : option Database) (err : option error)
           (accessor : Accessor) (calls : list ExternalCall)
| InvokePanicked (p : PanicValue) (accessor : Accessor) (calls : list ExternalCall).

Context (outside : Outside).

Definition invoke (accessor : Accessor) (calls : list ExternalCall) : Invoked :=
  match accessor with
  | ConfiguredDatabase curDbConfig version cell =>
      let '(cell, calls) :=
        if once_done cell then (cell, calls)
        else
          let '(db, err) :=
            RunPlugin_answer outside calls (db_Type curDbConfig)
              (db_Name curDbConfig) version (db_Config curDbConfig) in
          (ran db err,
           (calls ++ [RunPlugin (db_Type curDbConfig) (db_Name curDbConfig)
                                version (db_Config curDbConfig)])%list) in
      let accessor := ConfiguredDatabase curDbConfig version cell in
      match cell_err cell with
      | Some err =>
          Answered None
            (Some (Errorf_w ("couldn't run " ++ Reference_String (db_Type curDbConfig)
                             ++ " plugin " ++ db_Name curDbConfig ++ ": ") err))
            accessor calls
      | None => Answered (cell_value cell) None accessor calls
      end
  | PluginsDatabase cell =>
      let '(cell, calls) :=
        if once_done cell then (cell, calls)
        else
          let '(repositories, err) := GetRepositories_answer outside calls in
          (ran repositories err, (calls ++ [GetRepositories])%list) in
      let accessor := PluginsDatabase cell in
      match cell_err cell with
      | Some err =>
          Answered None (Some (Errorf_w "couldn't get repositories: " err))
                   accessor calls
      | None =>
          let '(db, err) := PluginsCreator_answer outside calls (cell_value cell) in
          Answered db err accessor
                   (calls ++ [PluginsCreator (cell_value cell)])%list
      end
  | DocsDatabase =>
      let '(db, err) := DocsCreator_answer outside calls in
      Answered db err DocsDatabase (calls ++ [DocsCreator])%list
  | LinesDatabase =>
      let '(db, err) := LinesCreator_answer outside calls in
      Answered db err LinesDatabase (calls ++ [LinesCreator])%list
  | DefaultDatabase curMetadata cell =>
      if once_done cell then
        match cell_err cell with
        | Some err =>
            Answered None
              (Some (Errorf_w ("couldn't run default plugin "
                               ++ Reference_String (Reference curMetadata)
                               ++ " database: ") err))
              accessor calls
        | None => Answered (cell_value cell) None accessor calls
        end
      else
        match Versions curMetadata with
        | [] =>
            (* curMetadata.Versions[0] inside once.Do: the once is done *)
            InvokePanicked (IndexOutOfRange 0 0)
                           (DefaultDatabase curMetadata (mark_done cell)) calls
        | first :: _ =>
            let '(db, err) :=
              RunPlugin_answer outside calls (Reference curMetadata)
                (Reference_Name (Reference curMetadata)) (Some (Number first))
                emptyYamlNode in
            let calls :=
              (calls ++ [RunPlugin (Reference curMetadata)
                           (Reference_Name (Reference curMetadata))
                           (Some (Number first)) emptyYamlNode])%list in
            let accessor := DefaultDatabase curMetadata (ran db err) in
            match err with
            | Some err =>
                Answered None
                  (Some (Errorf_w ("couldn't run default plugin "
                                   ++ Reference_String (Reference curMetadata)
                                   ++ " database: ") err))
                  accessor calls
            | None => Answered db None accessor calls
            end
        end
  end.

(** Lines 132-148: one accessor for each configured database, a later
    database taking the place of an earlier one of the same name. *)
Definition configuredDatabases (dbs : list DatabaseConfig)
    (resolvedVersions : gmap string Version) : gmap string Accessor :=
  fold_left
    (λ databases dbConfig,
       <[db_Name dbConfig :=
           ConfiguredDatabase dbConfig (resolvedVersions !! db_Name dbConfig)
                              (fresh_cell None)]> databases)
    dbs ∅.

(** Lines 149-168. *)
Definition builtinDatabases (databases : gmap string Accessor)
  : gmap string Accessor :=
  <["lines" := LinesDatabase]>
    (<["docs" := DocsDatabase]>
       (<["plugins" := PluginsDatabase (fresh_cell [])]> databases)).

(** Lines 170-189: an installed plugin whose name is not taken yet gets a
    database of its own. *)
Definition defaultDatabases (installedPlugins : list PluginMetadata)
    (databases : gmap string Accessor) : gmap string Accessor :=
  fold_left
    (λ databases metadata,
       match databases !! Reference_Name (Reference metadata) with
       | Some _ => databases
       | None =>
           <[Reference_Name (Reference metadata) :=
               DefaultDatabase metadata (fresh_cell None)]> databases
       end)
    installedPlugins databases.

Definition buildDatabases (dbs : list DatabaseConfig)
    (resolvedVersions : gmap string Version)
    (installedPlugins : list PluginMetadata) : gmap string Accessor :=
  defaultDatabases installedPlugins
    (builtinDatabases (configuredDatabases dbs resolvedVersions)).

(** [databases[name]()]: the accessor is looked up and called; its captured
    variables live on in the map.  Calling the nil function of a missing name
    panics. *)
Inductive Called : Type :=
| CallAnswered (db : option Database) (err : option error)
| CallPanicked (p : PanicValue).

Definition callDatabase (name : string) (databases : gmap string Accessor)
    (calls : list ExternalCall)
  : Called * gmap string Accessor * list ExternalCall :=
  match databases !! name with
  | None => (CallPanicked NilDereference, databases, calls)
  | Some accessor =>
      match invoke accessor calls with
      | Answered db err accessor' calls' =>
          (CallAnswered db err, <[name := accessor']> databases, calls')
      | InvokePanicked p accessor' calls' =>
          (CallPanicked p, <[name := accessor']> databases, calls')
      end
  end.

(** A run of calls of accessors by name, a call that panics being recovered
    by its caller; the names with what each call gave. *)
Fixpoint callDatabases (names : list string) (databases : gmap string Accessor)
    (calls : list ExternalCall)
  : list (string * Called) * gmap string Accessor * list ExternalCall :=
  match names with
  | [] => ([], databases, calls)
  | name :: names' =>
      let '(called, databases, calls) := callDatabase name databases calls in
      let '(rest, databases, calls) := callDatabases names' databases calls in
      ((name, called) :: rest, databases, calls)
  end.

Definition invoked_parts (i : Invoked) : Called * Accessor * list ExternalCall :=
  match i with
  | Answered db err accessor calls => (CallAnswered db err, accessor, calls)
  | InvokePanicked p accessor calls => (CallPanicked p, accessor, calls)
  end.

(** The database name an accessor runs a plugin for. *)
Definition pluginName (accessor : Accessor) : option string :=
  match accessor with
  | ConfiguredDatabase curDbConfig _ _ => Some (db_Name curDbConfig)
  | DefaultDatabase curMetadata _ =>
      Some (Reference_Name (Reference curMetadata))
  | _ => None
  end.

(** The accessors that run a plugin under a [sync.Once] and cannot panic
    doing so: those of the configured databases, and those of the installed
    plugins that have a version. *)
Definition guardsPlugin (accessor : Accessor) : bool :=
  match accessor with
  | ConfiguredDatabase _ _ _ => true
  | DefaultDatabase curMetadata _ =>
      match Versions curMetadata with
      | [] => false
      | _ :: _ => true
      end
  | _ => false
  end.

(** What such an accessor answers once its [sync.Once] has run. *)
Definition settled (accessor : Accessor) : option Called :=
  match accessor with
  | ConfiguredDatabase curDbConfig _ cell =>
      if once_done cell then
        Some match cell_err cell with
             | Some err =>
                 CallAnswered None
                   (Some (Errorf_w ("couldn't run "
                                    ++ Reference_String (db_Type curDbConfig)
                                    ++ " plugin " ++ db_Name curDbConfig ++ ": ") err))
             | None => CallAnswered (cell_value cell) None
             end
      else None
  | DefaultDatabase curMetadata cell =>
      if once_done cell then
        Some match cell_err cell with
             | Some err =>
                 CallAnswered None
                   (Some (Errorf_w ("couldn't run default plugin "
                                    ++ Reference_String (Reference curMetadata)
                                    ++ " database: ") err))
             | None => CallAnswered (cell_value cell) None
             end
      else None
  | _ => None
  end.

(** Every accessor that runs a plugin is stored under the name it runs the
    plugin for. *)
Definition wellNamed (databases : gmap string Accessor) : Prop :=
  ∀ name accessor, databases !! name = Some accessor →
    ∀ n, pluginName accessor = Some n → n = name.

(** The calls of [RunPlugin] for a database name among the calls made. *)
Definition isRunOf (name : string) (call : ExternalCall) : bool :=
  match call with
  | RunPlugin _ n _ _ => bool_decide (n = name)
  | _ => false
  end.

Definition pluginRuns (name : string) (calls : list ExternalCall) : nat :=
  length (filter (λ call, Is_true (isRunOf name call)) calls).

(** *** The command (lines 72-473) *)

(** [fileHandlers] (lines 195-208): the three built-in creators, and for the
    extensions of plugins a closure that reads the loop variables [ext] and
    [pluginName] when it is called. *)
Inductive FileHandler : Type :=
| CSVCreator
| JSONCreator
| ParquetCreator
| PluginTable (ext pluginName : string).

(** The loop at lines 200-208 declares [ext] and [pluginName] once (go.mod
    asks for the language of Go 1.15), and every closure made in it refers to
    these two variables: when a closure is called, after the loop, they hold
    the entry the loop visited last. *)
Definition buildFileHandlers (visited : list (string * string))
  : gmap string FileHandler :=
  let builtin : gmap string FileHandler :=
    <["parquet" := ParquetCreator]>
      (<["json" := JSONCreator]> (<["csv" := CSVCreator]> ∅)) in
  match last visited with
  | None => builtin
  | Some (ext, pluginName) =>
      fold_left (λ fileHandlers entry,
                   <[entry.1 := PluginTable ext pluginName]> fileHandlers)
                visited builtin
  end.

(** [physical.Environment], without the package-level tables of aggregates
    and functions. *)
Record Environment : Type := {
  env_Databases : gmap string Accessor;
  env_FileHandlers : gmap string FileHandler;
  env_RecordSchema : option PSchema;
}.

Definition WithRecordSchema (env : Environment) (schema : PSchema) : Environment :=
  {| env_Databases := env_Databases env;
     env_FileHandlers := env_FileHandlers env;
     env_RecordSchema := Some schema |}.

Inductive Statement : Type :=
| Select (statement : SelectStatement)
| OtherStatement.

Record OutputOptions : Type := {
  Limit : Z;
  OrderByExpressions : list LogicalExpression;
  OrderByDirections : list Direction;
}.

(** The flags of [init] (lines 480-492); [--profile] only starts a
    profiler. *)
Record Flags : Type := {
  describe : bool;
  explain : Z;
  optimize : bool;
  output : string;
}.

(** The executable plan: what [Materialize] makes of a physical plan (the
    plan stands for it), the schema describer of [--describe], or a batch
    sort put on top for the native stream. *)
Inductive ExecutionExpression : Type :=
| MaterializedExpression (expr : PExpression).

Inductive ExecutionNode : Type :=
| Materialized (plan : PNode)
| DescribeSchema (schema : PSchema)
| NewBatchOrderBy (source : ExecutionNode) (key : list ExecutionExpression)
                  (directionMultipliers : list Z).

Inductive Format : Type := TableFormatter | CSVFormatter | JSONFormatter.

Inductive Sink : Type :=
| BatchOutputPrinter (plan : ExecutionNode) (orderBy : list ExecutionExpression)
    (directionMultipliers : list Z) (limit : Z) (schema : PSchema)
    (format : Format) (live : bool)
| EagerOutputPrinter (plan : ExecutionNode) (schema : PSchema) (format : Format)
| StreamOutputPrinter (plan : ExecutionNode) (nativeFormat : PSchema).

(** The sinks that write each record at once. *)
Definition is_eager (sink : Sink) : bool :=
  match sink with
  | EagerOutputPrinter _ _ _ => true
  | _ => false
  end.

(** What the command does that can be seen from outside, in order. *)
Inductive Event : Type :=
| SentTelemetry (kind : string)
| RenderedExplain (plan : PNode) (withSchemas : bool)
| SinkRan (sink : Sink).

(** The other packages, by what their calls answer. *)
Record Externals : Type := {
  config_Read : Config * option error;
  ListInstalledPlugins : list PluginMetadata * option error;
  (** the entries of the map, in the order the [range] visits them *)
  GetFileExtensionHandlers : list (string * string) * option error;
  sqlparser_Parse : string → option Statement * option error;
  parser_ParseNode : SelectStatement → (LogicalNode * OutputOptions) * option error;
  Typecheck_node : LogicalNode → Environment → Call (PNode * gmap string string);
  Typecheck_expr : LogicalExpression → Environment → gmap string string →
                   Call PExpression;
  ReverseMapping : gmap string string → gmap string string;
  DirectionsToMultipliers : list Direction → list Z;
  Optimize : PNode → PNode;
  os_CreateTemp : option error;
  dot_Run : option error;
  file_Close : option error;
  open_Start : option error;
  Materialize_node : PNode → Environment → option error;
  Materialize_expr : PExpression → Environment → option error;
  sink_Run : Sink → option error;
  (** the zero values [physical.Node{}], [physical.Expression{}] and
      [DescribeNodeSchema] *)
  zeroNode : PNode;
  zeroExpression : PExpression;
  DescribeNodeSchema : PSchema;
}.

(** A step of the command: it goes on with a value, returns from [RunE] with
    an error or nil, or panics. *)
Inductive Step (A : Type) : Type :=
| Go (a : A)
| Stop (err : option error)
| Crash (p : PanicValue).
Arguments Go {A} a.
Arguments Stop {A} err.
Arguments Crash {A} p.

Definition M (A : Type) : Type := list Event → Step A * list Event.

#[local] Instance M_ret : MRet M := λ A a events, (Go a, events).
#[local] Instance M_bind : MBind M := λ A B k m events,
  match m events with
  | (Go a, events') => k a events'
  | (Stop err, events') => (Stop err, events')
  | (Crash p, events') => (Crash p, events')
  end.

Definition stop {A} (err : option error) : M A := λ events, (Stop err, events).
Definition crash {A} (p : PanicValue) : M A := λ events, (Crash p, events).
Definition emit (event : Event) : M unit :=
  λ events, (Go (), (events ++ [event])%list).

(** [x, err := f(); if err != nil { return wrap(err) }] *)
Definition failing {A} (answer : A * option error) (wrap : error → error) : M A :=
  match answer.2 with
  | Some err => stop (Some (wrap err))
  | None => mret answer.1
  end.

(** [if err := f(); err != nil { return wrap(err) }] *)
Definition checking (answer : option error) (wrap : error → error) : M unit :=
  match answer with
  | Some err => stop (Some (wrap err))
  | None => mret ()
  end.

Context (ext : Externals).

Definition physical_Schema (schema : PSchema) (fields : list PSchemaField)
  : PSchema :=
  {| Physical.Fields := fields;
     Physical.TimeField := Physical.TimeField schema;
     Physical.NoRetractions := Physical.NoRetractions schema |}.

(** [fields[i].Name = reverseMapping[fields[i].Name]]; a name that is not in
    the map reads as the empty string. *)
Definition renameFields (reverseMapping : gmap string string)
    (fields : list PSchemaField) : list PSchemaField :=
  (λ field, {| Physical.sf_Name := default "" (reverseMapping !! Physical.sf_Name field);
               Physical.sf_Type := Physical.sf_Type field |}) <$> fields.

(** Lines 250-264: the order-by expressions are typechecked in turn; [i] is
    the index of the head of [exprs]. *)
Fixpoint typecheckOrderBy (i : nat) (exprs : list LogicalExpression)
    (env : Environment) (mapping : gmap string string)
  : list PExpression + error :=
  match exprs with
  | [] => inl []
  | e :: exprs' =>
      match typecheckExpr (Typecheck_expr ext e env mapping) with
      | (_, Some err) =>
          inr (Errorf_w ("couldn't typecheck order by expression with index "
                         ++ pretty i ++ ": ") err)
      | (physicalExpr, None) =>
          match typecheckOrderBy (S i) exprs' env mapping with
          | inl rest => inl (default (zeroExpression ext) physicalExpr :: rest)
          | inr err => inr err
          end
      end
  end.

(** What the command holds once the query is typechecked (line 264). *)
Record Typechecked : Type := {
  t_env : Environment;
  t_physicalPlan : PNode;
  t_mapping : gmap string string;
  t_outputOptions : OutputOptions;
  t_physicalOrderByExpressions : list PExpression;
}.

(** Lines 98-264. *)
Definition prelude (args0 : string) : M Typechecked :=
  cfg ← failing (config_Read ext) (Errorf_w "couldn't read config: ");
  installedPlugins ← failing (ListInstalledPlugins ext)
                             (Errorf_w "couldn't list installed plugins: ");
  resolved ← match resolveVersions (Databases cfg) installedPlugins ∅ with
             | inl resolved => mret resolved
             | inr err => stop (Some err)
             end;
  let databases := buildDatabases resolved.1 resolved.2 installedPlugins in
  fileExtensionHandlers ← failing (GetFileExtensionHandlers ext)
                            (Errorf_w "couldn't get file extension handlers: ");
  let env := {| env_Databases := databases;
                env_FileHandlers := buildFileHandlers fileExtensionHandlers;
                env_RecordSchema := None |} in
  statement ← failing (sqlparser_Parse ext args0) (Errorf_w "couldn't parse query: ");
  (* statement.(sqlparser.SelectStatement) *)
  select ← match statement with
           | Some (Select select) => mret select
           | _ => crash (PanicMsg "interface conversion: not a sqlparser.SelectStatement")
           end;
  parsed ← failing (parser_ParseNode ext select) (Errorf_w "couldn't parse query: ");
  let '(logicalPlan, outputOptions) := parsed in
  match typecheckNode (Typecheck_node ext logicalPlan env) with
  | (_, _, Some err) => stop (Some err)
  | (physicalPlan, mapping, None) =>
      let physicalPlan := default (zeroNode ext) physicalPlan in
      let mapping := default ∅ mapping in
      match typecheckOrderBy 0 (OrderByExpressions outputOptions)
              (WithRecordSchema env (Physical.Node_Schema physicalPlan)) mapping with
      | inr err => stop (Some err)
      | inl physicalOrderByExpressions =>
          mret {| t_env := env;
                  t_physicalPlan := physicalPlan;
                  t_mapping := mapping;
                  t_outputOptions := outputOptions;
                  t_physicalOrderByExpressions := physicalOrderByExpressions |}
      end
  end.

Definition with_Limit (outputOptions : OutputOptions) (limit : Z) : OutputOptions :=
  {| Limit := limit;
     OrderByExpressions := OrderByExpressions outputOptions;
     OrderByDirections := OrderByDirections outputOptions |}.

(** Lines 265-293: without retractions the order and the limit of the query
    go into the plan. *)
Definition orderAndLimit (physicalPlan : PNode)
    (physicalOrderByExpressions : list PExpression) (outputOptions : OutputOptions)
  : PNode * list PExpression * OutputOptions :=
  let '(physicalPlan, physicalOrderByExpressions) :=
    if Physical.NoRetractions (Physical.Node_Schema physicalPlan)
       && bool_decide (0 < length physicalOrderByExpressions)%nat
    then (Physical.NodeOrderBy (Physical.Node_Schema physicalPlan) physicalPlan
            physicalOrderByExpressions
            (DirectionsToMultipliers ext (OrderByDirections outputOptions)), [])
    else (physicalPlan, physicalOrderByExpressions) in
  if Physical.NoRetractions (Physical.Node_Schema physicalPlan)
     && bool_decide (length physicalOrderByExpressions = 0)%nat
  then (Physical.NodeLimit (Physical.Node_Schema physicalPlan) physicalPlan
          (Physical.ExprConstant Int (NewInt (Limit outputOptions))),
        physicalOrderByExpressions, with_Limit outputOptions 0)
  else (physicalPlan, physicalOrderByExpressions, outputOptions).

(** Lines 349-356. *)
Fixpoint materializeOrderBy (i : nat) (exprs : list PExpression) (env : Environment)
  : list ExecutionExpression + error :=
  match exprs with
  | [] => inl []
  | physicalExpr :: exprs' =>
      match Materialize_expr ext physicalExpr env with
      | Some err =>
          inr (Errorf ("couldn't materialize output order by expression with index "
                       ++ pretty i ++ ": " ++ Error err))
      | None =>
          match materializeOrderBy (S i) exprs' env with
          | inl rest => inl (MaterializedExpression physicalExpr :: rest)
          | inr err => inr err
          end
      end
  end.

(** Lines 373-461: the sink for the output format, or the error the switch
    returns. *)
Definition selectSink (output : string) (physicalPlan : PNode)
    (executionPlan : ExecutionNode) (orderByExpressions : list ExecutionExpression)
    (outputOptions : OutputOptions) (outSchema : PSchema) : Sink + error :=
  let multipliers := DirectionsToMultipliers ext (OrderByDirections outputOptions) in
  let batch format live :=
    BatchOutputPrinter executionPlan orderByExpressions multipliers
                       (Limit outputOptions) outSchema format live in
  if decide (output = "live_table") then inl (batch TableFormatter true)
  else if decide (output = "batch_table") then inl (batch TableFormatter false)
  else if decide (output = "csv") then
    if negb (Physical.NoRetractions (Physical.Node_Schema physicalPlan))
    then inl (batch CSVFormatter false)
    else inl (EagerOutputPrinter executionPlan outSchema CSVFormatter)
  else if decide (output = "json") then
    if negb (Physical.NoRetractions (Physical.Node_Schema physicalPlan))
    then inl (batch JSONFormatter false)
    else inl (EagerOutputPrinter executionPlan outSchema JSONFormatter)
  else if decide (output = "stream_native") then
    let executionPlan :=
      if bool_decide (0 < length orderByExpressions)%nat
      then NewBatchOrderBy executionPlan orderByExpressions multipliers
      else executionPlan in
    if bool_decide (0 < Limit outputOptions)%Z
    then inr (Errorf "LIMIT clause not supported with stream output")
    else inl (StreamOutputPrinter executionPlan outSchema)
  else inr (Errorf ("invalid output format: '" ++ output ++ "'")).

(** Lines 265-472. *)
Definition finish (flags : Flags) (t : Typechecked) : M unit :=
  let reverseMapping := ReverseMapping ext (t_mapping t) in
  let '(physicalPlan, physicalOrderByExpressions, outputOptions) :=
    orderAndLimit (t_physicalPlan t) (t_physicalOrderByExpressions t)
                  (t_outputOptions t) in
  planned ←
    (if describe flags then
       _ ← emit (SentTelemetry "describe");
       let schema := Physical.Node_Schema physicalPlan in
       mret (physicalPlan,
             DescribeSchema
               (physical_Schema schema (renameFields reverseMapping (Physical.Fields schema))),
             [],
             DescribeNodeSchema ext,
             {| Limit := 0; OrderByExpressions := []; OrderByDirections := [] |})
     else
       _ ← emit (SentTelemetry "query");
       let physicalPlan :=
         if optimize flags then Optimize ext physicalPlan else physicalPlan in
       if bool_decide (1 ≤ explain flags)%Z then
         _ ← checking (os_CreateTemp ext) (Errorf_w "couldn't create temporary file: ");
         _ ← emit (RenderedExplain physicalPlan (bool_decide (2 ≤ explain flags)%Z));
         _ ← checking (dot_Run ext) (Errorf_w "couldn't render graph: ");
         _ ← checking (file_Close ext) (Errorf_w "couldn't close temporary file: ");
         _ ← checking (open_Start ext) (Errorf_w "couldn't open graph: ");
         stop None
       else
         _ ← checking (Materialize_node ext physicalPlan (t_env t))
                      (Errorf_w "couldn't materialize physical plan: ");
         orderByExpressions ←
           match materializeOrderBy 0 physicalOrderByExpressions
                   (WithRecordSchema (t_env t) (Physical.Node_Schema physicalPlan)) with
           | inl exprs => mret exprs
           | inr err => stop (Some err)
           end;
         let schema := Physical.Node_Schema physicalPlan in
         mret (physicalPlan,
               Materialized physicalPlan,
               orderByExpressions,
               {| Physical.Fields := renameFields reverseMapping (Physical.Fields schema);
                  Physical.TimeField := Physical.TimeField schema;
                  Physical.NoRetractions := false |},
               outputOptions));
  let '(physicalPlan, executionPlan, orderByExpressions, outSchema, outputOptions) :=
    planned in
  match selectSink (output flags) physicalPlan executionPlan orderByExpressions
                   outputOptions outSchema with
  | inr err => stop (Some err)
  | inl sink =>
      _ ← emit (SinkRan sink);
      _ ← checking (sink_Run ext sink) (Errorf_w "couldn't run query: ");
      stop None
  end.

(** [rootCmd.RunE] (lines 72-473). *)
Definition RunE (flags : Flags) (args0 : string) : M unit :=
  prelude args0 ≫= finish flags.

End Root.

Arguments Go {A} a.
Arguments Stop {A} err.
Arguments Crash {A} p.
Arguments once_done {A} _.
Arguments cell_value {A} _.
Arguments cell_err {A} _.

(** A small installation, to run the command on concrete queries: plugin
    references, databases and YAML by their names, versions and constraints
    as numbers (a constraint accepts the versions from it on), statements
    already parsed, and a typechecker that takes the logical plan for the
    physical one. *)
Module Sample.

Definition OValue : Type := Z.
Definition OType : Type := string.
Definition PNode : Type := Physical.Node OValue OType.
Definition PExpression : Type := Physical.Expression OValue OType.

Definition schema (noRetractions : bool) : Physical.Schema OType :=
  {| Physical.Fields := [{| Physical.sf_Name := "v_0"; Physical.sf_Type := "Int" |}];
     Physical.TimeField := (-1)%Z;
     Physical.NoRetractions := noRetractions |}.

(** A table read once, and the same table polled, which retracts rows. *)
Definition table : PNode := Physical.NodeDatasource (schema true) "t" [].
Definition polled : PNode :=
  Physical.NodeTableValuedFunction (schema false) "poll"
    [("source", Physical.ArgTable table)].

Definition limit2 : @OutputOptions PExpression bool :=
  {| Limit := 2; OrderByExpressions := []; OrderByDirections := [] |}.

Definition config : @Config string nat string :=
  {| Databases := [ {| db_Name := "db"; db_Type := "postgres";
                       db_Version := None; db_Config := "{}" |} ] |}.

Definition installed : list (@PluginMetadata string nat) :=
  [ {| Reference := "postgres"; Versions := [ {| Number := 2 |}; {| Number := 1 |} ] |} ].

Definition externals
  : @Externals OValue OType string nat nat string string string
               PNode PExpression (PNode * @OutputOptions PExpression bool) bool :=
  {| config_Read := (config, None);
     ListInstalledPlugins := (installed, None);
     GetFileExtensionHandlers := ([("xlsx", "excel"); ("ods", "sheets")], None);
     sqlparser_Parse := λ query,
       if decide (query = "SELECT * FROM t LIMIT 2")
       then (Some (Select (table, limit2)), None)
       else if decide (query = "SELECT * FROM poll(t) LIMIT 2")
       then (Some (Select (polled, limit2)), None)
       else (None, Some (Err "syntax error"));
     parser_ParseNode := λ select, (select, None);
     Typecheck_node := λ logicalPlan _, Returns (logicalPlan, ∅);
     Typecheck_expr := λ expr _ _, Returns expr;
     ReverseMapping := λ _, {["v_0" := "v"]};
     DirectionsToMultipliers := λ directions,
       (λ asc : bool, if asc then 1%Z else (-1)%Z) <$> directions;
     Optimize := λ plan, plan;
     os_CreateTemp := None;
     dot_Run := None;
     file_Close := None;
     open_Start := None;
     Materialize_node := λ _ _, None;
     Materialize_expr := λ _ _, None;
     sink_Run := λ _, None;
     zeroNode := Physical.NodeDatasource (schema false) "" [];
     zeroExpression := Physical.ExprOther "" "";
     DescribeNodeSchema := schema true |}.

Definition flags (output : string) : Flags :=
  {| describe := false; explain := 0; optimize := true; output := output |}.

Definition RunE (flags : Flags) (query : string) :=
  RunE "Int" id (λ ref : string, ref) (λ ref : string, ref) 0
       (λ (c v : nat), bool_decide (c ≤ v)%nat) externals flags query [].

Definition prelude (query : string) :=
  prelude (λ ref : string, ref) (λ ref : string, ref) 0
          (λ (c v : nat), bool_decide (c ≤ v)%nat) externals query [].

(** The query as typechecked, when it parses. *)
Definition typechecked (query : string) :=
  match prelude query with
  | (Go t, _) => t
  | _ =>
      {| t_env := {| env_Databases := ∅; env_FileHandlers := ∅;
                     env_RecordSchema := None |};
         t_physicalPlan := zeroNode externals;
         t_mapping := ∅;
         t_outputOptions := limit2;
         t_physicalOrderByExpressions := [] |}
  end.

(** The plugin of a database answers the first run with a database, and
    would refuse a second run. *)
Definition outside : @Outside string nat string string string :=
  {| RunPlugin_answer := λ calls ref name _ _,
       match calls with
       | [] => (Some (name ++ " over " ++ ref), None)
       | _ :: _ => (None, Some (Err "plugin already running"))
       end;
     GetRepositories_answer := λ _, (["official"], None);
     PluginsCreator_answer := λ _ _, (Some "plugins", None);
     DocsCreator_answer := λ _, (Some "docs", None);
     LinesCreator_answer := λ _, (Some "lines", None) |}.

Definition databases : gmap string (@Accessor string nat nat string string string) :=
  buildDatabases (λ ref : string, ref) (Databases config) {["db" := 2]} installed.

Definition callDatabases (names : list string) :=
  callDatabases (λ ref : string, ref) (λ ref : string, ref) "{}" outside
                names databases [].

(** An installed plugin that lists no version, and the registry of an
    installation with that plugin alone. *)
Definition bare : @PluginMetadata string nat :=
  {| Reference := "bare"; Versions := [] |}.

Definition bare_databases
  : gmap string (@Accessor string nat nat string string string) :=
  buildDatabases (λ ref : string, ref) [] ∅ [bare].

(** The repositories cannot be reached. *)
Definition offline : @Outside string nat string string string :=
  {| RunPlugin_answer := RunPlugin_answer outside;
     GetRepositories_answer := λ _, ([], Some (Err "offline"));
     PluginsCreator_answer := PluginsCreator_answer outside;
     DocsCreator_answer := DocsCreator_answer outside;
     LinesCreator_answer := LinesCreator_answer outside |}.

(** A typechecker that panics on an expression of a type it does not
    know. *)
Definition strict
  : @Externals OValue OType string nat nat string string string
               PNode PExpression (PNode * @OutputOptions PExpression bool) bool :=
  {| config_Read := config_Read externals;
     ListInstalledPlugins := ListInstalledPlugins externals;
     GetFileExtensionHandlers := GetFileExtensionHandlers externals;
     sqlparser_Parse := sqlparser_Parse externals;
     parser_ParseNode := parser_ParseNode externals;
     Typecheck_node := Typecheck_node externals;
     Typecheck_expr := λ expr _ _,
       match expr with
       | Physical.ExprOther _ tag => Panics (Some ("unknown expression " ++ tag))
       | _ => Returns expr
       end;
     ReverseMapping := ReverseMapping externals;
     DirectionsToMultipliers := DirectionsToMultipliers externals;
     Optimize := Optimize externals;
     os_CreateTemp := os_CreateTemp externals;
     dot_Run := dot_Run externals;
     file_Close := file_Close externals;
     open_Start := open_Start externals;
     Materialize_node := Materialize_node externals;
     Materialize_expr := Materialize_expr externals;
     sink_Run := sink_Run externals;
     zeroNode := zeroNode externals;
     zeroExpression := zeroExpression externals;
     DescribeNodeSchema := DescribeNodeSchema externals |}.

Definition empty_env
  : @Environment OType string nat nat string string string :=
  {| env_Databases := ∅; env_FileHandlers := ∅; env_RecordSchema := None |}.

End Sample.
End Cmd.

(** * Properties *)

Import Execution.
Local Close Scope string_scope.

(** ** The group hashmap *)

Lemma set_entry_keys k v l : (set_entry k v l).*1 = ins (l.*1) k.
Proof.
  unfold ins. induction l as [|[k' v'] l IH]; csimpl.
  - done.
  - destruct (decide (k' = k)) as [->|Hne]; csimpl.
    + rewrite decide_True; [done | left].
    + rewrite IH. destruct (decide (k ∈ l.*1)) as [Hin|Hout].
      * rewrite decide_True; [done | by right].
      * rewrite decide_False; [done |].
        intros [?|?]%elem_of_cons; congruence.
Qed.

Lemma filter_first_occ_absorb (acc : list Key) k (l : list Key) :
  k ∈ acc →
  filter (λ x, x ∉ acc) (filter (λ k', k' ≠ k) l) = filter (λ x, x ∉ acc) l.
Proof.
  intros Hk. induction l as [|x l IH]; [done|].
  rewrite !filter_cons.
  destruct (decide (x ≠ k)) as [Hx|Hx].
  - rewrite filter_cons. destruct (decide (x ∉ acc)); by rewrite IH.
  - apply dec_stable in Hx as ->. rewrite decide_False; [done | by intros ?].
Qed.

Lemma filter_first_occ_snoc (acc : list Key) k (l : list Key) :
  filter (λ x, x ∉ (acc ++ [k])%list) l
  = filter (λ x, x ∉ acc) (filter (λ k', k' ≠ k) l).
Proof.
  induction l as [|x l IH]; [done|].
  rewrite !filter_cons.
  destruct (decide (x ≠ k)) as [Hx|Hx].
  - rewrite filter_cons. destruct (decide (x ∉ acc)) as [Ha|Ha].
    + rewrite decide_True, IH; [done|].
      rewrite elem_of_app, list_elem_of_singleton. tauto.
    + rewrite decide_False, IH; [done|].
      rewrite elem_of_app. tauto.
  - apply dec_stable in Hx as ->.
    rewrite decide_False; [done|].
    rewrite elem_of_app, list_elem_of_singleton. tauto.
Qed.

Lemma fold_ins_first_occ (ks acc : list Key) :
  fold_left ins ks acc = (acc ++ filter (λ x, x ∉ acc) (first_occ ks))%list.
Proof.
  revert acc. induction ks as [|k ks IH]; intros acc; simpl.
  - by rewrite filter_nil, app_nil_r.
  - rewrite IH. unfold ins. rewrite filter_cons.
    destruct (decide (k ∈ acc)) as [Hin|Hout].
    + rewrite decide_False by tauto. by rewrite filter_first_occ_absorb.
    + rewrite decide_True by done.
      by rewrite <- app_assoc, filter_first_occ_snoc.
Qed.

Lemma filter_not_in_nil (l : list Key) : filter (λ x, x ∉ ([] : list Key)) l = l.
Proof.
  induction l as [|x l IH]; [done|].
  rewrite filter_cons, decide_True, IH; [done | apply not_elem_of_nil].
Qed.

Lemma first_occ_elem k ks : k ∈ first_occ ks ↔ k ∈ ks.
Proof.
  induction ks as [|k' ks IH]; simpl; [done|].
  rewrite !elem_of_cons, list_elem_of_filter, IH.
  destruct (decide (k = k')); tauto.
Qed.

Lemma first_occ_NoDup ks : NoDup (first_occ ks).
Proof.
  induction ks as [|k ks IH]; simpl; [constructor|].
  constructor.
  - rewrite list_elem_of_filter. tauto.
  - by apply NoDup_filter.
Qed.

(** ** GroupByStream.Next *)

Section GroupByFacts.

Context {VariableName Variables : Type}.
Context (NewVariableName : string → VariableName).
Context (VariableName_String : VariableName → string).
Context (MergeWith : Variables → Variables → Variables * option error).
Context (AsVariables : Record_ VariableName → Variables).
Context (Record_Value : Record_ VariableName → VariableName → Value).

Local Abbreviation Stream := (GroupByStream VariableName Variables).
Local Abbreviation fieldName := (fieldName NewVariableName VariableName_String).
Local Abbreviation outputNames :=
  (outputNames NewVariableName VariableName_String).
Local Abbreviation makeFieldNames :=
  (makeFieldNames NewVariableName VariableName_String).
Local Abbreviation addRecords := (addRecords Record_Value).
Local Abbreviation endOfSource := (endOfSource NewVariableName VariableName_String).
Local Abbreviation readSource :=
  (readSource NewVariableName VariableName_String MergeWith AsVariables Record_Value).
Local Abbreviation groupKey := (groupKey MergeWith AsVariables).
Local Abbreviation names_kept :=
  (names_kept (Variables:=Variables) NewVariableName VariableName_String).
Local Abbreviation Next :=
  (Next NewVariableName VariableName_String MergeWith AsVariables Record_Value).
Local Abbreviation pull :=
  (pull NewVariableName VariableName_String MergeWith AsVariables Record_Value).
Local Abbreviation emitted :=
  (emitted NewVariableName VariableName_String MergeWith AsVariables Record_Value).

Lemma AddRecord_String a k v : String (AddRecord a k v).1 = String a.
Proof. unfold AddRecord. by destruct (agg_AddRecord a (agg_cur a) k v). Qed.

Lemma addRecords_String i n aggs fs k r :
  String <$> (addRecords i n aggs fs k r).1 = String <$> aggs.
Proof.
  revert i fs. induction aggs as [|a aggs IH]; intros i fs; simpl; [done|].
  destruct fs as [|f fs]; [done|].
  pose proof (AddRecord_String a k (Record_Value r f)) as Ha.
  destruct (AddRecord a k (Record_Value r f)) as [a' [err|]]; simpl in *.
  - by rewrite Ha.
  - specialize (IH (S i) fs).
    destruct (addRecords (S i) n aggs fs k r) as [rest status]; csimpl in *.
    by rewrite Ha, IH.
Qed.

Lemma makeFieldNames_inl i n fs aggs names :
  makeFieldNames i n fs aggs = inl names →
  names = outputNames fs (String <$> aggs) ∧ length names = length fs.
Proof.
  revert i aggs names. induction fs as [|f fs IH]; intros i aggs names; simpl.
  - by intros [= <-].
  - destruct aggs as [|a aggs]; [done|].
    destruct (makeFieldNames (S i) n fs aggs) as [names'|] eqn:E; [|done].
    intros [= <-]. apply IH in E as [-> Hlen]. split; [done|].
    simpl. by rewrite Hlen.
Qed.

Lemma makeFieldNames_enough i n fs aggs :
  length fs ≤ length aggs → ∃ names, makeFieldNames i n fs aggs = inl names.
Proof.
  revert i aggs. induction fs as [|f fs IH]; intros i aggs Hlen; simpl; [eauto|].
  destruct aggs as [|a aggs]; simpl in Hlen; [lia|].
  destruct (IH (S i) aggs) as [names ->]; [lia | eauto].
Qed.

(** What a normal end of the source-reading loop establishes. *)
Lemma readSource_Break src (st st1 : Stream) :
  readSource src st = Break st1 →
  let rs := sourceRecords src in
  let ks := omap (groupKey st) rs in
  length ks = length rs
  ∧ ((source st1 = [] ∧ src = (λ r, (Some r, None)) <$> rs)
     ∨ ∃ x, src = (((λ r, (Some r, None)) <$> rs)
                    ++ (x, Some ErrEndOfStream) :: source st1)%list)
  ∧ variables st1 = variables st ∧ key st1 = key st ∧ fields st1 = fields st
  ∧ String <$> aggregates st1 = String <$> aggregates st
  ∧ (entries (groups st1)).*1 = fold_left ins ks ((entries (groups st)).*1)
  ∧ iterator st1 = Some (GetIterator (groups st1))
  ∧ fieldNames st1 = outputNames (fields st) (String <$> aggregates st)
  ∧ length (fieldNames st1) = length (fields st).
Proof.
  assert (Hend : ∀ (st st1 : Stream) rest, endOfSource st rest = Break st1 →
    source st1 = rest ∧ variables st1 = variables st ∧ key st1 = key st
    ∧ fields st1 = fields st ∧ aggregates st1 = aggregates st
    ∧ groups st1 = groups st
    ∧ iterator st1 = Some (GetIterator (groups st1))
    ∧ fieldNames st1 = outputNames (fields st) (String <$> aggregates st)
    ∧ length (fieldNames st1) = length (fields st)).
  { clear. intros st st1 rest. unfold Execution.endOfSource.
    destruct (makeFieldNames 0 _ _ _) as [names|] eqn:E; [|done].
    intros [= <-]. apply makeFieldNames_inl in E as [-> ?]. by simpl. }
  revert st. induction src as [|[rec err] rest IH]; intros st; simpl.
  - intros (-> & ? & ? & ? & -> & -> & ? & ? & ?)%Hend. simpl.
    repeat split; auto.
  - destruct err as [err|].
    + destruct (decide (err = ErrEndOfStream)) as [->|]; [|done].
      intros (<- & ? & ? & ? & -> & -> & ? & ? & ?)%Hend.
      simpl. repeat split; eauto.
    + destruct rec as [record|]; [|done].
      destruct (MergeWith (variables st) (AsVariables record))
        as [vars [?|]] eqn:Emerge; [done|].
      destruct (evalKey 0 (key st) vars) as [k0|] eqn:Ekey; [|done].
      set (k := if decide (length k0 = 0) then _ else _).
      assert (Hkey : groupKey st record = Some k).
      { unfold Execution.groupKey. by rewrite Emerge, Ekey. }
      destruct (addRecords 0 (length (fields st)) (aggregates st) (fields st)
                  k record) as [aggs status] eqn:Eadd.
      pose proof (addRecords_String 0 (length (fields st)) (aggregates st)
                    (fields st) k record) as HS.
      rewrite Eadd in HS.
      destruct status; [|done|done].
      intros H. apply IH in H. cbn zeta in H.
      change (Execution.groupKey _ _ (with_aggregates _ _)) with (groupKey st) in H.
      destruct H as (Hlen & Hsrc & Hv & Hk & Hf & Hs & Hg & Hit & Hn & Hnl).
      cbn [sourceRecords]. cbn zeta. csimpl. rewrite Hkey. csimpl.
      csimpl in *.
      split_and!; [by rewrite Hlen| |done|done|done|congruence| |done|congruence|done].
      * destruct Hsrc as [[? Hr]|[x Hr]].
        -- left. split; [done | exact (f_equal (cons (Some record, None)) Hr)].
        -- right. exists x. exact (f_equal (cons (Some record, None)) Hr).
      * by rewrite Hg, set_entry_keys.
Qed.

(** The loop never touches the configuration of the stream, and leaves the
    iterator unset unless it breaks. *)
Lemma readSource_LoopReturn src (st st1 : Stream) err :
  readSource src st = LoopReturn err st1 →
  fields st1 = fields st
  ∧ String <$> aggregates st1 = String <$> aggregates st
  ∧ iterator st1 = iterator st.
Proof.
  revert st. induction src as [|[rec e] rest IH]; intros st; simpl.
  - unfold Execution.endOfSource. by destruct (makeFieldNames _ _ _ _).
  - destruct e as [e|].
    { destruct (decide (e = ErrEndOfStream)).
      - unfold Execution.endOfSource. by destruct (makeFieldNames _ _ _ _).
      - by intros [= _ <-]. }
    destruct rec as [record|]; [|done].
    destruct (MergeWith (variables st) (AsVariables record)) as [vars [?|]].
    { by intros [= _ <-]. }
    destruct (evalKey 0 (key st) vars) as [k0|]; [|by intros [= _ <-]].
    set (k := if decide (length k0 = 0) then _ else _).
    pose proof (addRecords_String 0 (length (fields st)) (aggregates st)
                  (fields st) k record) as HS.
    destruct (addRecords 0 (length (fields st)) (aggregates st) (fields st)
                k record) as [aggs status].
    destruct status; [|by intros [= _ <-]|done].
    intros (? & Hs & ?)%IH. simpl in *. split_and!; [done|congruence|done].
Qed.

(** One step of the iterator only moves the iterator. *)
Lemma emitGroup_step (st : Stream) k v l :
  Execution.emitGroup st {| remaining := (k, v) :: l |}
  = match getValues (aggregates st) k with
    | inr err => Returned None (Some err) (with_iterator st (Some {| remaining := l |}))
    | inl values =>
        Returned (Some (NewRecordFromSlice (fieldNames st) values))
                 (Some ErrEndOfStream) (with_iterator st (Some {| remaining := l |}))
    end.
Proof. done. Qed.

Lemma Next_iterating (st : Stream) it :
  iterator st = Some it → Next st = Execution.emitGroup st it.
Proof. unfold Execution.Next. by intros ->. Qed.

Lemma Next_Break (st st1 : Stream) :
  iterator st = None → readSource (source st) st = Break st1 → Next st = Next st1.
Proof.
  intros Hit Hbr. pose proof (readSource_Break _ _ _ Hbr) as H.
  cbn zeta in H. destruct H as (_ & _ & _ & _ & _ & _ & _ & Hit1 & _).
  unfold Execution.Next. by rewrite Hit, Hbr, Hit1.
Qed.

(** Once the groups are used up, [Next] answers end of stream for ever. *)
Lemma pull_exhausted n (st : Stream) :
  iterator st = Some {| remaining := [] |} →
  (pull n st).1 = replicate n (None, Some ErrEndOfStream).
Proof.
  revert st. induction n as [|n IH]; intros st Hit; [done|].
  simpl. rewrite (Next_iterating _ _ Hit). unfold Execution.emitGroup. simpl.
  specialize (IH (with_iterator st (Some {| remaining := [] |})) eq_refl).
  destruct (pull n _) as [answers final]. simpl in *. by rewrite IH.
Qed.

(** Iterating over the remaining groups, when their values can be got. *)
Lemma pull_groups (l : list (Key * Value)) (st : Stream) :
  iterator st = Some {| remaining := l |} →
  forallb (hasValues (aggregates st)) l.*1 = true →
  (pull (S (length l)) st).1
  = (((λ k, (Some (groupRecord st k), Some ErrEndOfStream)) <$> l.*1)
     ++ [(None, Some ErrEndOfStream)])%list.
Proof.
  revert st. induction l as [|[k v] l IH]; intros st Hit Hok.
  - exact (pull_exhausted 1 st Hit).
  - csimpl in Hok. apply andb_prop in Hok as [Hk Hok].
    change (pull (S (length ((k, v) :: l))) st)
      with (match Next st with
            | Panicked _ => ([], None)
            | Returned r e st' =>
                let '(answers, final) := pull (S (length l)) st' in
                ((r, e) :: answers, final)
            end).
    rewrite (Next_iterating _ _ Hit), emitGroup_step.
    unfold Execution.groupRecord, Execution.groupValues, Execution.hasValues in *.
    destruct (getValues (aggregates st) k) as [vs|] eqn:E; [|done].
    specialize (IH (with_iterator st (Some {| remaining := l |})) eq_refl Hok).
    destruct (pull (S (length l)) _) as [answers final].
    simpl in IH. csimpl. rewrite E. by rewrite IH.
Qed.


(** Every answer of [Next] that carries a record carries the end-of-stream
    sentinel with it. *)
Lemma Next_record_with_EndOfStream (st st' : Stream) r e :
  Next st = Returned (Some r) e st' → e = Some ErrEndOfStream.
Proof.
  assert (Hemit : ∀ (s : Stream) it, Execution.emitGroup s it = Returned (Some r) e st' →
                  e = Some ErrEndOfStream).
  { intros s it. unfold Execution.emitGroup.
    destruct (Iterator_Next it) as [[[k v]|] it']; [|done].
    destruct (getValues _ _); [|done]. by intros [= _ <- _]. }
  unfold Execution.Next. destruct (iterator st) as [it|]; [by apply Hemit|].
  destruct (readSource _ _) as [st1|err st1|]; [|done|done].
  destruct (iterator st1); [by apply Hemit | done].
Qed.


Lemma Next_names_kept F N (st st' : Stream) r e :
  names_kept F N st →
  Next st = Returned r e st' →
  names_kept F N st'
  ∧ ∀ record, r = Some record →
      rec_fieldNames record = N ∧ length N = length F.
Proof.
  assert (Hemit : ∀ (s : Stream) it, names_kept F N s → iterator s = Some it →
    Execution.emitGroup s it = Returned r e st' →
    names_kept F N st'
    ∧ ∀ record, r = Some record → rec_fieldNames record = N ∧ length N = length F).
  { intros s it (Hf & Hn & Hi) Hit. destruct (Hi (mk_is_Some _ _ Hit)) as [Hfn Hl].
    unfold Execution.emitGroup. destruct (Iterator_Next it) as [[[k v]|] it'].
    - destruct (getValues _ _).
      + intros [= <- _ <-]. split; [by repeat split|]. by intros ? [= <-].
      + intros [= <- _ <-]. split; [by repeat split | done].
    - intros [= <- _ <-]. split; [by repeat split | done]. }
  intros Hinv. unfold Execution.Next.
  destruct (iterator st) as [it|] eqn:Hit; [by apply Hemit|].
  destruct Hinv as (Hf & Hn & _).
  destruct (readSource _ _) as [st1|err st1|] eqn:Hread; [| |done].
  - pose proof (readSource_Break _ _ _ Hread) as H. cbn zeta in H.
    destruct H as (_ & _ & _ & _ & Hf1 & Hs1 & _ & Hit1 & Hn1 & Hl1).
    rewrite Hit1. apply Hemit; [|done].
    repeat split; try congruence.
  - intros [= <- _ <-].
    destruct (readSource_LoopReturn _ _ _ _ Hread) as (Hf1 & Hs1 & Hit1).
    split; [|done]. split_and!; [congruence|congruence|].
    rewrite Hit1, Hit. by intros [? ?].
Qed.

Lemma emitted_names_kept F N n (st : Stream) i r :
  names_kept F N st →
  emitted n st !! i = Some r →
  rec_fieldNames r = N ∧ length N = length F.
Proof.
  unfold Execution.emitted.
  revert st i. induction n as [|n IH]; intros st i Hinv; [done|]. simpl.
  destruct (Next st) as [r0 e st'|] eqn:HN; [|done].
  destruct (Next_names_kept _ _ _ _ _ _ Hinv HN) as [Hinv' Hrec].
  specialize (IH st'). destruct (pull n st') as [answers final]. csimpl.
  destruct r0 as [record|]; csimpl.
  - destruct i as [|i]; csimpl.
    + intros [= <-]. by apply Hrec.
    + by apply IH.
  - by apply IH.
Qed.


End GroupByFacts.

(** ** The samples *)






(** ** The Aggregate interface *)

Lemma total_bump k k' l :
  total k (bump k' 1 l)
  = if decide (k' = k) then Some (default 0 (total k l) + 1)%Z else total k l.
Proof.
  induction l as [|[k0 z] l IH]; simpl.
  - by destruct (decide (k' = k)).
  - destruct (decide (k0 = k')) as [->|Hne]; simpl.
    + by destruct (decide (k' = k)).
    + destruct (decide (k0 = k)) as [->|Hne']; [|done].
      by rewrite decide_False.
Qed.

Lemma addAll_count calls k counts :
  (1 ≤ default 0 (total k counts))%Z →
  ∃ counts', addAll (countWith counts) calls = countWith counts'
             ∧ (1 ≤ default 0 (total k counts'))%Z.
Proof.
  revert counts. induction calls as [|[k' v'] calls IH]; intros counts Hpos.
  - by exists counts.
  - simpl. apply IH. rewrite total_bump.
    destruct (decide (k' = k)); simpl; lia.
Qed.




(** ** The plan describer *)

Import Physical.

#[local] Arguments NewNode : simpl never.
#[local] Arguments AddField : simpl never.
#[local] Arguments AddChild : simpl never.
#[local] Arguments AddChildren : simpl never.

(** *** Graphs up to the order of child edges *)

Lemma Forall2_Permutation_r {A B} (P : A → B → Prop) l1 l2 l3 :
  Forall2 P l1 l2 → l2 ≡ₚ l3 → ∃ l1', l1 ≡ₚ l1' ∧ Forall2 P l1' l3.
Proof.
  intros HF HP. revert l1 HF.
  induction HP as [|x l l' HP IH|x y l|l l' l'' HP1 IH1 HP2 IH2]; intros l1 HF.
  - apply Forall2_nil_inv_r in HF as ->. by exists [].
  - apply Forall2_cons_inv_r in HF as (a & t & Ha & Ht & ->).
    destruct (IH t Ht) as (t' & Hperm & HF'). exists (a :: t').
    split; [by constructor | by constructor].
  - apply Forall2_cons_inv_r in HF as (a & t & Ha & Ht & ->).
    apply Forall2_cons_inv_r in Ht as (b & t' & Hb & Ht' & ->).
    exists (b :: a :: t'). split; [apply perm_swap | by repeat constructor].
  - destruct (IH1 l1 HF) as (m & Hm & HFm).
    destruct (IH2 m HFm) as (m' & Hm' & HFm').
    exists m'. split; [by etrans | done].
Qed.

Lemma same_edges_Forall2 es es' : Forall2 same_edge es es' → same_edges es es'.
Proof. intros H. by exists es. Qed.

Lemma same_edges_app es1 es1' es2 es2' :
  same_edges es1 es1' → same_edges es2 es2' →
  same_edges (es1 ++ es2) (es1' ++ es2').
Proof.
  intros (m1 & Hp1 & HF1) (m2 & Hp2 & HF2). exists (m1 ++ m2). split.
  - by apply Permutation_app.
  - by apply Forall2_app.
Qed.

Lemma same_graph_GNode name fields cs cs' :
  same_edges cs cs' → same_graph (GNode name fields cs) (GNode name fields cs').
Proof. intros (mid & Hp & HF). by econstructor. Qed.

Lemma same_graph_inv g g' :
  same_graph g g' →
  ∃ name fields cs cs', g = GNode name fields cs ∧ g' = GNode name fields cs'
                        ∧ same_edges cs cs'.
Proof.
  intros H. inversion H as [name fields cs cs' mid Hp HF]; subst.
  exists name, fields, cs, cs'. split_and!; [done|done|by exists mid].
Qed.

Lemma same_graph_NewNode name : same_graph (NewNode name) (NewNode name).
Proof. apply same_graph_GNode. by exists []. Qed.

Lemma same_graph_AddField g g' name value :
  same_graph g g' → same_graph (AddField g name value) (AddField g' name value).
Proof.
  intros (n & f & cs & cs' & -> & -> & H)%same_graph_inv.
  by apply same_graph_GNode.
Qed.

Lemma AddChildren_GNode name fields cs es :
  AddChildren (GNode name fields cs) es = GNode name fields (cs ++ es).
Proof.
  revert cs. induction es as [|[n c] es IH]; intros cs.
  - by rewrite app_nil_r.
  - change (AddChildren (GNode name fields cs) ((n, c) :: es))
      with (AddChildren (GNode name fields (cs ++ [(n, c)])) es).
    by rewrite IH, <- app_assoc.
Qed.

Lemma same_graph_AddChildren g g' es es' :
  same_graph g g' → same_edges es es' →
  same_graph (AddChildren g es) (AddChildren g' es').
Proof.
  intros (n & f & cs & cs' & -> & -> & H)%same_graph_inv Hes.
  rewrite !AddChildren_GNode. by apply same_graph_GNode, same_edges_app.
Qed.

Lemma same_graph_AddChild g g' name c c' :
  same_graph g g' → same_graph c c' →
  same_graph (AddChild g name c) (AddChild g' name c').
Proof.
  intros Hg Hc.
  apply (same_graph_AddChildren g g' [(name, c)] [(name, c')] Hg).
  apply same_edges_Forall2. by repeat constructor.
Qed.

Lemma res_rel_bind {A A' B B'} (relA : A → A' → Prop) (relB : B → B' → Prop)
    (m : Res A) (m' : Res A') (k : A → Res B) (k' : A' → Res B') :
  res_rel relA m m' →
  (∀ a a', relA a a' → res_rel relB (k a) (k' a')) →
  res_rel relB (m ≫= k) (m' ≫= k').
Proof.
  destruct m as [a|p], m' as [a'|p']; simpl; try done.
  intros Ha Hk. by apply Hk.
Qed.

(** The edges of two runs of loop iterations that are related one by one. *)
Lemma edges_of_Forall2 l l' :
  Forall2 (λ a b, a.1 = b.1 ∧ res_rel same_graph a.2 b.2) l l' →
  res_rel (Forall2 same_edge) (edges_of l) (edges_of l').
Proof.
  induction 1 as [|[n r] [n' r'] l l' [Hn Hr] _ IH]; simpl in *; [constructor|].
  subst n'. apply (res_rel_bind same_graph); [done|]. intros c c' Hc.
  apply (res_rel_bind (Forall2 same_edge)); [done|]. intros es es' Hes.
  simpl. by repeat constructor.
Qed.

(** The edges of the same loop iterations run in another order. *)
Lemma edges_of_Permutation (l l' : list (string * Res graph_Node)) :
  l ≡ₚ l' → res_rel (≡ₚ) (edges_of l) (edges_of l').
Proof.
  induction 1 as [|[n r] l l' _ IH|[n r] [n' r'] l|l l' l'' _ IH1 _ IH2].
  - by simpl.
  - simpl. destruct r; [|done]. simpl.
    destruct (edges_of l), (edges_of l'); simpl in *; try done.
    by constructor.
  - simpl. destruct r, r'; simpl; try done;
      destruct (edges_of l); simpl; try done.
    apply perm_swap.
  - destruct (edges_of l), (edges_of l'), (edges_of l''); simpl in *; try done.
    by etrans.
Qed.

Section DescribeFacts.

Context {OValue OType : Type}.
Context (Value_String : OValue → string) (Type_String : OType → string).

Local Abbreviation Node := (Node OValue OType).
Local Abbreviation Expression := (Expression OValue OType).
Local Abbreviation Argument := (TableValuedFunctionArgument OValue OType).
Local Abbreviation DescribeNode := (DescribeNode Value_String Type_String).
Local Abbreviation DescribeExpr := (DescribeExpr Value_String Type_String).
Local Abbreviation DescribeArguments := (DescribeArguments Value_String Type_String).
Local Abbreviation DescribeAggregates := (DescribeAggregates Value_String Type_String).
Local Abbreviation DescribeMapped := (DescribeMapped Value_String Type_String).
Local Abbreviation DescribeSortKeys := (DescribeSortKeys Value_String Type_String).
Local Abbreviation DescribeArgument := (DescribeArgument Value_String Type_String).

(** The cases of the describer, with their loops named. *)

Local Ltac res_step := unfold mbind, Res_bind; cbv beta iota.

Lemma DescribeExpr_arguments o (e : Expression) :
  DescribeExpr o e
  = match e with
    | ExprFunctionCall _ name args =>
        edges ← DescribeArguments o 0 args;
        Ok (AddChildren (AddField (NewNode "function") name "") edges)
    | ExprAnd _ args =>
        edges ← DescribeArguments o 0 args; Ok (AddChildren (NewNode "and") edges)
    | ExprOr _ args =>
        edges ← DescribeArguments o 0 args; Ok (AddChildren (NewNode "or") edges)
    | ExprCoalesce _ args =>
        edges ← DescribeArguments o 0 args;
        Ok (AddChildren (NewNode "coalesce") edges)
    | ExprTuple _ args =>
        edges ← DescribeArguments o 0 args; Ok (AddChildren (NewNode "tuple") edges)
    | _ => DescribeExpr o e
    end.
Proof. by destruct e. Qed.

Lemma DescribeNode_Datasource o s name (preds : list Expression) ty :
  DescribeNode o (NodeDatasource s name preds)
  = match preds with
    | [] => Ok (NewNode name)
    | _ :: _ =>
        predicate ← DescribeExpr o (ExprAnd ty preds);
        Ok (AddChild (NewNode name) "predicate" predicate)
    end.
Proof.
  destruct preds as [|p preds]; [done|].
  rewrite (DescribeExpr_arguments o (ExprAnd ty (p :: preds))).
  transitivity (edges ← DescribeArguments o 0 (p :: preds);
                Ok (AddChild (NewNode name) "predicate"
                      (AddChildren (NewNode "and") edges))); [done|].
  by destruct (DescribeArguments o 0 (p :: preds)).
Qed.

Lemma DescribeNode_GroupBy o s src (key : list Expression) aggs exprs ty :
  DescribeNode o (NodeGroupBy s src key aggs exprs)
  = (edges ← DescribeAggregates o (length exprs) 0 exprs aggs;
     key ← DescribeExpr o (ExprTuple ty key);
     source ← DescribeNode o src;
     Ok (AddChild (AddChild (AddChildren (NewNode "group by") edges) "key" key)
                  "source" source)).
Proof.
  rewrite (DescribeExpr_arguments o (ExprTuple ty key)).
  transitivity (edges ← DescribeAggregates o (length exprs) 0 exprs aggs;
                key ← DescribeArguments o 0 key;
                source ← DescribeNode o src;
                Ok (AddChild (AddChild (AddChildren (NewNode "group by") edges)
                      "key" (AddChildren (NewNode "tuple") key)) "source" source));
    [done|].
  destruct (DescribeAggregates o (length exprs) 0 exprs aggs); [|done]. res_step.
  by destruct (DescribeArguments o 0 key).
Qed.

Lemma DescribeNode_StreamJoin o s l r (lk rk : list Expression) ty ty' :
  DescribeNode o (NodeStreamJoin s l r lk rk)
  = (left ← DescribeNode o l;
     right ← DescribeNode o r;
     left_key ← DescribeExpr o (ExprTuple ty lk);
     right_key ← DescribeExpr o (ExprTuple ty' rk);
     Ok (AddChild (AddChild (AddChild (AddChild (NewNode "join") "left" left)
           "right" right) "left_key" left_key) "right_key" right_key)).
Proof.
  rewrite (DescribeExpr_arguments o (ExprTuple ty lk)),
          (DescribeExpr_arguments o (ExprTuple ty' rk)).
  transitivity (left ← DescribeNode o l;
                right ← DescribeNode o r;
                left_key ← DescribeArguments o 0 lk;
                right_key ← DescribeArguments o 0 rk;
                Ok (AddChild (AddChild (AddChild (AddChild (NewNode "join")
                      "left" left) "right" right)
                      "left_key" (AddChildren (NewNode "tuple") left_key))
                      "right_key" (AddChildren (NewNode "tuple") right_key)));
    [done|].
  destruct (DescribeNode o l); [|done]. res_step.
  destruct (DescribeNode o r); [|done]. res_step.
  destruct (DescribeArguments o 0 lk); [|done]. res_step.
  by destruct (DescribeArguments o 0 rk).
Qed.

Lemma DescribeNode_Map o s src (exprs : list Expression) :
  DescribeNode o (NodeMap s src exprs)
  = (edges ← DescribeMapped o (length (Fields s)) 0 exprs (Fields s);
     source ← DescribeNode o src;
     Ok (AddChild (AddChildren (NewNode "map") edges) "source" source)).
Proof. done. Qed.

Lemma DescribeNode_OrderBy o s src (key : list Expression) ms :
  DescribeNode o (NodeOrderBy s src key ms)
  = (edges ← DescribeSortKeys o (length ms) 0 key ms;
     source ← DescribeNode o src;
     Ok (AddChild (AddChildren (NewNode "sort") edges) "source" source)).
Proof. done. Qed.

Lemma DescribeNode_TableValuedFunction o s name
    (args : list (string * Argument)) :
  DescribeNode o (NodeTableValuedFunction s name args)
  = (edges ← edges_of (o _ (prod_map id (DescribeArgument o) <$> args));
     Ok (AddChildren (NewNode name) edges)).
Proof.
  simpl. do 3 f_equal.
  induction args as [|[n v] args IH]; [done|]. csimpl. by rewrite IH.
Qed.

Lemma DescribeNode_loops o (node : Node) :
  DescribeNode o node
  = match node with
    | NodeDatasource _ name (p :: preds) =>
        edges ← DescribeArguments o 0 (p :: preds);
        Ok (AddChild (NewNode name) "predicate" (AddChildren (NewNode "and") edges))
    | NodeGroupBy _ src key aggs exprs =>
        edges ← DescribeAggregates o (length exprs) 0 exprs aggs;
        key ← DescribeArguments o 0 key;
        source ← DescribeNode o src;
        Ok (AddChild (AddChild (AddChildren (NewNode "group by") edges)
              "key" (AddChildren (NewNode "tuple") key)) "source" source)
    | NodeStreamJoin _ l r lk rk =>
        left ← DescribeNode o l;
        right ← DescribeNode o r;
        left_key ← DescribeArguments o 0 lk;
        right_key ← DescribeArguments o 0 rk;
        Ok (AddChild (AddChild (AddChild (AddChild (NewNode "join")
              "left" left) "right" right)
              "left_key" (AddChildren (NewNode "tuple") left_key))
              "right_key" (AddChildren (NewNode "tuple") right_key))
    | NodeMap s src exprs =>
        edges ← DescribeMapped o (length (Fields s)) 0 exprs (Fields s);
        source ← DescribeNode o src;
        Ok (AddChild (AddChildren (NewNode "map") edges) "source" source)
    | NodeOrderBy _ src key ms =>
        edges ← DescribeSortKeys o (length ms) 0 key ms;
        source ← DescribeNode o src;
        Ok (AddChild (AddChildren (NewNode "sort") edges) "source" source)
    | NodeTableValuedFunction _ name args =>
        edges ← edges_of (o _ (prod_map id (DescribeArgument o) <$> args));
        Ok (AddChildren (NewNode name) edges)
    | _ => DescribeNode o node
    end.
Proof.
  destruct node as [? ? [|? ?]| | | | | | | | | | |]; try done.
  apply DescribeNode_TableValuedFunction.
Qed.

(** Induction over a plan: nodes, expressions and the arguments of table
    valued functions together, with the property known for all the elements
    of the lists inside. *)
Section PlanInduction.

Context (PN : Node → Prop) (PE : Expression → Prop) (PA : Argument → Prop).
Context
  (HDatasource : ∀ s name preds, Forall PE preds → PN (NodeDatasource s name preds))
  (HDistinct : ∀ s src, PN src → PN (NodeDistinct s src))
  (HFilter : ∀ s src pred, PN src → PE pred → PN (NodeFilter s src pred))
  (HGroupBy : ∀ s src key aggs exprs,
      PN src → Forall PE key → Forall PE exprs →
      PN (NodeGroupBy s src key aggs exprs))
  (HStreamJoin : ∀ s l r lk rk,
      PN l → PN r → Forall PE lk → Forall PE rk → PN (NodeStreamJoin s l r lk rk))
  (HLookupJoin : ∀ s src joined, PN src → PN joined → PN (NodeLookupJoin s src joined))
  (HMap : ∀ s src exprs, PN src → Forall PE exprs → PN (NodeMap s src exprs))
  (HOrderBy : ∀ s src key ms, PN src → Forall PE key → PN (NodeOrderBy s src key ms))
  (HRequalifier : ∀ s src q, PN src → PN (NodeRequalifier s src q))
  (HTableValuedFunction : ∀ s name args,
      Forall (λ entry, PA entry.2) args → PN (NodeTableValuedFunction s name args))
  (HUnnest : ∀ s src f, PN src → PN (NodeUnnest s src f))
  (HLimit : ∀ s src limit, PN src → PE limit → PN (NodeLimit s src limit))
  (HVariable : ∀ ty name l0, PE (ExprVariable ty name l0))
  (HConstant : ∀ ty v, PE (ExprConstant ty v))
  (HFunctionCall : ∀ ty name args, Forall PE args → PE (ExprFunctionCall ty name args))
  (HAnd : ∀ ty args, Forall PE args → PE (ExprAnd ty args))
  (HOr : ∀ ty args, Forall PE args → PE (ExprOr ty args))
  (HQueryExpression : ∀ ty src, PN src → PE (ExprQueryExpression ty src))
  (HCoalesce : ∀ ty args, Forall PE args → PE (ExprCoalesce ty args))
  (HTuple : ∀ ty args, Forall PE args → PE (ExprTuple ty args))
  (HTypeAssertion : ∀ ty e target, PE e → PE (ExprTypeAssertion ty e target))
  (HOther : ∀ ty tag, PE (ExprOther ty tag))
  (HArgExpression : ∀ e, PE e → PA (ArgExpression e))
  (HArgTable : ∀ table, PN table → PA (ArgTable table))
  (HArgDescriptor : ∀ d, PA (ArgDescriptor d))
  (HArgOther : ∀ tag, PA (ArgOther tag)).

Fixpoint Node_plan_ind (node : Node) : PN node :=
  let exprs := fix exprs (l : list Expression) : Forall PE l :=
    match l with
    | [] => @List.Forall_nil _ PE
    | e :: l' => @List.Forall_cons _ PE e l' (Expression_plan_ind e) (exprs l')
    end in
  match node with
  | NodeDatasource s name preds => HDatasource s name preds (exprs preds)
  | NodeDistinct s src => HDistinct s src (Node_plan_ind src)
  | NodeFilter s src pred =>
      HFilter s src pred (Node_plan_ind src) (Expression_plan_ind pred)
  | NodeGroupBy s src key aggs es =>
      HGroupBy s src key aggs es (Node_plan_ind src) (exprs key) (exprs es)
  | NodeStreamJoin s l r lk rk =>
      HStreamJoin s l r lk rk (Node_plan_ind l) (Node_plan_ind r)
                  (exprs lk) (exprs rk)
  | NodeLookupJoin s src joined =>
      HLookupJoin s src joined (Node_plan_ind src) (Node_plan_ind joined)
  | NodeMap s src es => HMap s src es (Node_plan_ind src) (exprs es)
  | NodeOrderBy s src key ms => HOrderBy s src key ms (Node_plan_ind src) (exprs key)
  | NodeRequalifier s src q => HRequalifier s src q (Node_plan_ind src)
  | NodeTableValuedFunction s name args =>
      HTableValuedFunction s name args
        ((fix entries (l : list (string * Argument))
            : Forall (λ entry, PA entry.2) l :=
          match l with
          | [] => @List.Forall_nil _ _
          | (n, v) :: l' =>
              @List.Forall_cons _ (λ entry, PA entry.2) (n, v) l'
                          (Argument_plan_ind v) (entries l')
          end) args)
  | NodeUnnest s src f => HUnnest s src f (Node_plan_ind src)
  | NodeLimit s src limit =>
      HLimit s src limit (Node_plan_ind src) (Expression_plan_ind limit)
  end
with Expression_plan_ind (e : Expression) : PE e :=
  let exprs := fix exprs (l : list Expression) : Forall PE l :=
    match l with
    | [] => @List.Forall_nil _ PE
    | e :: l' => @List.Forall_cons _ PE e l' (Expression_plan_ind e) (exprs l')
    end in
  match e with
  | ExprVariable ty name l0 => HVariable ty name l0
  | ExprConstant ty v => HConstant ty v
  | ExprFunctionCall ty name args => HFunctionCall ty name args (exprs args)
  | ExprAnd ty args => HAnd ty args (exprs args)
  | ExprOr ty args => HOr ty args (exprs args)
  | ExprQueryExpression ty src => HQueryExpression ty src (Node_plan_ind src)
  | ExprCoalesce ty args => HCoalesce ty args (exprs args)
  | ExprTuple ty args => HTuple ty args (exprs args)
  | ExprTypeAssertion ty e' target =>
      HTypeAssertion ty e' target (Expression_plan_ind e')
  | ExprOther ty tag => HOther ty tag
  end
with Argument_plan_ind (a : Argument) : PA a :=
  match a with
  | ArgExpression e => HArgExpression e (Expression_plan_ind e)
  | ArgTable table => HArgTable table (Node_plan_ind table)
  | ArgDescriptor d => HArgDescriptor d
  | ArgOther tag => HArgOther tag
  end.

End PlanInduction.

(** Two runs of the describer, each with the order its loops over maps
    follow. *)
Section TwoRuns.

Context (o1 o2 : RangeOrder).
Context (Ho1 : is_range_order o1) (Ho2 : is_range_order o2).

Local Abbreviation related_exprs :=
  (Forall (λ e, res_rel same_graph (DescribeExpr o1 e) (DescribeExpr o2 e))).

Lemma DescribeArguments_related i (l : list Expression) :
  related_exprs l →
  res_rel (Forall2 same_edge) (DescribeArguments o1 i l) (DescribeArguments o2 i l).
Proof.
  intros H. revert i. induction H as [|e l He _ IH]; intros i; simpl; [constructor|].
  apply (res_rel_bind same_graph); [done|]. intros c c' Hc.
  apply (res_rel_bind (Forall2 same_edge)); [apply IH|]. intros es es' Hes.
  simpl. by repeat constructor.
Qed.

Lemma DescribeAggregates_related n i (l : list Expression) aggs :
  related_exprs l →
  res_rel (Forall2 same_edge) (DescribeAggregates o1 n i l aggs)
          (DescribeAggregates o2 n i l aggs).
Proof.
  intros H. revert i aggs.
  induction H as [|e l He _ IH]; intros i [|a aggs]; simpl; try done.
  apply (res_rel_bind same_graph); [done|]. intros c c' Hc.
  apply (res_rel_bind (Forall2 same_edge)); [apply IH|]. intros es es' Hes.
  simpl. by repeat constructor.
Qed.

Lemma DescribeMapped_related n i (l : list Expression) fs :
  related_exprs l →
  res_rel (Forall2 same_edge) (DescribeMapped o1 n i l fs) (DescribeMapped o2 n i l fs).
Proof.
  intros H. revert i fs.
  induction H as [|e l He _ IH]; intros i fs; simpl; [constructor|].
  destruct fs as [|f fs]; [done|].
  apply (res_rel_bind same_graph); [done|]. intros c c' Hc.
  apply (res_rel_bind (Forall2 same_edge)); [apply IH|]. intros es es' Hes.
  simpl. by repeat constructor.
Qed.

Lemma DescribeSortKeys_related n i (l : list Expression) ms :
  related_exprs l →
  res_rel (Forall2 same_edge) (DescribeSortKeys o1 n i l ms)
          (DescribeSortKeys o2 n i l ms).
Proof.
  intros H. revert i ms.
  induction H as [|e l He _ IH]; intros i ms; simpl; [constructor|].
  destruct ms as [|m ms]; [done|].
  apply (res_rel_bind same_graph); [done|]. intros c c' Hc.
  apply (res_rel_bind (Forall2 same_edge)); [apply IH|]. intros es es' Hes.
  simpl. by repeat constructor.
Qed.

Lemma arguments_related (args : list (string * Argument)) :
  Forall (λ entry, res_rel same_graph (DescribeArgument o1 entry.2)
                                      (DescribeArgument o2 entry.2)) args →
  res_rel same_edges
    (edges_of (o1 _ (prod_map id (DescribeArgument o1) <$> args)))
    (edges_of (o2 _ (prod_map id (DescribeArgument o2) <$> args))).
Proof using Ho1 Ho2.
  intros H.
  set (l1 := prod_map id (DescribeArgument o1) <$> args).
  set (l2 := prod_map id (DescribeArgument o2) <$> args).
  assert (HF : Forall2 (λ a b, a.1 = b.1 ∧ res_rel same_graph a.2 b.2) l1 l2).
  { subst l1 l2. induction H as [|[n v] args Hv _ IH]; csimpl; [constructor|].
    by constructor. }
  pose proof (edges_of_Permutation _ _ (Ho1 _ l1)) as H1.
  pose proof (edges_of_Forall2 _ _ HF) as H12.
  pose proof (edges_of_Permutation _ _ (Ho2 _ l2)) as H2.
  destruct (edges_of (o1 _ l1)) as [ea|], (edges_of l1) as [e1|],
    (edges_of l2) as [e2|], (edges_of (o2 _ l2)) as [eb|]; simpl in *; try done.
  destruct (Forall2_Permutation_r _ _ _ _ H12 (symmetry H2)) as (mid & Hm & HFm).
  exists mid. split; [by etrans | done].
Qed.

Local Ltac related :=
  repeat first
    [ progress simpl
    | apply same_graph_AddChild
    | apply same_graph_AddChildren
    | apply same_graph_AddField
    | apply same_graph_NewNode
    | eassumption
    | apply same_edges_Forall2 ].

Local Ltac bind_related rel H :=
  apply (res_rel_bind rel); [exact H | intros ? ? ?].

(** Whatever orders the two runs follow, they both panic or they give the
    same graph up to the order of child edges. *)
Lemma DescribeNode_related (node : Node) :
  res_rel same_graph (DescribeNode o1 node) (DescribeNode o2 node).
Proof using Ho1 Ho2.
  revert node.
  apply (Node_plan_ind
    (λ node, res_rel same_graph (DescribeNode o1 node) (DescribeNode o2 node))
    (λ e, res_rel same_graph (DescribeExpr o1 e) (DescribeExpr o2 e))
    (λ a, res_rel same_graph (DescribeArgument o1 a) (DescribeArgument o2 a))).
  - intros s name preds Hp. rewrite (DescribeNode_loops o1), (DescribeNode_loops o2).
    destruct preds as [|p preds]; [by related|].
    bind_related (Forall2 same_edge) (DescribeArguments_related 0 _ Hp). related.
  - intros s src Hsrc. simpl. bind_related same_graph Hsrc. related.
  - intros s src pred Hsrc Hpred. simpl.
    bind_related same_graph Hpred. bind_related same_graph Hsrc. related.
  - intros s src key aggs exprs Hsrc Hkey Hexprs. rewrite (DescribeNode_loops o1), (DescribeNode_loops o2).
    bind_related (Forall2 same_edge)
      (DescribeAggregates_related (length exprs) 0 _ aggs Hexprs).
    bind_related (Forall2 same_edge) (DescribeArguments_related 0 _ Hkey).
    bind_related same_graph Hsrc. related.
  - intros s l r lk rk Hl Hr Hlk Hrk. rewrite (DescribeNode_loops o1), (DescribeNode_loops o2).
    bind_related same_graph Hl. bind_related same_graph Hr.
    bind_related (Forall2 same_edge) (DescribeArguments_related 0 _ Hlk).
    bind_related (Forall2 same_edge) (DescribeArguments_related 0 _ Hrk).
    related.
  - intros s src joined Hsrc Hj. simpl.
    bind_related same_graph Hsrc. bind_related same_graph Hj. related.
  - intros s src exprs Hsrc Hexprs. rewrite (DescribeNode_loops o1), (DescribeNode_loops o2).
    bind_related (Forall2 same_edge)
      (DescribeMapped_related (length (Fields s)) 0 _ (Fields s) Hexprs).
    bind_related same_graph Hsrc. related.
  - intros s src key ms Hsrc Hkey. rewrite (DescribeNode_loops o1), (DescribeNode_loops o2).
    bind_related (Forall2 same_edge)
      (DescribeSortKeys_related (length ms) 0 _ ms Hkey).
    bind_related same_graph Hsrc. related.
  - intros s src q Hsrc. simpl. bind_related same_graph Hsrc. related.
  - intros s name args Hargs. rewrite (DescribeNode_loops o1), (DescribeNode_loops o2).
    bind_related same_edges (arguments_related _ Hargs). related.
  - intros s src f Hsrc. simpl. bind_related same_graph Hsrc. related.
  - done.
  - intros. by related.
  - intros. by related.
  - intros ty name args Hargs. rewrite (DescribeExpr_arguments o1), (DescribeExpr_arguments o2).
    bind_related (Forall2 same_edge) (DescribeArguments_related 0 _ Hargs). related.
  - intros ty args Hargs. rewrite (DescribeExpr_arguments o1), (DescribeExpr_arguments o2).
    bind_related (Forall2 same_edge) (DescribeArguments_related 0 _ Hargs). related.
  - intros ty args Hargs. rewrite (DescribeExpr_arguments o1), (DescribeExpr_arguments o2).
    bind_related (Forall2 same_edge) (DescribeArguments_related 0 _ Hargs). related.
  - intros ty src Hsrc. simpl. bind_related same_graph Hsrc. related.
  - intros ty args Hargs. rewrite (DescribeExpr_arguments o1), (DescribeExpr_arguments o2).
    bind_related (Forall2 same_edge) (DescribeArguments_related 0 _ Hargs). related.
  - intros ty args Hargs. rewrite (DescribeExpr_arguments o1), (DescribeExpr_arguments o2).
    bind_related (Forall2 same_edge) (DescribeArguments_related 0 _ Hargs). related.
  - intros ty e target He. simpl. bind_related same_graph He. related.
  - done.
  - done.
  - done.
  - intros. by related.
  - done.
Qed.

Local Abbreviation equal_exprs :=
  (Forall (λ e, single_argument_expr e = true →
                DescribeExpr o1 e = DescribeExpr o2 e)).

Lemma DescribeArguments_equal i (l : list Expression) :
  equal_exprs l → forallb single_argument_expr l = true →
  DescribeArguments o1 i l = DescribeArguments o2 i l.
Proof.
  intros H. revert i. induction H as [|e l He _ IH]; intros i Hs; [done|].
  simpl in Hs. apply andb_prop in Hs as [Hs1 Hs2]. simpl.
  by rewrite (He Hs1), (IH (S i) Hs2).
Qed.

Lemma DescribeAggregates_equal n i (l : list Expression) aggs :
  equal_exprs l → forallb single_argument_expr l = true →
  DescribeAggregates o1 n i l aggs = DescribeAggregates o2 n i l aggs.
Proof.
  intros H. revert i aggs.
  induction H as [|e l He _ IH]; intros i [|a aggs] Hs; try done.
  simpl in Hs. apply andb_prop in Hs as [Hs1 Hs2]. simpl.
  by rewrite (He Hs1), (IH (S i) aggs Hs2).
Qed.

Lemma DescribeMapped_equal n i (l : list Expression) fs :
  equal_exprs l → forallb single_argument_expr l = true →
  DescribeMapped o1 n i l fs = DescribeMapped o2 n i l fs.
Proof.
  intros H. revert i fs.
  induction H as [|e l He _ IH]; intros i [|f fs] Hs; try done.
  simpl in Hs. apply andb_prop in Hs as [Hs1 Hs2]. simpl.
  by rewrite (He Hs1), (IH (S i) fs Hs2).
Qed.

Lemma DescribeSortKeys_equal n i (l : list Expression) ms :
  equal_exprs l → forallb single_argument_expr l = true →
  DescribeSortKeys o1 n i l ms = DescribeSortKeys o2 n i l ms.
Proof.
  intros H. revert i ms.
  induction H as [|e l He _ IH]; intros i [|m ms] Hs; try done.
  simpl in Hs. apply andb_prop in Hs as [Hs1 Hs2]. simpl.
  by rewrite (He Hs1), (IH (S i) ms Hs2).
Qed.

(** A loop over a map with at most one entry has one order only. *)
Lemma range_order_short (o : RangeOrder) {A} (l : list (string * A)) :
  is_range_order o → length l ≤ 1 → o A l = l.
Proof.
  intros Ho Hlen. specialize (Ho A l).
  destruct l as [|x [|y l]]; simpl in Hlen; [| |lia].
  - by apply Permutation_nil_r.
  - by apply Permutation_singleton_r.
Qed.

(** On a plan none of whose table valued functions has two arguments the
    two runs agree, panics included. *)
Lemma DescribeNode_equal (node : Node) :
  single_argument_node node = true → DescribeNode o1 node = DescribeNode o2 node.
Proof using Ho1 Ho2.
  revert node.
  apply (Node_plan_ind
    (λ node, single_argument_node node = true →
             DescribeNode o1 node = DescribeNode o2 node)
    (λ e, single_argument_expr e = true → DescribeExpr o1 e = DescribeExpr o2 e)
    (λ a, single_argument_arg a = true →
          DescribeArgument o1 a = DescribeArgument o2 a)).
  - intros s name preds Hp Hs. simpl in Hs.
    rewrite (DescribeNode_loops o1), (DescribeNode_loops o2).
    destruct preds as [|p preds]; [done|].
    by rewrite (DescribeArguments_equal 0 _ Hp Hs).
  - intros s src Hsrc Hs. simpl in *. by rewrite Hsrc.
  - intros s src pred Hsrc Hpred [H1 H2]%andb_prop. simpl.
    by rewrite Hsrc, Hpred.
  - intros s src key aggs exprs Hsrc Hkey Hexprs [[H1 H2]%andb_prop H3]%andb_prop.
    rewrite (DescribeNode_loops o1), (DescribeNode_loops o2).
    by rewrite (DescribeAggregates_equal _ 0 _ aggs Hexprs H1),
               (DescribeArguments_equal 0 _ Hkey H2), Hsrc.
  - intros s l r lk rk Hl Hr Hlk Hrk
      [[[H1 H2]%andb_prop H3]%andb_prop H4]%andb_prop.
    rewrite (DescribeNode_loops o1), (DescribeNode_loops o2).
    by rewrite Hl, Hr, (DescribeArguments_equal 0 _ Hlk H3),
               (DescribeArguments_equal 0 _ Hrk H4).
  - intros s src joined Hsrc Hj [H1 H2]%andb_prop. simpl. by rewrite Hsrc, Hj.
  - intros s src exprs Hsrc Hexprs [H1 H2]%andb_prop.
    rewrite (DescribeNode_loops o1), (DescribeNode_loops o2).
    by rewrite (DescribeMapped_equal _ 0 _ (Fields s) Hexprs H1), Hsrc.
  - intros s src key ms Hsrc Hkey [H1 H2]%andb_prop.
    rewrite (DescribeNode_loops o1), (DescribeNode_loops o2).
    by rewrite (DescribeSortKeys_equal _ 0 _ ms Hkey H1), Hsrc.
  - intros s src q Hsrc Hs. simpl in *. by rewrite Hsrc.
  - intros s name args Hargs [Hlen%bool_decide_eq_true H2]%andb_prop.
    rewrite (DescribeNode_loops o1), (DescribeNode_loops o2).
    rewrite !range_order_short by (by rewrite ?length_fmap).
    assert (prod_map id (DescribeArgument o1) <$> args
            = prod_map id (DescribeArgument o2) <$> args) as ->; [|done].
    clear Hlen. induction Hargs as [|[n v] args Hv _ IH]; [done|].
    simpl in H2, Hv. apply andb_prop in H2 as [Hv2 H2].
    rewrite !fmap_cons, (IH H2). unfold prod_map at 1 3. simpl.
    by rewrite (Hv Hv2).
  - intros s src f Hsrc Hs. simpl in *. by rewrite Hsrc.
  - done.
  - done.
  - done.
  - intros ty name args Hargs Hs.
    rewrite (DescribeExpr_arguments o1), (DescribeExpr_arguments o2).
    by rewrite (DescribeArguments_equal 0 _ Hargs Hs).
  - intros ty args Hargs Hs.
    rewrite (DescribeExpr_arguments o1), (DescribeExpr_arguments o2).
    by rewrite (DescribeArguments_equal 0 _ Hargs Hs).
  - intros ty args Hargs Hs.
    rewrite (DescribeExpr_arguments o1), (DescribeExpr_arguments o2).
    by rewrite (DescribeArguments_equal 0 _ Hargs Hs).
  - intros ty src Hsrc Hs. simpl in *. by rewrite Hsrc.
  - intros ty args Hargs Hs.
    rewrite (DescribeExpr_arguments o1), (DescribeExpr_arguments o2).
    by rewrite (DescribeArguments_equal 0 _ Hargs Hs).
  - intros ty args Hargs Hs.
    rewrite (DescribeExpr_arguments o1), (DescribeExpr_arguments o2).
    by rewrite (DescribeArguments_equal 0 _ Hargs Hs).
  - intros ty e target He Hs. simpl in *. by rewrite He.
  - done.
  - intros e He Hs. by apply He.
  - intros table Ht Hs. by apply Ht.
  - done.
  - done.
Qed.

End TwoRuns.


End DescribeFacts.

Lemma in_order_is_range_order : is_range_order in_order.
Proof. by intros A l. Qed.

Lemma backwards_is_range_order : is_range_order backwards.
Proof. intros A l. apply reverse_Permutation. Qed.




(** ** The root command *)

Section CmdFacts.

Context {OValue OType : Type}.
Context (Int : OType) (NewInt : Z → OValue).
Context {PluginReference Version Constraint YamlNode Database Repository : Type}.
Context `{!EqDecision PluginReference}.
Context (Reference_Name : PluginReference → string).
Context (Reference_String : PluginReference → string).
Context (any_version : Constraint) (Check : Constraint → Version → bool).
Context (emptyYamlNode : YamlNode).
Context {LogicalNode LogicalExpression SelectStatement Direction : Type}.

Local Abbreviation PNode := (Physical.Node OValue OType).
Local Abbreviation PExpression := (Physical.Expression OValue OType).
Local Abbreviation Externals :=
  (@Cmd.Externals OValue OType PluginReference Version Constraint YamlNode
     Database Repository LogicalNode LogicalExpression SelectStatement Direction).
Local Abbreviation Typechecked :=
  (@Cmd.Typechecked OValue OType PluginReference Version Constraint YamlNode
     Database Repository LogicalExpression Direction).
Local Abbreviation OutputOptions := (@Cmd.OutputOptions LogicalExpression Direction).
Local Abbreviation Event := (@Cmd.Event OValue OType).
Local Abbreviation Sink := (@Cmd.Sink OValue OType).
Local Abbreviation ExecutionNode := (@Cmd.ExecutionNode OValue OType).
Local Abbreviation ExecutionExpression := (@Cmd.ExecutionExpression OValue OType).
Local Abbreviation finish := (Cmd.finish Int NewInt).
Local Abbreviation orderAndLimit := (Cmd.orderAndLimit Int NewInt).
Local Abbreviation prelude :=
  (Cmd.prelude Reference_Name Reference_String any_version Check).
Local Abbreviation RunE :=
  (Cmd.RunE Int NewInt Reference_Name Reference_String any_version Check).

(** C7 (as the code has it).  A panic raised with a value inside [Typecheck]
    does not leave the wrapper: the wrapper returns the zero results and the
    error "typecheck error: <value>".  When [Typecheck] returns, the wrapper
    returns its results and a nil error.  A panic raised with nil does not
    leave the wrapper either, but is returned as a nil error. *)
Theorem C7_typecheck_panic_becomes_error :
  (∀ r : string,
     Cmd.typecheckNode (OValue:=OValue) (OType:=OType) (Cmd.Panics (Some r))
     = (None, None, Some (Cmd.Err ("typecheck error: " ++ r)%string))
     ∧ Cmd.typecheckExpr (OValue:=OValue) (OType:=OType) (Cmd.Panics (Some r))
       = (None, Some (Cmd.Err ("typecheck error: " ++ r)%string)))
  ∧ (∀ (node : PNode) mapping (expr : PExpression),
       Cmd.typecheckNode (Cmd.Returns (node, mapping)) = (Some node, Some mapping, None)
       ∧ Cmd.typecheckExpr (Cmd.Returns expr) = (Some expr, None))
  ∧ Cmd.typecheckNode (OValue:=OValue) (OType:=OType) (Cmd.Panics None)
    = (None, None, None).
Proof. done. Qed.


(** The switch gives an eager sink for no other format. *)
Lemma selectSink_eager (ext : Externals) output (physicalPlan : PNode)
    executionPlan orderByExpressions (outputOptions : OutputOptions) outSchema sink :
  Cmd.selectSink ext output physicalPlan executionPlan orderByExpressions
                 outputOptions outSchema = inl sink →
  Cmd.is_eager sink = true →
  (output = "csv"%string ∨ output = "json"%string)
  ∧ Physical.NoRetractions (Physical.Node_Schema physicalPlan) = true
  ∧ ∃ format, sink = Cmd.EagerOutputPrinter executionPlan outSchema format.
Proof.
  unfold Cmd.selectSink.
  repeat case_decide; try (by intros [= <-]);
    try (case_bool_decide; [done|]; by intros [= <-]).
  - destruct (Physical.NoRetractions _); intros [= <-]; [|done]. eauto.
  - destruct (Physical.NoRetractions _); intros [= <-]; [|done]. eauto.
Qed.

Lemma materializeOrderBy_ok (ext : Externals) i (exprs : list PExpression) env :
  (∀ expr env, Cmd.Materialize_expr ext expr env = None) →
  Cmd.materializeOrderBy ext i exprs env = inl (Cmd.MaterializedExpression <$> exprs).
Proof.
  intros Hok. revert i. induction exprs as [|e exprs IH]; intros i; [done|].
  simpl. by rewrite Hok, IH.
Qed.

(** C8 (as the code has it).  A query with a positive limit, run with
    [--output=stream_native] (not [--describe], not [--explain]), that is
    typechecked and whose plan materializes, is rejected with the error
    "LIMIT clause not supported with stream output", no sink being run, when
    the schema of its plan allows retractions.  When the schema has
    [NoRetractions] the limit has gone into the plan as a limit node, the
    limit of the output options is 0, and the query is run by the native
    stream sink. *)
Theorem C8_stream_output_rejects_LIMIT_with_retractions
    (ext : Externals) (flags : Cmd.Flags) (args0 : string) (t : Typechecked)
    (events0 events1 : list Event) :
  prelude ext args0 events0 = (Cmd.Go t, events1) →
  Cmd.output flags = "stream_native"%string →
  Cmd.describe flags = false →
  (Cmd.explain flags < 1)%Z →
  (0 < Cmd.Limit (Cmd.t_outputOptions t))%Z →
  (∀ plan env, Cmd.Materialize_node ext plan env = None) →
  (∀ expr env, Cmd.Materialize_expr ext expr env = None) →
  if Physical.NoRetractions (Physical.Node_Schema (Cmd.t_physicalPlan t))
  then ∃ source schema,
    let plan := Physical.NodeLimit (Physical.Node_Schema (Cmd.t_physicalPlan t)) source
                  (Physical.ExprConstant Int
                     (NewInt (Cmd.Limit (Cmd.t_outputOptions t)))) in
    let sink := Cmd.StreamOutputPrinter
                  (Cmd.Materialized (if Cmd.optimize flags
                                     then Cmd.Optimize ext plan else plan))
                  schema in
    RunE ext flags args0 events0
    = (Cmd.Stop match Cmd.sink_Run ext sink with
                | Some err => Some (Cmd.Errorf_w "couldn't run query: " err)
                | None => None
                end,
       events1 ++ [Cmd.SentTelemetry "query"; Cmd.SinkRan sink])
  else
    RunE ext flags args0 events0
    = (Cmd.Stop (Some (Cmd.Err "LIMIT clause not supported with stream output")),
       events1 ++ [Cmd.SentTelemetry "query"]).
Proof.
  intros Hpre Hout Hdesc Hexp Hlim Hnode Hexpr.
  destruct flags as [describe explain optimize output]. simpl in *. subst.
  unfold Cmd.RunE, mbind, Cmd.M_bind. rewrite Hpre.
  unfold Cmd.finish, Cmd.orderAndLimit.
  destruct t as [env plan mapping oo exprs]. simpl in *.
  destruct (Physical.NoRetractions (Physical.Node_Schema plan)) eqn:Hnr; simpl.
  - set (ordered := if bool_decide (0 < length exprs) then _ else _).
    assert (Hord : ∃ source, ordered = (source, [])
                   ∧ Physical.Node_Schema source = Physical.Node_Schema plan).
    { subst ordered. case_bool_decide as Hlen.
      - by eexists.
      - exists plan. destruct exprs; [done | simpl in Hlen; lia]. }
    destruct Hord as (source & -> & Hschema). simpl. rewrite Hschema, Hnr. simpl.
    unfold mbind, Cmd.M_bind, Cmd.emit, Cmd.checking, mret, Cmd.M_ret. simpl.
    rewrite bool_decide_false by lia.
    set (final := if optimize then _ else _).
    exists source,
      {| Physical.Fields :=
           Cmd.renameFields (Cmd.ReverseMapping ext mapping)
             (Physical.Fields (Physical.Node_Schema final));
         Physical.TimeField := Physical.TimeField (Physical.Node_Schema final);
         Physical.NoRetractions := false |}.
    rewrite Hnode. simpl.
    destruct (Cmd.sink_Run ext _); simpl; by rewrite <- app_assoc.
  - rewrite Hnr. simpl.
    unfold mbind, Cmd.M_bind, Cmd.emit, Cmd.checking, mret, Cmd.M_ret. simpl.
    rewrite bool_decide_false by lia.
    rewrite Hnode, materializeOrderBy_ok by done. simpl.
    unfold Cmd.selectSink. simpl.
    by rewrite bool_decide_true by lia.
Qed.

(** *** The registry of databases *)

Local Abbreviation Accessor :=
  (@Cmd.Accessor PluginReference Version Constraint YamlNode Database Repository).
Local Abbreviation ExternalCall :=
  (@Cmd.ExternalCall PluginReference Version YamlNode Repository).
Local Abbreviation Outside :=
  (@Cmd.Outside PluginReference Version YamlNode Database Repository).
Local Abbreviation invoke := (Cmd.invoke Reference_Name Reference_String emptyYamlNode).
Local Abbreviation callDatabase :=
  (Cmd.callDatabase Reference_Name Reference_String emptyYamlNode).
Local Abbreviation callDatabases :=
  (Cmd.callDatabases Reference_Name Reference_String emptyYamlNode).
Local Abbreviation pluginName :=
  (Cmd.pluginName (PluginReference:=PluginReference) (Version:=Version)
     (Constraint:=Constraint) (YamlNode:=YamlNode) (Database:=Database)
     (Repository:=Repository) Reference_Name).
Local Abbreviation settled :=
  (Cmd.settled (PluginReference:=PluginReference) (Version:=Version)
     (Constraint:=Constraint) (YamlNode:=YamlNode) (Database:=Database)
     (Repository:=Repository) Reference_String).
Local Abbreviation wellNamed :=
  (Cmd.wellNamed (PluginReference:=PluginReference) (Version:=Version)
     (Constraint:=Constraint) (YamlNode:=YamlNode) (Database:=Database)
     (Repository:=Repository) Reference_Name).
Local Abbreviation buildDatabases :=
  (Cmd.buildDatabases (PluginReference:=PluginReference) (Version:=Version)
     (Constraint:=Constraint) (YamlNode:=YamlNode) (Database:=Database)
     (Repository:=Repository) Reference_Name).

Lemma pluginRuns_app name (calls new : list ExternalCall) :
  Cmd.pluginRuns name (calls ++ new)
  = Cmd.pluginRuns name calls + Cmd.pluginRuns name new.
Proof. unfold Cmd.pluginRuns. by rewrite filter_app, length_app. Qed.

Lemma pluginRuns_one name (call : ExternalCall) : Cmd.pluginRuns name [call] ≤ 1.
Proof.
  unfold Cmd.pluginRuns. rewrite filter_cons, filter_nil.
  destruct (decide _); simpl; lia.
Qed.

Lemma callDatabase_parts (outside : Outside) name
    (databases : gmap string Accessor) (calls : list ExternalCall) :
  callDatabase outside name databases calls
  = match databases !! name with
    | None => (Cmd.CallPanicked NilDereference, databases, calls)
    | Some accessor =>
        let '(called, accessor', calls') :=
          Cmd.invoked_parts (invoke outside accessor calls) in
        (called, <[name := accessor']> databases, calls')
    end.
Proof.
  unfold Cmd.callDatabase. destruct (databases !! name); [|done].
  by destruct (invoke outside _ calls).
Qed.

(** A call keeps the name an accessor runs its plugin for, and runs no
    plugin for another name. *)
Lemma invoke_other (outside : Outside) (accessor : Accessor)
    (calls : list ExternalCall) :
  pluginName (Cmd.invoked_parts (invoke outside accessor calls)).1.2
  = pluginName accessor
  ∧ ∀ key, pluginName accessor ≠ Some key →
      Cmd.pluginRuns key (Cmd.invoked_parts (invoke outside accessor calls)).2
      = Cmd.pluginRuns key calls.
Proof.
  assert (Hrun : ∀ key ref name version config,
    Some name ≠ Some key →
    Cmd.pluginRuns key (calls ++ [Cmd.RunPlugin ref name version config])
    = Cmd.pluginRuns key calls).
  { intros key ref name version config Hne. rewrite pluginRuns_app.
    unfold Cmd.pluginRuns. rewrite filter_cons, filter_nil. simpl.
    rewrite decide_False; [simpl; lia|].
    rewrite bool_decide_eq_false_2; [by intros []| congruence]. }
  assert (Hno : ∀ key (call : ExternalCall) (calls : list ExternalCall),
    Cmd.isRunOf key call = false →
    Cmd.pluginRuns key (calls ++ [call]) = Cmd.pluginRuns key calls).
  { clear. intros key call calls Hcall. rewrite pluginRuns_app.
    unfold Cmd.pluginRuns. rewrite filter_cons, filter_nil, Hcall. simpl. lia. }
  destruct accessor as [cfg version cell|cell| | |metadata cell]; simpl.
  - destruct (Cmd.once_done cell).
    + by destruct (Cmd.cell_err cell).
    + destruct (Cmd.RunPlugin_answer _ _ _ _ _ _) as [db [err|]]; simpl;
        (split; [done | intros key Hne; by apply Hrun]).
  - destruct (Cmd.once_done cell).
    + destruct (Cmd.cell_err cell); simpl; [done|].
      destruct (Cmd.PluginsCreator_answer _ _ _); simpl.
      split; [done | intros key _; by apply Hno].
    + destruct (Cmd.GetRepositories_answer _ _) as [repos [err|]]; simpl.
      * split; [done | intros key _; by apply Hno].
      * destruct (Cmd.PluginsCreator_answer _ _ _); simpl.
        split; [done | intros key _]. by rewrite !Hno.
  - destruct (Cmd.DocsCreator_answer _ _); simpl.
    split; [done | intros key _; by apply Hno].
  - destruct (Cmd.LinesCreator_answer _ _); simpl.
    split; [done | intros key _; by apply Hno].
  - destruct (Cmd.once_done cell).
    + by destruct (Cmd.cell_err cell).
    + destruct (Cmd.Versions metadata) as [|first versions]; [done|].
      destruct (Cmd.RunPlugin_answer _ _ _ _ _ _) as [db [err|]]; simpl;
        (split; [done | intros key Hne; by apply Hrun]).
Qed.

(** Once the [sync.Once] of an accessor has run, a call changes nothing and
    gives the answer the captured variables hold. *)
Lemma invoke_settled (outside : Outside) (accessor : Accessor)
    (calls : list ExternalCall) answer :
  settled accessor = Some answer →
  Cmd.invoked_parts (invoke outside accessor calls) = (answer, accessor, calls).
Proof.
  destruct accessor as [cfg version cell|cell| | |metadata cell]; simpl; try done.
  - destruct cell as [[] value err]; simpl; [|done].
    intros [= <-]. by destruct err.
  - destruct cell as [[] value err]; simpl; [|done].
    intros [= <-]. by destruct err.
Qed.

(** The first call runs the plugin, once, and leaves its answer in the
    captured variables. *)
Lemma invoke_unsettled (outside : Outside) (accessor : Accessor)
    (calls : list ExternalCall) :
  Cmd.guardsPlugin accessor = true →
  settled accessor = None →
  ∃ answer accessor' call,
    Cmd.invoked_parts (invoke outside accessor calls)
    = (answer, accessor', calls ++ [call])
    ∧ settled accessor' = Some answer
    ∧ Cmd.guardsPlugin accessor' = true.
Proof.
  destruct accessor as [cfg version cell|cell| | |metadata cell]; simpl; try done.
  - intros _. destruct cell as [[] value err]; simpl; [done|]. intros _.
    destruct (Cmd.RunPlugin_answer _ _ _ _ _ _) as [db [e|]]; simpl;
      by eexists _, _, _.
  - destruct (Cmd.Versions metadata) as [|first versions] eqn:Hv; [done|].
    intros _. destruct cell as [[] value err]; simpl; [done|]. intros _.
    destruct (Cmd.RunPlugin_answer _ _ _ _ _ _) as [db [e|]]; simpl;
      (eexists _, _, _; split; [reflexivity|]; simpl; by rewrite Hv).
Qed.

Lemma wellNamed_insert (databases : gmap string Accessor) name
    (accessor accessor' : Accessor) :
  wellNamed databases →
  databases !! name = Some accessor →
  pluginName accessor' = pluginName accessor →
  wellNamed (<[name := accessor']> databases).
Proof.
  intros Hwn Hlook Hname k a. rewrite lookup_insert.
  case_decide as Hk.
  - subst k. intros [= <-] n. rewrite Hname. by apply Hwn.
  - by apply Hwn.
Qed.

Lemma buildDatabases_wellNamed dbs resolved installed :
  wellNamed (buildDatabases dbs resolved installed).
Proof.
  assert (Hins : ∀ databases name (accessor : Accessor),
    wellNamed databases → (∀ n, pluginName accessor = Some n → n = name) →
    wellNamed (<[name := accessor]> databases)).
  { intros databases name accessor Hwn Hname k a. rewrite lookup_insert.
    case_decide as Hk; [|by apply Hwn]. subst k. by intros [= <-]. }
  unfold Cmd.buildDatabases, Cmd.defaultDatabases, Cmd.builtinDatabases,
    Cmd.configuredDatabases.
  assert (H1 : ∀ acc, wellNamed acc →
    wellNamed (fold_left
      (λ databases dbConfig,
         <[Cmd.db_Name dbConfig :=
             Cmd.ConfiguredDatabase dbConfig (resolved !! Cmd.db_Name dbConfig)
               (Cmd.fresh_cell None)]> databases) dbs acc)).
  { induction dbs as [|db dbs IH]; intros acc Hacc; [done|]. simpl.
    apply IH, Hins; [done|]. by intros n [= <-]. }
  assert (H2 : ∀ acc, wellNamed acc →
    wellNamed (fold_left
      (λ databases metadata,
         match databases !! Reference_Name (Cmd.Reference metadata) with
         | Some _ => databases
         | None =>
             <[Reference_Name (Cmd.Reference metadata) :=
                 Cmd.DefaultDatabase metadata (Cmd.fresh_cell None)]> databases
         end) installed acc)).
  { induction installed as [|m installed IH]; intros acc Hacc; [done|]. simpl.
    apply IH. destruct (acc !! _); [done|]. apply Hins; [done|].
    by intros n [= <-]. }
  apply H2. repeat (apply Hins; [|done]). apply H1.
  intros k a. by rewrite lookup_empty.
Qed.

(** Through any run of calls, an accessor that guards a plugin gives one
    answer, and its plugin is run at most once. *)
Lemma callDatabases_guarded (outside : Outside) names
    (databases : gmap string Accessor) (calls : list ExternalCall) key
    (accessor : Accessor) :
  wellNamed databases →
  databases !! key = Some accessor →
  Cmd.guardsPlugin accessor = true →
  ∃ answer,
    (∀ r, settled accessor = Some r → answer = r)
    ∧ (∀ i r, (callDatabases outside names databases calls).1.1 !! i = Some (key, r) →
              r = answer)
    ∧ Cmd.pluginRuns key (callDatabases outside names databases calls).2
      ≤ Cmd.pluginRuns key calls
        + (if settled accessor is Some _ then 0 else 1).
Proof.
  revert databases calls accessor.
  induction names as [|name names IH]; intros databases calls accessor Hwn Hkey Hg.
  { destruct (settled accessor) as [r|] eqn:Hs.
    - exists r. simpl. split_and!; [by intros ? [= <-]|done|lia].
    - exists (Cmd.CallPanicked NilDereference). simpl. split_and!; [done|done|lia]. }
  cbn [Cmd.callDatabases]. rewrite callDatabase_parts.
  destruct (decide (name = key)) as [->|Hne].
  - rewrite Hkey.
    destruct (settled accessor) as [r|] eqn:Hs.
    + rewrite (invoke_settled outside accessor calls r Hs).
      destruct (IH (<[key := accessor]> databases) calls accessor)
        as (answer & Hans & Hres & Hruns);
        [by eapply wellNamed_insert | by rewrite lookup_insert_eq | done |].
      rewrite Hs in Hruns.
      destruct (callDatabases outside names _ calls) as [[rest dbs'] calls'].
      simpl in *. exists r. split_and!; [by intros ? [= <-]| |done].
      intros [|i] r'; simpl; [by intros [= <-]|].
      intros Hi. rewrite (Hres i r' Hi). by apply Hans.
    + pose proof (invoke_other outside accessor calls) as [Hn _].
      destruct (invoke_unsettled outside accessor calls Hg Hs)
        as (answer & accessor' & call & Heq & Hs' & Hg').
      rewrite Heq in Hn |- *. simpl in Hn.
      destruct (IH (<[key := accessor']> databases) (calls ++ [call]) accessor')
        as (answer' & Hans & Hres & Hruns);
        [by eapply wellNamed_insert | by rewrite lookup_insert_eq | done |].
      rewrite Hs' in Hruns. rewrite pluginRuns_app in Hruns.
      pose proof (pluginRuns_one key call).
      destruct (callDatabases outside names _ (calls ++ [call]))
        as [[rest dbs'] calls'].
      simpl in *. exists answer. split_and!; [done| |lia].
      intros [|i] r'; simpl; [by intros [= <-]|].
      intros Hi. rewrite (Hres i r' Hi). by apply Hans.
  - destruct (databases !! name) as [other|] eqn:Hother.
    + pose proof (invoke_other outside other calls) as [Hn Hr].
      destruct (Cmd.invoked_parts (invoke outside other calls))
        as [[called other'] calls1] eqn:Hparts. simpl in Hn, Hr.
      destruct (IH (<[name := other']> databases) calls1 accessor)
        as (answer & Hans & Hres & Hruns);
        [by eapply wellNamed_insert | by rewrite lookup_insert_ne | done |].
      rewrite (Hr key) in Hruns.
      2:{ intros Hk. apply Hne. symmetry. by eapply Hwn. }
      destruct (callDatabases outside names _ calls1) as [[rest dbs'] calls'].
      simpl in *. exists answer. split_and!; [done| |done].
      intros [|i] r'; simpl; [by intros [= ? _]|]. apply Hres.
    + destruct (IH databases calls accessor) as (answer & Hans & Hres & Hruns);
        [done..|].
      destruct (callDatabases outside names _ calls) as [[rest dbs'] calls'].
      simpl in *. exists answer. split_and!; [done| |done].
      intros [|i] r'; simpl; [by intros [= ? _]|]. apply Hres.
Qed.

(** C10.  Whatever accessors are called and in what order, the plugin of a
    configured database, and of an installed plugin with a version, is run at
    most once, and every call of its accessor returns what the first call
    returned: the same database, or the same error. *)
Theorem C10_plugin_run_once_and_answer_kept (outside : Outside)
    dbs resolved installed (names : list string) (calls0 : list ExternalCall)
    (key : string) (accessor : Accessor) :
  buildDatabases dbs resolved installed !! key = Some accessor →
  Cmd.guardsPlugin accessor = true →
  let run := callDatabases outside names (buildDatabases dbs resolved installed)
                           calls0 in
  Cmd.pluginRuns key run.2 ≤ Cmd.pluginRuns key calls0 + 1
  ∧ ∀ i j r r', run.1.1 !! i = Some (key, r) → run.1.1 !! j = Some (key, r') →
                r = r'.
Proof.
  intros Hkey Hg run.
  destruct (callDatabases_guarded outside names _ calls0 key accessor
              (buildDatabases_wellNamed dbs resolved installed) Hkey Hg)
    as (answer & _ & Hres & Hruns).
  fold run in Hres, Hruns. split.
  - destruct (settled accessor); lia.
  - intros i j r r' Hi Hj. by rewrite (Hres i r Hi), (Hres j r' Hj).
Qed.

End CmdFacts.

(** C7, the claim at a panic with the value nil: the wrapper returns no
    error. *)
Lemma C7_panic_nil_returns_no_error :
  ¬ ∀ value : option string,
      ∃ err, (Cmd.typecheckNode (OValue:=Z) (OType:=string) (Cmd.Panics value)).2
             = Some err.
Proof. intros H. destruct (H None) as [err Herr]. discriminate Herr. Qed.

(** C8, the claim at a sample: a limit over a table without retractions is
    not rejected for the native stream; the query is run. *)
Lemma C8_LIMIT_accepted_without_retractions :
  (Cmd.Sample.RunE (Cmd.Sample.flags "stream_native") "SELECT * FROM t LIMIT 2").1
  = Cmd.Stop None
  ∧ ∃ sink, (Cmd.Sample.RunE (Cmd.Sample.flags "stream_native")
                             "SELECT * FROM t LIMIT 2").2
            = [Cmd.SentTelemetry "query"; Cmd.SinkRan sink].
Proof. split; [reflexivity | eexists; reflexivity]. Qed.

Lemma C8_stream_output_rejects_LIMIT_with_retractions_witness :
  Cmd.Sample.RunE (Cmd.Sample.flags "stream_native") "SELECT * FROM poll(t) LIMIT 2"
  = (Cmd.Stop (Some (Cmd.Err "LIMIT clause not supported with stream output")),
     [Cmd.SentTelemetry "query"]).
Proof.
  exact (C8_stream_output_rejects_LIMIT_with_retractions
           "Int"%string id (λ ref : string, ref) (λ ref : string, ref) 0
           (λ (c v : nat), bool_decide (c ≤ v)) Cmd.Sample.externals
           (Cmd.Sample.flags "stream_native") "SELECT * FROM poll(t) LIMIT 2"
           (Cmd.Sample.typechecked "SELECT * FROM poll(t) LIMIT 2") [] []
           eq_refl eq_refl eq_refl eq_refl eq_refl
           (λ _ _, eq_refl) (λ _ _, eq_refl)).
Defined.


Lemma C10_plugin_run_once_and_answer_kept_witness :
  Cmd.pluginRuns "db" (Cmd.Sample.callDatabases ["db"; "postgres"; "db"]).2 ≤ 0 + 1.
Proof.
  exact (proj1 (C10_plugin_run_once_and_answer_kept
                  (λ ref : string, ref) (λ ref : string, ref) "{}"%string
                  Cmd.Sample.outside (Cmd.Databases Cmd.Sample.config)
                  {["db"%string := 2]} Cmd.Sample.installed
                  ["db"; "postgres"; "db"]%string [] "db"%string
                  (Cmd.ConfiguredDatabase
                     {| Cmd.db_Name := "db"; Cmd.db_Type := "postgres";
                        Cmd.db_Version := None; Cmd.db_Config := "{}" |}%string
                     (Some 2) (Cmd.fresh_cell None))
                  eq_refl eq_refl)).
Defined.

(** * Further properties *)

(** ** GroupByStream.Next: errors, bounds and the end of the stream *)

Section GroupByMore.

Context {VariableName Variables : Type}.
Context (NewVariableName : string → VariableName).
Context (VariableName_String : VariableName → string).
Context (MergeWith : Variables → Variables → Variables * option error).
Context (AsVariables : Record_ VariableName → Variables).
Context (Record_Value : Record_ VariableName → VariableName → Value).

Local Abbreviation Stream := (GroupByStream VariableName Variables).
Local Abbreviation makeFieldNames :=
  (makeFieldNames NewVariableName VariableName_String).
Local Abbreviation outputNames :=
  (outputNames NewVariableName VariableName_String).
Local Abbreviation addRecords := (addRecords Record_Value).
Local Abbreviation endOfSource := (endOfSource NewVariableName VariableName_String).
Local Abbreviation readSource :=
  (readSource NewVariableName VariableName_String MergeWith AsVariables Record_Value).
Local Abbreviation groupKey := (groupKey MergeWith AsVariables).
Local Abbreviation Next :=
  (Next NewVariableName VariableName_String MergeWith AsVariables Record_Value).
Local Abbreviation pull :=
  (pull NewVariableName VariableName_String MergeWith AsVariables Record_Value).
Local Abbreviation emitted :=
  (emitted NewVariableName VariableName_String MergeWith AsVariables Record_Value).

Lemma evalKey_error i (exprs : list (Execution.Expression (Variables:=Variables)))
    vars err :
  evalKey i exprs vars = inr err → err ≠ ErrEndOfStream.
Proof.
  revert i. induction exprs as [|e exprs IH]; intros i; simpl; [done|].
  destruct (e vars) as [v [e'|]]; [by intros [= <-]|].
  destruct (evalKey (S i) exprs vars) eqn:E; [done|].
  intros [= <-]. by eapply IH.
Qed.

Lemma addRecords_error i n aggs fs k (r : Record_ VariableName) err :
  (addRecords i n aggs fs k r).2 = AddFailed err → err ≠ ErrEndOfStream.
Proof.
  revert i fs. induction aggs as [|a aggs IH]; intros i fs; simpl; [done|].
  destruct fs as [|f fs]; [done|].
  destruct (AddRecord a k (Record_Value r f)) as [a' [e|]]; [by intros [= <-]|].
  specialize (IH (S i) fs).
  by destruct (addRecords (S i) n aggs fs k r).
Qed.

(** The errors the loop returns are wrapped: none is the sentinel. *)
Lemma readSource_error src (st st1 : Stream) err :
  readSource src st = LoopReturn err st1 → err ≠ ErrEndOfStream.
Proof.
  revert st. induction src as [|[rec e] rest IH]; intros st; simpl.
  - unfold Execution.endOfSource. by destruct (makeFieldNames _ _ _ _).
  - destruct e as [e|].
    { destruct (decide (e = ErrEndOfStream)).
      - unfold Execution.endOfSource. by destruct (makeFieldNames _ _ _ _).
      - by intros [= <- _]. }
    destruct rec as [record|]; [|done].
    destruct (MergeWith (variables st) (AsVariables record)) as [vars [?|]].
    { by intros [= <- _]. }
    destruct (evalKey 0 (key st) vars) as [k0|] eqn:Ek.
    2:{ intros [= <- _]. by eapply evalKey_error. }
    set (k := if decide (length k0 = 0) then _ else _).
    pose proof (addRecords_error 0 (length (fields st)) (aggregates st)
                  (fields st) k record) as Herr.
    destruct (addRecords 0 (length (fields st)) (aggregates st) (fields st)
                k record) as [aggs status].
    destruct status; [|intros [= <- _]; by apply Herr|done].
    apply IH.
Qed.

Lemma getValues_error aggs k err :
  getValues aggs k = inr err → err ≠ ErrEndOfStream.
Proof.
  induction aggs as [|a aggs IH]; simpl; [done|].
  destruct (GetAggregated a k) as [v [e|]]; [by intros [= <-]|].
  destruct (getValues aggs k); [done|]. intros [= <-]. by apply IH.
Qed.

(** What a step of the iterator can answer. *)
Lemma emitGroup_cases (st : Stream) it :
  match Execution.emitGroup st it with
  | Returned (Some record) e st' =>
      e = Some ErrEndOfStream ∧ ∃ k v l, remaining it = (k, v) :: l
      ∧ st' = with_iterator st (Some {| remaining := l |})
      ∧ record = groupRecord st k ∧ hasValues (aggregates st) k = true
  | Returned None (Some err) st' =>
      (err = ErrEndOfStream ∧ remaining it = []
       ∧ st' = with_iterator st (Some {| remaining := [] |}))
      ∨ (err ≠ ErrEndOfStream ∧ ∃ k v l, remaining it = (k, v) :: l
         ∧ st' = with_iterator st (Some {| remaining := l |})
         ∧ hasValues (aggregates st) k = false)
  | Returned None None _ => False
  | Panicked _ => False
  end.
Proof.
  unfold Execution.emitGroup, Iterator_Next, groupRecord, groupValues, hasValues.
  destruct it as [[|[k v] l]]; simpl; [by left|].
  destruct (getValues (aggregates st) k) as [vs|err] eqn:E.
  - split; [done|]. exists k, v, l. by rewrite E.
  - right. split; [by eapply getValues_error|]. exists k, v, l. by rewrite E.
Qed.

(** No call of [Next] returns a nil error: a record always comes with the
    end-of-stream sentinel, and every other answer is an error with no
    record. *)
Theorem Next_never_returns_nil_error (st : Stream) :
  match Next st with
  | Returned (Some _) e _ => e = Some ErrEndOfStream
  | Returned None e _ => e ≠ None
  | Panicked _ => True
  end.
Proof.
  assert (Hemit : ∀ (s : Stream) it,
    match Execution.emitGroup s it with
    | Returned (Some _) e _ => e = Some ErrEndOfStream
    | Returned None e _ => e ≠ None
    | Panicked _ => True
    end).
  { intros s it. pose proof (emitGroup_cases s it) as H.
    destruct (Execution.emitGroup s it) as [[record|] [e|] st'|]; try done.
    all: by destruct H. }
  unfold Execution.Next. destruct (iterator st) as [it|]; [apply Hemit|].
  destruct (readSource _ _) as [st1|err st1|]; [|done|done].
  destruct (iterator st1); [apply Hemit | done].
Qed.


(** Reading a source that goes on after some good records is reading the
    rest of it from the groups and aggregates those records leave. *)
Lemma readSource_app rs tail (st st_b : Stream) :
  readSource ((λ r, (Some r, None)) <$> rs) st = Break st_b →
  readSource (((λ r, (Some r, None)) <$> rs) ++ tail) st
  = readSource tail (with_aggregates (with_groups st (groups st_b)) (aggregates st_b)).
Proof.
  revert st. induction rs as [|r rs IH]; intros st.
  - simpl. unfold Execution.endOfSource.
    destruct (makeFieldNames _ _ _ _); [|done]. intros [= <-]. simpl.
    by destruct st.
  - cbn [fmap list_fmap app Execution.readSource].
    change (list_fmap _ _ ?f rs) with (f <$> rs).
    destruct (MergeWith (variables st) (AsVariables r)) as [vars [?|]]; [done|].
    destruct (evalKey 0 (key st) vars) as [k0|]; [|done].
    simpl.
    destruct (addRecords 0 (length (fields st)) (aggregates st) (fields st) _ r)
      as [aggs status].
    destruct status; [|done|done].
    intros H. by rewrite (IH _ H).
Qed.





End GroupByMore.






(** ** The plan describer: when it panics, and how it labels edges *)

Section DescribeMore.

Context {OValue OType : Type}.
Context (Value_String : OValue → string) (Type_String : OType → string).

Local Abbreviation Node := (Node OValue OType).
Local Abbreviation Expression := (Expression OValue OType).
Local Abbreviation Argument := (TableValuedFunctionArgument OValue OType).
Local Abbreviation DescribeNode := (DescribeNode Value_String Type_String).
Local Abbreviation DescribeExpr := (DescribeExpr Value_String Type_String).
Local Abbreviation DescribeArguments := (DescribeArguments Value_String Type_String).
Local Abbreviation DescribeAggregates := (DescribeAggregates Value_String Type_String).
Local Abbreviation DescribeMapped := (DescribeMapped Value_String Type_String).
Local Abbreviation DescribeSortKeys := (DescribeSortKeys Value_String Type_String).
Local Abbreviation DescribeArgument := (DescribeArgument Value_String Type_String).

Lemma is_Ok_bind {A B} (m : Res A) (k : A → Res B) (b : bool) :
  (∀ a, is_Ok (k a) = b) → is_Ok (m ≫= k) = is_Ok m && b.
Proof. intros Hk. destruct m; simpl; [apply Hk | done]. Qed.

Lemma edges_of_Ok (l : list (string * Res graph_Node)) :
  is_Ok (edges_of l) = forallb (λ entry, is_Ok entry.2) l.
Proof.
  induction l as [|[n r] l IH]; [done|]. simpl.
  destruct r; simpl; [|done]. rewrite <- IH. by destruct (edges_of l).
Qed.

Lemma edges_of_Ok_Permutation (l l' : list (string * Res graph_Node)) :
  l ≡ₚ l' → is_Ok (edges_of l) = is_Ok (edges_of l').
Proof.
  intros H%edges_of_Permutation.
  by destruct (edges_of l), (edges_of l').
Qed.

Section OneRun.

Context (o : RangeOrder) (Ho : is_range_order o).

Local Abbreviation ok_exprs :=
  (Forall (λ e, is_Ok (DescribeExpr o e) = describable_expr e)).

Lemma DescribeArguments_Ok i (l : list Expression) :
  ok_exprs l → is_Ok (DescribeArguments o i l) = forallb describable_expr l.
Proof.
  intros H. revert i. induction H as [|e l He _ IH]; intros i; [done|].
  simpl. rewrite <- He, <- (IH (S i)).
  by destruct (DescribeExpr o e), (DescribeArguments o (S i) l).
Qed.

Lemma DescribeAggregates_Ok n i (l : list Expression) aggs :
  ok_exprs l → is_Ok (DescribeAggregates o n i l aggs) = describable_aggregates l aggs.
Proof.
  intros H. revert i aggs.
  induction H as [|e l He _ IH]; intros i [|a aggs]; try done.
  simpl. rewrite <- He, <- (IH (S i) aggs).
  by destruct (DescribeExpr o e), (DescribeAggregates o n (S i) l aggs).
Qed.

Lemma DescribeMapped_Ok n i (l : list Expression) fs :
  ok_exprs l → is_Ok (DescribeMapped o n i l fs) = describable_indexed l fs.
Proof.
  intros H. revert i fs.
  induction H as [|e l He _ IH]; intros i [|f fs]; try done.
  simpl. rewrite <- He, <- (IH (S i) fs).
  by destruct (DescribeExpr o e), (DescribeMapped o n (S i) l fs).
Qed.

Lemma DescribeSortKeys_Ok n i (l : list Expression) ms :
  ok_exprs l → is_Ok (DescribeSortKeys o n i l ms) = describable_indexed l ms.
Proof.
  intros H. revert i ms.
  induction H as [|e l He _ IH]; intros i [|m ms]; try done.
  simpl. rewrite <- He, <- (IH (S i) ms).
  by destruct (DescribeExpr o e), (DescribeSortKeys o n (S i) l ms).
Qed.

(** [DescribeNode] returns a graph for the describable plans, and panics for
    all the others: those with a limit node, with an expression or an
    argument of another type, or with too few aggregate expressions, schema
    fields or direction multipliers.  The order of the loops over maps does
    not matter to that. *)
Theorem DescribeNode_Ok_iff_describable (node : Node) :
  is_Ok (DescribeNode o node) = describable node.
Proof using Ho.
  revert node.
  apply (Node_plan_ind
    (λ node, is_Ok (DescribeNode o node) = describable node)
    (λ e, is_Ok (DescribeExpr o e) = describable_expr e)
    (λ a, is_Ok (DescribeArgument o a) = describable_arg a)).
  - intros s name preds Hp. rewrite (DescribeNode_loops _ _ o).
    destruct preds as [|p preds]; [done|].
    rewrite (is_Ok_bind _ _ true) by done.
    rewrite (DescribeArguments_Ok 0 _ Hp). apply andb_true_r.
  - intros s src Hsrc. simpl. rewrite (is_Ok_bind _ _ true) by done.
    by rewrite Hsrc, andb_true_r.
  - intros s src pred Hsrc Hpred. simpl.
    rewrite (is_Ok_bind _ _ (describable src)), Hpred; [done|].
    intros a. rewrite (is_Ok_bind _ _ true) by done.
    by rewrite Hsrc, andb_true_r.
  - intros s src key aggs exprs Hsrc Hkey Hexprs.
    rewrite (DescribeNode_loops _ _ o).
    rewrite (is_Ok_bind _ _ (forallb describable_expr key && describable src)).
    + by rewrite (DescribeAggregates_Ok _ 0 _ aggs Hexprs), andb_assoc.
    + intros a. rewrite (is_Ok_bind _ _ (describable src)).
      * by rewrite (DescribeArguments_Ok 0 _ Hkey).
      * intros a'. rewrite (is_Ok_bind _ _ true) by done.
        by rewrite Hsrc, andb_true_r.
  - intros s l r lk rk Hl Hr Hlk Hrk. rewrite (DescribeNode_loops _ _ o).
    rewrite (is_Ok_bind _ _ (describable r && forallb describable_expr lk
                             && forallb describable_expr rk)).
    + change (describable (NodeStreamJoin s l r lk rk))
        with (describable l && describable r && forallb describable_expr lk
              && forallb describable_expr rk).
      rewrite Hl. by rewrite !andb_assoc.
    + intros a. rewrite (is_Ok_bind _ _ (forallb describable_expr lk
                                         && forallb describable_expr rk)).
      * by rewrite Hr, andb_assoc.
      * intros a'. rewrite (is_Ok_bind _ _ (forallb describable_expr rk)).
        -- by rewrite (DescribeArguments_Ok 0 _ Hlk).
        -- intros a''. rewrite (is_Ok_bind _ _ true) by done.
           by rewrite (DescribeArguments_Ok 0 _ Hrk), andb_true_r.
  - intros s src joined Hsrc Hj. simpl.
    rewrite (is_Ok_bind _ _ (describable joined)), Hsrc; [done|].
    intros a. rewrite (is_Ok_bind _ _ true) by done.
    by rewrite Hj, andb_true_r.
  - intros s src exprs Hsrc Hexprs. rewrite (DescribeNode_loops _ _ o).
    rewrite (is_Ok_bind _ _ (describable src)).
    + by rewrite (DescribeMapped_Ok _ 0 _ (Fields s) Hexprs).
    + intros a. rewrite (is_Ok_bind _ _ true) by done.
      by rewrite Hsrc, andb_true_r.
  - intros s src key ms Hsrc Hkey. rewrite (DescribeNode_loops _ _ o).
    rewrite (is_Ok_bind _ _ (describable src)).
    + by rewrite (DescribeSortKeys_Ok _ 0 _ ms Hkey).
    + intros a. rewrite (is_Ok_bind _ _ true) by done.
      by rewrite Hsrc, andb_true_r.
  - intros s src q Hsrc. simpl. rewrite (is_Ok_bind _ _ true) by done.
    by rewrite Hsrc, andb_true_r.
  - intros s name args Hargs. rewrite (DescribeNode_loops _ _ o).
    rewrite (is_Ok_bind _ _ true) by done. rewrite andb_true_r.
    rewrite (edges_of_Ok_Permutation _ _ (Ho _ _)), edges_of_Ok.
    simpl. induction Hargs as [|[n v] args Hv _ IH]; [done|].
    csimpl in *. by rewrite Hv, IH.
  - intros s src f Hsrc. simpl. rewrite (is_Ok_bind _ _ true) by done.
    by rewrite Hsrc, andb_true_r.
  - done.
  - done.
  - done.
  - intros ty name args Hargs. rewrite (DescribeExpr_arguments _ _ o).
    rewrite (is_Ok_bind _ _ true) by done.
    by rewrite (DescribeArguments_Ok 0 _ Hargs), andb_true_r.
  - intros ty args Hargs. rewrite (DescribeExpr_arguments _ _ o).
    rewrite (is_Ok_bind _ _ true) by done.
    by rewrite (DescribeArguments_Ok 0 _ Hargs), andb_true_r.
  - intros ty args Hargs. rewrite (DescribeExpr_arguments _ _ o).
    rewrite (is_Ok_bind _ _ true) by done.
    by rewrite (DescribeArguments_Ok 0 _ Hargs), andb_true_r.
  - intros ty src Hsrc. simpl. rewrite (is_Ok_bind _ _ true) by done.
    by rewrite Hsrc, andb_true_r.
  - intros ty args Hargs. rewrite (DescribeExpr_arguments _ _ o).
    rewrite (is_Ok_bind _ _ true) by done.
    by rewrite (DescribeArguments_Ok 0 _ Hargs), andb_true_r.
  - intros ty args Hargs. rewrite (DescribeExpr_arguments _ _ o).
    rewrite (is_Ok_bind _ _ true) by done.
    by rewrite (DescribeArguments_Ok 0 _ Hargs), andb_true_r.
  - intros ty e target He. simpl. rewrite (is_Ok_bind _ _ true) by done.
    by rewrite He, andb_true_r.
  - done.
  - done.
  - done.
  - done.
  - done.
Qed.

End OneRun.

(** *** Edge labels *)

Lemma bind_Ok_inv {A B} (m : Res A) (k : A → Res B) (b : B) :
  m ≫= k = Ok b → ∃ a, m = Ok a ∧ k a = Ok b.
Proof. destruct m as [a|]; [|done]. intros H. by exists a. Qed.

Lemma graph_children_AddChildren g es :
  graph_children (AddChildren g es) = (graph_children g ++ es)%list.
Proof. destruct g. by rewrite AddChildren_GNode. Qed.

Lemma graph_children_AddChild g name c :
  graph_children (AddChild g name c) = (graph_children g ++ [(name, c)])%list.
Proof. apply (graph_children_AddChildren g [(name, c)]). Qed.

Lemma graph_children_AddField g name v :
  graph_children (AddField g name v) = graph_children g.
Proof. by destruct g. Qed.

Lemma DescribeArguments_edges o i (l : list Expression) es :
  DescribeArguments o i l = Ok es →
  es.*1 = arg_name <$> seq i (length l)
  ∧ Forall2 (λ child e, DescribeExpr o e = Ok child) es.*2 l.
Proof.
  revert i es. induction l as [|e l IH]; intros i es H.
  - simpl in H. injection H as <-. by split; [|constructor].
  - simpl in H. apply bind_Ok_inv in H as (child & Hc & H).
    apply bind_Ok_inv in H as (rest & Hr & H). injection H as <-.
    destruct (IH _ _ Hr) as [Hn Hd]. csimpl. rewrite Hn.
    split; [done|by constructor].
Qed.

Lemma DescribeSortKeys_edges o n i (l : list Expression) ms es :
  DescribeSortKeys o n i l ms = Ok es →
  es.*1 = direction_name <$> take (length l) ms ∧ (length l ≤ length ms)%nat.
Proof.
  revert i ms es. induction l as [|e l IH]; intros i ms es H.
  - simpl in H. injection H as <-. split; [done|simpl; lia].
  - destruct ms as [|m ms]; [done|]. simpl in H.
    apply bind_Ok_inv in H as (child & Hc & H).
    apply bind_Ok_inv in H as (rest & Hr & H). injection H as <-.
    destruct (IH _ _ _ Hr) as [Hn Hl]. csimpl. rewrite Hn.
    split; [done|lia].
Qed.

Lemma DescribeAggregates_edges o n i (l : list Expression) aggs es :
  DescribeAggregates o n i l aggs = Ok es →
  es.*1 = agg_Name <$> aggs ∧ (length aggs ≤ length l)%nat.
Proof.
  revert i l es. induction aggs as [|a aggs IH]; intros i l es H.
  - destruct l; simpl in H; injection H as <-; (split; [done|simpl; lia]).
  - destruct l as [|e l]; [done|]. simpl in H.
    apply bind_Ok_inv in H as (child & Hc & H).
    apply bind_Ok_inv in H as (rest & Hr & H). injection H as <-.
    destruct (IH _ _ _ Hr) as [Hn Hl]. csimpl. rewrite Hn.
    split; [done|lia].
Qed.

Lemma DescribeMapped_edges o n i (l : list Expression) fs es :
  DescribeMapped o n i l fs = Ok es →
  es.*1 = sf_Name <$> take (length l) fs ∧ (length l ≤ length fs)%nat.
Proof.
  revert i fs es. induction l as [|e l IH]; intros i fs es H.
  - simpl in H. injection H as <-. split; [done|simpl; lia].
  - destruct fs as [|f fs]; [done|]. simpl in H.
    apply bind_Ok_inv in H as (child & Hc & H).
    apply bind_Ok_inv in H as (rest & Hr & H). injection H as <-.
    destruct (IH _ _ _ Hr) as [Hn Hl]. csimpl. rewrite Hn.
    split; [done|lia].
Qed.

Lemma edges_of_names (l : list (string * Res graph_Node)) es :
  edges_of l = Ok es → es.*1 = l.*1.
Proof.
  revert es. induction l as [|[n r] l IH]; intros es H.
  - simpl in H. by injection H as <-.
  - simpl in H. apply bind_Ok_inv in H as (child & Hc & H).
    apply bind_Ok_inv in H as (rest & Hr & H). injection H as <-.
    csimpl. by rewrite (IH _ Hr).
Qed.

(** A function call, a conjunction, a disjunction, a coalesce and a tuple
    are described with one child edge for each argument, in the order of the
    arguments: the edge of argument [i] is labelled [arg_<i>] and leads to the
    description of that argument. *)
Theorem DescribeExpr_argument_edges o (e : Expression) args g :
  expression_arguments e = Some args →
  DescribeExpr o e = Ok g →
  (graph_children g).*1 = arg_name <$> seq 0 (length args)
  ∧ Forall2 (λ child a, DescribeExpr o a = Ok child) (graph_children g).*2 args.
Proof.
  intros He H. rewrite (DescribeExpr_arguments _ _ o) in H.
  destruct e; simplify_eq/=;
    apply bind_Ok_inv in H as (es & Hes & H); injection H as <-;
    rewrite graph_children_AddChildren, ?graph_children_AddField;
    by apply DescribeArguments_edges in Hes.
Qed.


(** The description of a group by has one edge for each aggregate, labelled
    with the name of the aggregate, then the edges "key" and "source"; the
    key is one edge also when the node has no key expression, and there are
    at least as many aggregate expressions as aggregates. *)
Theorem DescribeNode_group_by_edges o s src (key : list Expression) aggs exprs g :
  DescribeNode o (NodeGroupBy s src key aggs exprs) = Ok g →
  (graph_children g).*1
  = ((agg_Name <$> aggs) ++ ["key"%string; "source"%string])%list
  ∧ (length aggs ≤ length exprs)%nat.
Proof.
  intros H. rewrite (DescribeNode_loops _ _ o) in H.
  apply bind_Ok_inv in H as (es & Hes & H).
  apply bind_Ok_inv in H as (k & Hk & H).
  apply bind_Ok_inv in H as (source & Hs & H). injection H as <-.
  apply DescribeAggregates_edges in Hes as [Hn Hl].
  rewrite !graph_children_AddChild, graph_children_AddChildren.
  split; [|done]. unfold NewNode. simpl. rewrite !fmap_app, Hn.
  by rewrite <- app_assoc.
Qed.


(** The description of a table valued function is a vertex with the name of
    the function, no field, and one edge for each argument, labelled with
    the name of the argument: in whatever order the loop over the map visits
    them, the labels are the names of the arguments. *)
Theorem DescribeNode_table_valued_function_edges o s name
    (args : list (string * Argument)) g :
  is_range_order o →
  DescribeNode o (NodeTableValuedFunction s name args) = Ok g →
  graph_name g = name ∧ graph_fields g = []
  ∧ (graph_children g).*1 ≡ₚ args.*1.
Proof.
  intros Ho H. rewrite (DescribeNode_loops _ _ o) in H.
  apply bind_Ok_inv in H as (es & Hes & H). injection H as <-.
  unfold NewNode. rewrite AddChildren_GNode. split_and!; [done|done|].
  simpl. rewrite (edges_of_names _ _ Hes), (Ho _ _).
  rewrite <- list_fmap_compose.
  assert ((fst ∘ prod_map id (DescribeArgument o)) <$> args = args.*1) as ->; [|done].
  apply list_fmap_ext. by intros i [n v] _.
Qed.

End DescribeMore.

Lemma DescribeNode_Ok_iff_describable_witness :
  is_Ok (Sample.DescribeNode backwards (NodeLimit (Sample.schema ["x"]) Sample.mapped
                                          (ExprConstant "Int" 2%Z)))
  = false.
Proof.
  exact (DescribeNode_Ok_iff_describable
           Sample.Value_String Sample.Type_String
           backwards backwards_is_range_order
           (NodeLimit (Sample.schema ["x"]) Sample.mapped (ExprConstant "Int" 2%Z))).
Defined.

Lemma DescribeExpr_argument_edges_witness :
  (graph_children
     (Sample.graph_of
        (DescribeExpr Sample.Value_String Sample.Type_String in_order
           (ExprCoalesce "Int" [ExprVariable "Int" "i" true;
                                ExprConstant "Int" 0%Z])))).*1
  = ["arg_0"; "arg_1"]%string.
Proof.
  exact (proj1 (DescribeExpr_argument_edges
                  Sample.Value_String Sample.Type_String in_order
                  (ExprCoalesce "Int" [ExprVariable "Int" "i" true;
                                       ExprConstant "Int" 0%Z])
                  [ExprVariable "Int" "i" true; ExprConstant "Int" 0%Z]
                  _ eq_refl eq_refl)).
Defined.


Lemma DescribeNode_group_by_edges_witness :
  (graph_children (Sample.graph_of (Sample.DescribeNode in_order Sample.grouped))).*1
  = ["count"; "sum"; "key"; "source"]%string.
Proof.
  refine (proj1 (DescribeNode_group_by_edges
                   Sample.Value_String Sample.Type_String in_order
                   (Sample.schema ["x_count"; "x_sum"]%string) Sample.mapped
                   [ExprVariable "Int" "i" true]
                   [{| agg_Name := "count" |}; {| agg_Name := "sum" |}]
                   [ExprVariable "Int" "x" true; ExprVariable "Int" "x" true]
                   (Sample.graph_of (Sample.DescribeNode in_order Sample.grouped))
                   _)).
  reflexivity.
Defined.


Lemma DescribeNode_table_valued_function_edges_witness :
  (graph_children
     (Sample.graph_of (Sample.DescribeNode backwards Sample.range_0_5))).*1
  ≡ₚ ["start"; "end"]%string.
Proof.
  refine (proj2 (proj2 (DescribeNode_table_valued_function_edges
                   Sample.Value_String Sample.Type_String backwards
                   (Sample.schema ["i"%string]) "range"
                   [ ("start"%string, ArgExpression (ExprConstant "Int" 0%Z));
                     ("end"%string, ArgExpression (ExprConstant "Int" 5%Z)) ]
                   (Sample.graph_of (Sample.DescribeNode backwards Sample.range_0_5))
                   backwards_is_range_order _))).
  reflexivity.
Defined.

(** ** The root command: versions, the registry, file handlers, modes *)

Section CmdMore.

Context {OValue OType : Type}.
Context (Int : OType) (NewInt : Z → OValue).
Context {PluginReference Version Constraint YamlNode Database Repository : Type}.
Context `{!EqDecision PluginReference}.
Context (Reference_Name : PluginReference → string).
Context (Reference_String : PluginReference → string).
Context (any_version : Constraint) (Check : Constraint → Version → bool).
Context (emptyYamlNode : YamlNode).
Context {LogicalNode LogicalExpression SelectStatement Direction : Type}.

Local Abbreviation PNode := (Physical.Node OValue OType).
Local Abbreviation PExpression := (Physical.Expression OValue OType).
Local Abbreviation Externals :=
  (@Cmd.Externals OValue OType PluginReference Version Constraint YamlNode
     Database Repository LogicalNode LogicalExpression SelectStatement Direction).
Local Abbreviation Typechecked :=
  (@Cmd.Typechecked OValue OType PluginReference Version Constraint YamlNode
     Database Repository LogicalExpression Direction).
Local Abbreviation OutputOptions := (@Cmd.OutputOptions LogicalExpression Direction).
Local Abbreviation Event := (@Cmd.Event OValue OType).
Local Abbreviation Sink := (@Cmd.Sink OValue OType).
Local Abbreviation Environment :=
  (@Cmd.Environment OType PluginReference Version Constraint YamlNode Database
     Repository).
Local Abbreviation DatabaseConfig :=
  (@Cmd.DatabaseConfig PluginReference Constraint YamlNode).
Local Abbreviation PluginMetadata := (@Cmd.PluginMetadata PluginReference Version).
Local Abbreviation PluginVersion := (@Cmd.PluginVersion Version).
Local Abbreviation Accessor :=
  (@Cmd.Accessor PluginReference Version Constraint YamlNode Database Repository).
Local Abbreviation ExternalCall :=
  (@Cmd.ExternalCall PluginReference Version YamlNode Repository).
Local Abbreviation Outside :=
  (@Cmd.Outside PluginReference Version YamlNode Database Repository).
Local Abbreviation finish := (Cmd.finish Int NewInt).
Local Abbreviation orderAndLimit := (Cmd.orderAndLimit Int NewInt).
Local Abbreviation firstAccepted := (Cmd.firstAccepted (Version:=Version) Check).
Local Abbreviation resolvePlugin :=
  (Cmd.resolvePlugin (PluginReference:=PluginReference) Check).
Local Abbreviation withVersion :=
  (Cmd.withVersion (PluginReference:=PluginReference) (YamlNode:=YamlNode)
     any_version).
Local Abbreviation not_installed :=
  (Cmd.not_installed (PluginReference:=PluginReference) (Constraint:=Constraint)
     (YamlNode:=YamlNode) Reference_String).
Local Abbreviation resolveVersions :=
  (Cmd.resolveVersions Reference_String any_version Check).
Local Abbreviation invoke := (Cmd.invoke Reference_Name Reference_String emptyYamlNode).
Local Abbreviation callDatabase :=
  (Cmd.callDatabase Reference_Name Reference_String emptyYamlNode).
Local Abbreviation callDatabases :=
  (Cmd.callDatabases Reference_Name Reference_String emptyYamlNode).
Local Abbreviation buildDatabases :=
  (Cmd.buildDatabases (PluginReference:=PluginReference) (Version:=Version)
     (Constraint:=Constraint) (YamlNode:=YamlNode) (Database:=Database)
     (Repository:=Repository) Reference_Name).
Local Abbreviation constraintOf :=
  (λ db : DatabaseConfig, default any_version (Cmd.db_Version db)).

(** *** Plugin versions *)

Lemma firstAccepted_Some c (versions : list PluginVersion) v :
  firstAccepted c versions = Some v →
  ∃ pv, pv ∈ versions ∧ Cmd.Number pv = v ∧ Check c v = true.
Proof.
  induction versions as [|pv versions IH]; [done|]. simpl.
  destruct (Check c (Cmd.Number pv)) eqn:Hc.
  - intros [= <-]. exists pv. split_and!; [left|done|done].
  - intros (pv' & Hin & Hn & Hok)%IH. exists pv'. split_and!; [by right|done|done].
Qed.

Lemma resolvePlugin_Some ty c (installed : list PluginMetadata) v :
  resolvePlugin ty c installed = Some v →
  ∃ plugin pv, plugin ∈ installed ∧ Cmd.Reference plugin = ty
    ∧ pv ∈ Cmd.Versions plugin ∧ Cmd.Number pv = v ∧ Check c v = true.
Proof.
  induction installed as [|plugin installed IH]; [done|]. simpl.
  destruct (decide (Cmd.Reference plugin ≠ ty)) as [Hne|Heq].
  - intros (p & pv & Hin & H)%IH. exists p, pv. split; [by right|done].
  - apply dec_stable in Heq.
    intros (pv & Hin & Hn & Hok)%firstAccepted_Some.
    exists plugin, pv. split_and!; [left|done..].
Qed.

Lemma withVersion_parts (db : DatabaseConfig) :
  Cmd.db_Name (withVersion db) = Cmd.db_Name db
  ∧ Cmd.db_Type (withVersion db) = Cmd.db_Type db
  ∧ Cmd.db_Config (withVersion db) = Cmd.db_Config db
  ∧ Cmd.db_Version (withVersion db) = Some (constraintOf db).
Proof. unfold Cmd.withVersion. by destruct db as [n t [c|] y]. Qed.

Lemma resolveVersions_inl dbs (installed : list PluginMetadata)
    (resolved : gmap string Version) dbs' resolved' :
  resolveVersions dbs installed resolved = inl (dbs', resolved') →
  dbs' = withVersion <$> dbs
  ∧ (∀ name, is_Some (resolved !! name) ∨ name ∈ Cmd.db_Name <$> dbs →
             is_Some (resolved' !! name))
  ∧ (∀ name v, resolved' !! name = Some v →
       resolved !! name = Some v
       ∨ ∃ db plugin pv, db ∈ dbs ∧ Cmd.db_Name db = name
           ∧ plugin ∈ installed ∧ Cmd.Reference plugin = Cmd.db_Type db
           ∧ pv ∈ Cmd.Versions plugin ∧ Cmd.Number pv = v
           ∧ Check (constraintOf db) v = true).
Proof.
  revert resolved dbs' resolved'.
  induction dbs as [|db dbs IH]; intros resolved dbs' resolved' H.
  - simpl in H. injection H as <- <-. split_and!; [done| |by left].
    intros name [H|H]; [done|]. csimpl in H. by apply elem_of_nil in H.
  - simpl in H. destruct (withVersion_parts db) as (Hn & Ht & _ & Hv).
    rewrite Ht, Hv, Hn in H. simpl in H.
    destruct (resolvePlugin _ _ installed) as [version|] eqn:Hres; [|done].
    destruct (resolveVersions dbs installed _) as [[dbs'' r'']|] eqn:Hrest; [|done].
    injection H as <- <-.
    destruct (IH _ _ _ Hrest) as (-> & Hdom & Hsound). split_and!.
    + done.
    + intros name Hname. apply Hdom.
      destruct (decide (name = Cmd.db_Name db)) as [->|Hne].
      * left. rewrite lookup_insert. by rewrite decide_True.
      * destruct Hname as [Hname|Hname].
        -- left. rewrite lookup_insert. by rewrite decide_False.
        -- csimpl in Hname. apply elem_of_cons in Hname as [->|Hname]; [done|].
           by right.
    + intros name v Hv'. destruct (Hsound _ _ Hv') as [Hold|Hnew].
      * rewrite lookup_insert in Hold. case_decide as Hk.
        -- injection Hold as ->. right.
           apply resolvePlugin_Some in Hres as (plugin & pv & H1 & H2 & H3 & H4 & H5).
           exists db, plugin, pv. split_and!; [left|done..].
        -- by left.
      * right. destruct Hnew as (d & plugin & pv & Hin & Hrest').
        exists d, plugin, pv. split; [by right|done].
Qed.

(** When the loop over the databases of the configuration ends without an
    error, every database has a version constraint (its own, or "*"), every
    database name has a resolved version, and a resolved version is a
    version of an installed plugin of the type of a database of that name,
    accepted by the constraint of that database. *)
Theorem resolveVersions_resolves_accepted_versions dbs
    (installed : list PluginMetadata) dbs' resolved' :
  resolveVersions dbs installed ∅ = inl (dbs', resolved') →
  dbs' = withVersion <$> dbs
  ∧ (∀ db, db ∈ dbs → is_Some (resolved' !! Cmd.db_Name db))
  ∧ (∀ name v, resolved' !! name = Some v →
       ∃ db plugin pv, db ∈ dbs ∧ Cmd.db_Name db = name
         ∧ plugin ∈ installed ∧ Cmd.Reference plugin = Cmd.db_Type db
         ∧ pv ∈ Cmd.Versions plugin ∧ Cmd.Number pv = v
         ∧ Check (constraintOf db) v = true).
Proof.
  intros (Hdbs & Hdom & Hsound)%resolveVersions_inl. split_and!; [done| |].
  - intros db Hdb. apply Hdom. right. by apply list_elem_of_fmap_2.
  - intros name v Hv. destruct (Hsound _ _ Hv) as [Hold|Hnew]; [|done].
    by rewrite lookup_empty in Hold.
Qed.

(** The loop over the installed plugins stops at the first plugin with the
    reference of the database: the versions of that entry alone are tried,
    and a later entry with the same reference is never looked at. *)
Theorem resolvePlugin_stops_at_first_plugin ty c
    (pre : list PluginMetadata) plugin rest :
  Forall (λ p, Cmd.Reference p ≠ ty) pre →
  Cmd.Reference plugin = ty →
  resolvePlugin ty c (pre ++ plugin :: rest) = firstAccepted c (Cmd.Versions plugin).
Proof.
  intros Hpre Href. induction Hpre as [|p pre Hp _ IH]; simpl.
  - rewrite decide_False; [done|]. by intros H.
  - by rewrite decide_True.
Qed.

(** The error of the loop names the first database of the configuration for
    which no version is found; the databases before it were resolved. *)
Theorem resolveVersions_reports_first_unresolved dbs
    (installed : list PluginMetadata) (resolved : gmap string Version) err :
  resolveVersions dbs installed resolved = inr err →
  ∃ pre db post, dbs = (pre ++ db :: post)%list
    ∧ err = not_installed db
    ∧ resolvePlugin (Cmd.db_Type db) (constraintOf db) installed = None
    ∧ Forall (λ d, is_Some (resolvePlugin (Cmd.db_Type d) (constraintOf d) installed))
             pre.
Proof.
  revert resolved. induction dbs as [|db dbs IH]; intros resolved H; [done|].
  simpl in H. destruct (withVersion_parts db) as (Hn & Ht & _ & Hv).
  rewrite Ht, Hv, Hn in H. simpl in H.
  destruct (resolvePlugin _ _ installed) as [version|] eqn:Hres.
  - destruct (resolveVersions dbs installed _) as [[dbs'' r'']|err'] eqn:Hrest;
      [done|]. injection H as <-.
    destruct (IH _ Hrest) as (pre & d & post & -> & Herr & Hnone & Hpre).
    exists (db :: pre), d, post. split_and!; [done..|].
    constructor; [by rewrite Hres|done].
  - injection H as <-. exists [], db, dbs. split_and!; [done| |done|done].
    unfold Cmd.not_installed. by rewrite Hn, Ht.
Qed.

(** *** The registry of databases *)

Lemma defaultDatabases_kept (installed : list PluginMetadata)
    (databases : gmap string Accessor) k a :
  databases !! k = Some a →
  Cmd.defaultDatabases Reference_Name installed databases !! k = Some a.
Proof.
  unfold Cmd.defaultDatabases. revert databases.
  induction installed as [|m installed IH]; intros databases H; [done|].
  simpl. apply IH. destruct (databases !! Reference_Name _) eqn:Hm; [done|].
  rewrite lookup_insert. case_decide as Hk; [|done]. subst k. congruence.
Qed.

(** The names "plugins", "docs" and "lines" always reach the built-in
    databases: a configured database, and an installed plugin, of one of
    these names has no accessor of its own. *)
Theorem builtin_databases_shadow dbs (resolved : gmap string Version)
    (installed : list PluginMetadata) :
  buildDatabases dbs resolved installed !! "plugins"%string
  = Some (Cmd.PluginsDatabase (Cmd.fresh_cell []))
  ∧ buildDatabases dbs resolved installed !! "docs"%string = Some Cmd.DocsDatabase
  ∧ buildDatabases dbs resolved installed !! "lines"%string = Some Cmd.LinesDatabase.
Proof.
  unfold Cmd.buildDatabases, Cmd.builtinDatabases.
  split_and!; apply defaultDatabases_kept.
  - rewrite lookup_insert, decide_False by done.
    rewrite lookup_insert, decide_False by done.
    by rewrite lookup_insert, decide_True.
  - rewrite lookup_insert, decide_False by done.
    by rewrite lookup_insert, decide_True.
  - by rewrite lookup_insert, decide_True.
Qed.

Lemma configuredDatabases_last (resolved : gmap string Version)
    (post : list DatabaseConfig) (acc : gmap string Accessor) name a :
  Forall (λ d, Cmd.db_Name d ≠ name) post →
  acc !! name = Some a →
  fold_left
    (λ databases dbConfig,
       <[Cmd.db_Name dbConfig :=
           Cmd.ConfiguredDatabase dbConfig (resolved !! Cmd.db_Name dbConfig)
             (Cmd.fresh_cell None)]> databases) post acc !! name = Some a.
Proof.
  intros Hpost. revert acc. induction Hpost as [|d post Hd _ IH]; intros acc H; [done|].
  simpl. apply IH. by rewrite lookup_insert, decide_False.
Qed.

(** A configured database whose name is not one of the built-in names is
    reached by its name, unless a later database of the configuration has
    the same name; an installed plugin of that name gets no database of its
    own.  The accessor holds the version resolved for the name and has not
    run its plugin. *)
Theorem configured_database_registered (pre post : list DatabaseConfig) db
    (resolved : gmap string Version) (installed : list PluginMetadata) :
  Forall (λ d, Cmd.db_Name d ≠ Cmd.db_Name db) post →
  Cmd.db_Name db ≠ "plugins"%string →
  Cmd.db_Name db ≠ "docs"%string →
  Cmd.db_Name db ≠ "lines"%string →
  buildDatabases (pre ++ db :: post) resolved installed !! Cmd.db_Name db
  = Some (Cmd.ConfiguredDatabase db (resolved !! Cmd.db_Name db) (Cmd.fresh_cell None)).
Proof.
  intros Hpost Hp Hd Hl.
  unfold Cmd.buildDatabases, Cmd.builtinDatabases, Cmd.configuredDatabases.
  apply defaultDatabases_kept.
  rewrite !lookup_insert, !decide_False by done.
  rewrite fold_left_app. simpl. apply configuredDatabases_last; [done|].
  by rewrite lookup_insert, decide_True.
Qed.

Lemma callDatabases_settled_default (outside : Outside) n key
    (databases : gmap string Accessor) (calls : list ExternalCall) curMetadata :
  databases !! key
  = Some (Cmd.DefaultDatabase curMetadata (Cmd.mark_done (Cmd.fresh_cell None))) →
  (callDatabases outside (replicate n key) databases calls).1.1
  = replicate n (key, Cmd.CallAnswered None None)
  ∧ (callDatabases outside (replicate n key) databases calls).2 = calls.
Proof.
  revert databases. induction n as [|n IH]; intros databases H; [done|].
  simpl. unfold Cmd.callDatabase. rewrite H. simpl.
  specialize (IH (<[key := Cmd.DefaultDatabase curMetadata
                             (Cmd.mark_done (Cmd.fresh_cell None))]> databases)).
  destruct (callDatabases outside (replicate n key) _ calls) as [[rest dbs'] calls'].
  simpl in *. destruct IH as [-> ->]; [|done].
  by rewrite lookup_insert, decide_True.
Qed.

(** The database of an installed plugin that lists no version: the first
    call of its accessor panics, indexing the empty list of versions inside
    [once.Do]; the once counts as done, so every later call returns a nil
    database with a nil error.  The plugin is never run. *)
Theorem default_database_without_versions (outside : Outside) n key
    (databases : gmap string Accessor) (calls : list ExternalCall) curMetadata :
  databases !! key = Some (Cmd.DefaultDatabase curMetadata (Cmd.fresh_cell None)) →
  Cmd.Versions curMetadata = [] →
  (callDatabases outside (replicate (S n) key) databases calls).1.1
  = (key, Cmd.CallPanicked (IndexOutOfRange 0 0))
    :: replicate n (key, Cmd.CallAnswered None None)
  ∧ (callDatabases outside (replicate (S n) key) databases calls).2 = calls.
Proof.
  intros H Hv. simpl. unfold Cmd.callDatabase. rewrite H. simpl. rewrite Hv.
  pose proof (callDatabases_settled_default outside n key
    (<[key := Cmd.DefaultDatabase curMetadata
                (Cmd.mark_done (Cmd.fresh_cell None))]> databases) calls curMetadata) as IH.
  destruct (callDatabases outside (replicate n key) _ calls) as [[rest dbs'] calls'].
  simpl in *. destruct IH as [-> ->]; [|done].
  by rewrite lookup_insert, decide_True.
Qed.

Lemma callDatabases_failed_plugins (outside : Outside) n key
    (databases : gmap string Accessor) (calls : list ExternalCall) repositories err :
  databases !! key = Some (Cmd.PluginsDatabase (Cmd.ran repositories (Some err))) →
  (callDatabases outside (replicate n key) databases calls).1.1
  = replicate n (key, Cmd.CallAnswered None
                        (Some (Cmd.Errorf_w "couldn't get repositories: " err)))
  ∧ (callDatabases outside (replicate n key) databases calls).2 = calls.
Proof.
  revert databases. induction n as [|n IH]; intros databases H; [done|].
  simpl. unfold Cmd.callDatabase. rewrite H. simpl.
  specialize (IH (<[key := Cmd.PluginsDatabase (Cmd.ran repositories (Some err))]>
                    databases)).
  destruct (callDatabases outside (replicate n key) _ calls) as [[rest dbs'] calls'].
  simpl in *. destruct IH as [-> ->]; [|done].
  by rewrite lookup_insert, decide_True.
Qed.

(** When [GetRepositories] fails at the first call of the "plugins"
    accessor, the error is kept: that call and every later one return it
    wrapped, the repositories are not asked for again, and [plugins.Creator]
    is never called. *)
Theorem plugins_repositories_error_kept (outside : Outside) n key
    (databases : gmap string Accessor) (calls : list ExternalCall) repositories err :
  databases !! key = Some (Cmd.PluginsDatabase (Cmd.fresh_cell [])) →
  Cmd.GetRepositories_answer outside calls = (repositories, Some err) →
  (callDatabases outside (replicate (S n) key) databases calls).1.1
  = replicate (S n) (key, Cmd.CallAnswered None
                            (Some (Cmd.Errorf_w "couldn't get repositories: " err)))
  ∧ (callDatabases outside (replicate (S n) key) databases calls).2
    = (calls ++ [Cmd.GetRepositories])%list.
Proof.
  intros H Hrep. simpl. unfold Cmd.callDatabase. rewrite H. simpl. rewrite Hrep.
  simpl.
  pose proof (callDatabases_failed_plugins outside n key
    (<[key := Cmd.PluginsDatabase (Cmd.ran repositories (Some err))]> databases)
    (calls ++ [Cmd.GetRepositories]) repositories err) as IH.
  destruct (callDatabases outside (replicate n key) _ _) as [[rest dbs'] calls'].
  simpl in *. destruct IH as [-> ->]; [|done].
  by rewrite lookup_insert, decide_True.
Qed.

(** *** File handlers *)

Lemma fileHandlers_fold (handler : Cmd.FileHandler) (visited : list (string * string))
    (acc : gmap string Cmd.FileHandler) e :
  fold_left (λ fileHandlers entry, <[entry.1 := handler]> fileHandlers) visited acc !! e
  = if decide (e ∈ visited.*1) then Some handler else acc !! e.
Proof.
  revert acc. induction visited as [|[e' p'] visited IH]; intros acc; [done|].
  simpl. rewrite IH. csimpl.
  destruct (decide (e ∈ visited.*1)) as [Hin|Hnin].
  - rewrite decide_True; [done|]. by right.
  - rewrite lookup_insert. destruct (decide (e' = e)) as [->|Hne].
    + rewrite decide_True; [done|]. left.
    + rewrite decide_False; [done|]. intros [->|?]%elem_of_cons; done.
Qed.

(** The closures made by the loop over the file extension handlers all read
    the loop variables [ext] and [pluginName] when they are called: the
    handler of every extension of a plugin uses the plugin, and names the
    extension, of the entry the loop visited last.  An extension no plugin
    handles keeps its built-in handler, if it has one. *)
Theorem plugin_file_handlers_share_last_entry (visited : list (string * string))
    ext pluginName :
  last visited = Some (ext, pluginName) →
  (∀ e p, (e, p) ∈ visited →
     Cmd.buildFileHandlers visited !! e = Some (Cmd.PluginTable ext pluginName))
  ∧ (∀ e, e ∉ visited.*1 →
       Cmd.buildFileHandlers visited !! e = Cmd.buildFileHandlers [] !! e).
Proof.
  intros Hlast. unfold Cmd.buildFileHandlers. rewrite Hlast. simpl. split.
  - intros e p Hin. rewrite fileHandlers_fold, decide_True; [done|].
    by apply (list_elem_of_fmap_2 fst visited (e, p)).
  - intros e Hnin. by rewrite fileHandlers_fold, decide_False.
Qed.

(** *** The order, the limit and the modes of the command *)

(** The push-down keeps the schema of the plan.  A plan with retractions is
    left as it is, with the order-by expressions and the limit for the sink.
    A plan without retractions always ends in a limit node over the plan (or
    over its sort, when there are order-by expressions), also when the query
    has no limit; nothing is left for the sink to order, and the limit of the
    output options is 0. *)
Theorem orderAndLimit_cases (ext : Externals) (plan : PNode)
    (exprs : list PExpression) (opts : OutputOptions) :
  Physical.Node_Schema (orderAndLimit ext plan exprs opts).1.1
  = Physical.Node_Schema plan
  ∧ if Physical.NoRetractions (Physical.Node_Schema plan)
    then (orderAndLimit ext plan exprs opts).1.2 = []
         ∧ Cmd.Limit (orderAndLimit ext plan exprs opts).2 = 0%Z
         ∧ (orderAndLimit ext plan exprs opts).1.1
           = Physical.NodeLimit (Physical.Node_Schema plan)
               (match exprs with
                | [] => plan
                | _ :: _ =>
                    Physical.NodeOrderBy (Physical.Node_Schema plan) plan exprs
                      (Cmd.DirectionsToMultipliers ext (Cmd.OrderByDirections opts))
                end)
               (Physical.ExprConstant Int (NewInt (Cmd.Limit opts)))
    else orderAndLimit ext plan exprs opts = (plan, exprs, opts).
Proof.
  unfold Cmd.orderAndLimit.
  destruct (Physical.NoRetractions (Physical.Node_Schema plan)) eqn:Hnr; simpl.
  - destruct exprs as [|e exprs]; simpl; rewrite Hnr; simpl; done.
  - by rewrite Hnr.
Qed.

(** With [--describe] the flags [--explain] and [--optimize] are not read:
    the command does what it does with [--explain=0] and without
    [--optimize]. *)
Theorem describe_ignores_explain_and_optimize (ext : Externals) (flags : Cmd.Flags)
    (t : Typechecked) :
  Cmd.describe flags = true →
  finish ext flags t
  = finish ext {| Cmd.describe := true; Cmd.explain := 0; Cmd.optimize := false;
                  Cmd.output := Cmd.output flags |} t.
Proof.
  destruct flags as [describe explain optimize output]. simpl. intros ->.
  unfold Cmd.finish. simpl.
  by destruct (orderAndLimit ext _ _ _) as [[plan exprs] opts].
Qed.


(** When the typecheck of the order-by expressions fails, the error names
    the index of the first expression whose typecheck gave an error, and
    wraps that error; the expressions before it gave none, and those after
    it are not typechecked for the error. *)
Theorem typecheckOrderBy_reports_first_failure (ext : Externals)
    (exprs : list LogicalExpression) (env : Environment)
    (mapping : gmap string string) k err :
  Cmd.typecheckOrderBy ext k exprs env mapping = inr err →
  ∃ i e cause,
    exprs !! i = Some e
    ∧ (Cmd.typecheckExpr (Cmd.Typecheck_expr ext e env mapping)).2 = Some cause
    ∧ err = Cmd.Errorf_w ("couldn't typecheck order by expression with index "
                          ++ pretty (k + i) ++ ": ")%string cause
    ∧ ∀ j e', j < i → exprs !! j = Some e' →
        (Cmd.typecheckExpr (Cmd.Typecheck_expr ext e' env mapping)).2 = None.
Proof.
  revert k. induction exprs as [|e exprs IH]; intros k H; [done|].
  simpl in H.
  destruct (Cmd.typecheckExpr (Cmd.Typecheck_expr ext e env mapping))
    as [physicalExpr [cause|]] eqn:He.
  - injection H as <-. exists 0, e, cause. rewrite Nat.add_0_r.
    split_and!; [done|by rewrite He|done|]. intros j e' Hj. lia.
  - destruct (Cmd.typecheckOrderBy ext (S k) exprs env mapping) as [rest|err']
      eqn:Hrest; [done|]. injection H as <-.
    destruct (IH _ Hrest) as (i & e0 & cause & Hi & Hc & -> & Hbefore).
    exists (S i), e0, cause. split_and!; [done|done| |].
    + by replace (k + S i) with (S k + i) by lia.
    + intros [|j] e' Hj Hj'; simpl in Hj'.
      * injection Hj' as <-. by rewrite He.
      * apply (Hbefore j); [lia|done].
Qed.

End CmdMore.

Lemma resolveVersions_resolves_accepted_versions_witness :
  is_Some (({[ "db"%string := 2 ]} : gmap string nat) !! "db"%string).
Proof.
  refine (proj1 (proj2 (resolveVersions_resolves_accepted_versions
                   (λ ref : string, ref) 0 (λ (c v : nat), bool_decide (c ≤ v))
                   (Cmd.Databases Cmd.Sample.config) Cmd.Sample.installed
                   [ {| Cmd.db_Name := "db"; Cmd.db_Type := "postgres";
                        Cmd.db_Version := Some 0; Cmd.db_Config := "{}" |}%string ]
                   {[ "db"%string := 2 ]} _))
            {| Cmd.db_Name := "db"; Cmd.db_Type := "postgres";
               Cmd.db_Version := None; Cmd.db_Config := "{}" |}%string _).
  - reflexivity.
  - left.
Defined.

Lemma resolvePlugin_stops_at_first_plugin_witness :
  Cmd.resolvePlugin (λ (c v : nat), bool_decide (c ≤ v)) "postgres"%string 3
    [ {| Cmd.Reference := "mysql"%string; Cmd.Versions := [ {| Cmd.Number := 5 |} ] |};
      {| Cmd.Reference := "postgres"%string; Cmd.Versions := [ {| Cmd.Number := 2 |} ] |};
      {| Cmd.Reference := "postgres"%string; Cmd.Versions := [ {| Cmd.Number := 4 |} ] |} ]
  = None.
Proof.
  refine (resolvePlugin_stops_at_first_plugin
            (λ (c v : nat), bool_decide (c ≤ v)) "postgres"%string 3
            [ {| Cmd.Reference := "mysql"%string;
                 Cmd.Versions := [ {| Cmd.Number := 5 |} ] |} ]
            {| Cmd.Reference := "postgres"%string;
               Cmd.Versions := [ {| Cmd.Number := 2 |} ] |}
            [ {| Cmd.Reference := "postgres"%string;
                 Cmd.Versions := [ {| Cmd.Number := 4 |} ] |} ]
            _ eq_refl).
  repeat constructor. simpl. discriminate.
Defined.

Lemma resolveVersions_reports_first_unresolved_witness :
  ∃ pre db post,
    [ {| Cmd.db_Name := "db"; Cmd.db_Type := "postgres";
         Cmd.db_Version := None; Cmd.db_Config := "{}" |};
      {| Cmd.db_Name := "old"; Cmd.db_Type := "postgres";
         Cmd.db_Version := Some 3; Cmd.db_Config := "{}" |} ]%string
    = (pre ++ db :: post)%list
    ∧ Cmd.Err "database 'old' plugin 'postgres' used in configuration is not installed with the required version - run `octosql plugin install` to install all missing plugins"
      = Cmd.not_installed (λ ref : string, ref) db
    ∧ Cmd.resolvePlugin (λ (c v : nat), bool_decide (c ≤ v)) (Cmd.db_Type db)
        (default 0 (Cmd.db_Version db)) Cmd.Sample.installed = None
    ∧ Forall (λ d, is_Some (Cmd.resolvePlugin (λ (c v : nat), bool_decide (c ≤ v))
                              (Cmd.db_Type d) (default 0 (Cmd.db_Version d))
                              Cmd.Sample.installed)) pre.
Proof.
  refine (resolveVersions_reports_first_unresolved
            (λ ref : string, ref) 0 (λ (c v : nat), bool_decide (c ≤ v))
            [ {| Cmd.db_Name := "db"; Cmd.db_Type := "postgres";
                 Cmd.db_Version := None; Cmd.db_Config := "{}" |};
              {| Cmd.db_Name := "old"; Cmd.db_Type := "postgres";
                 Cmd.db_Version := Some 3; Cmd.db_Config := "{}" |} ]%string
            Cmd.Sample.installed ∅ _ _).
  reflexivity.
Defined.

Lemma configured_database_registered_witness :
  Cmd.Sample.databases !! "db"%string
  = Some (Cmd.ConfiguredDatabase
            {| Cmd.db_Name := "db"; Cmd.db_Type := "postgres";
               Cmd.db_Version := None; Cmd.db_Config := "{}" |}%string
            (Some 2) (Cmd.fresh_cell None)).
Proof.
  refine (configured_database_registered (λ ref : string, ref) [] []
            {| Cmd.db_Name := "db"; Cmd.db_Type := "postgres";
               Cmd.db_Version := None; Cmd.db_Config := "{}" |}%string
            {[ "db"%string := 2 ]} Cmd.Sample.installed _ _ _ _).
  - constructor.
  - discriminate.
  - discriminate.
  - discriminate.
Defined.

Lemma default_database_without_versions_witness :
  (Cmd.callDatabases (λ ref : string, ref) (λ ref : string, ref) "{}"%string
     Cmd.Sample.outside ["bare"; "bare"; "bare"]%string Cmd.Sample.bare_databases []).1.1
  = [ ("bare"%string, Cmd.CallPanicked (IndexOutOfRange 0 0));
      ("bare"%string, Cmd.CallAnswered None None);
      ("bare"%string, Cmd.CallAnswered None None) ].
Proof.
  refine (proj1 (default_database_without_versions
                   (λ ref : string, ref) (λ ref : string, ref) "{}"%string
                   Cmd.Sample.outside 2 "bare"%string Cmd.Sample.bare_databases []
                   Cmd.Sample.bare _ _)).
  - reflexivity.
  - reflexivity.
Defined.

Lemma plugins_repositories_error_kept_witness :
  (Cmd.callDatabases (λ ref : string, ref) (λ ref : string, ref) "{}"%string
     Cmd.Sample.offline ["plugins"; "plugins"]%string Cmd.Sample.databases []).2
  = [Cmd.GetRepositories].
Proof.
  refine (proj2 (plugins_repositories_error_kept
                   (λ ref : string, ref) (λ ref : string, ref) "{}"%string
                   Cmd.Sample.offline 1 "plugins"%string Cmd.Sample.databases []
                   [] (Cmd.Err "offline") _ _)).
  - reflexivity.
  - reflexivity.
Defined.

Lemma plugin_file_handlers_share_last_entry_witness :
  Cmd.buildFileHandlers [("xlsx", "excel"); ("ods", "sheets")]%string !! "xlsx"%string
  = Some (Cmd.PluginTable "ods" "sheets").
Proof.
  refine (proj1 (plugin_file_handlers_share_last_entry
                   [("xlsx", "excel"); ("ods", "sheets")]%string
                   "ods"%string "sheets"%string _)
            "xlsx"%string "excel"%string _).
  - reflexivity.
  - left.
Defined.

Lemma describe_ignores_explain_and_optimize_witness :
  Cmd.finish "Int"%string id Cmd.Sample.externals
    {| Cmd.describe := true; Cmd.explain := 2; Cmd.optimize := true;
       Cmd.output := "csv" |}
    (Cmd.Sample.typechecked "SELECT * FROM t LIMIT 2")
  = Cmd.finish "Int"%string id Cmd.Sample.externals
      {| Cmd.describe := true; Cmd.explain := 0; Cmd.optimize := false;
         Cmd.output := "csv" |}
      (Cmd.Sample.typechecked "SELECT * FROM t LIMIT 2").
Proof.
  refine (describe_ignores_explain_and_optimize "Int"%string id
            Cmd.Sample.externals
            {| Cmd.describe := true; Cmd.explain := 2; Cmd.optimize := true;
               Cmd.output := "csv" |}
            (Cmd.Sample.typechecked "SELECT * FROM t LIMIT 2") _).
  reflexivity.
Defined.


Lemma typecheckOrderBy_reports_first_failure_witness :
  ∃ i e cause,
    [ Physical.ExprVariable "Int" "v" true; Physical.ExprOther "Int" "window";
      Physical.ExprOther "Int" "lambda" ]%string !! i = Some e
    ∧ (Cmd.typecheckExpr
         (Cmd.Typecheck_expr Cmd.Sample.strict e Cmd.Sample.empty_env ∅)).2
      = Some cause
    ∧ Cmd.Errorf_w "couldn't typecheck order by expression with index 1: "
        (Cmd.Err "typecheck error: unknown expression window")
      = Cmd.Errorf_w ("couldn't typecheck order by expression with index "
                      ++ pretty (0 + i) ++ ": ")%string cause
    ∧ ∀ j e', j < i →
        [ Physical.ExprVariable "Int" "v" true; Physical.ExprOther "Int" "window";
          Physical.ExprOther "Int" "lambda" ]%string !! j = Some e' →
        (Cmd.typecheckExpr
           (Cmd.Typecheck_expr Cmd.Sample.strict e' Cmd.Sample.empty_env ∅)).2
        = None.
Proof.
  refine (typecheckOrderBy_reports_first_failure Cmd.Sample.strict
            [ Physical.ExprVariable "Int" "v" true; Physical.ExprOther "Int" "window";
              Physical.ExprOther "Int" "lambda" ]%string
            Cmd.Sample.empty_env ∅ 0 _ _).
  vm_compute. reflexivity.
Defined.
